(** * commitgen: the response parser, the history ranker, the symbol
    extractor, the diff collector, the check runner and the workflow engine.

    A shallow embedding of the TypeScript sources and the properties the
    specification states about them.

    Conventions of the embedding.
    - A JavaScript string is the list of its UTF-16 code units
      ([jsstring = list N]); [length] is then the JS [.length].
    - A JavaScript [number] that holds a count is a [nat] or a [Z]; the
      similarity scores are binary64 numbers, modelled as the rationals
      ([Q]) they denote, with every multiplication and addition rounded to
      the nearest binary64 value ([Binary64.binary64]).
    - [Map] and [Set] objects are stdpp's [gmap] and [gset] where only
      lookups and sizes are observed, and association lists where the
      insertion order is observed.
    - Code that talks to the outside world (git, the terminal, the model
      providers) is written in a state-and-exception monad over an abstract
      world; the collaborators are records of handlers, and the built-ins
      of the language that the code relies on (case mapping, the
      regular-expression engine, glob matching) are section variables. *)

From Stdlib Require Import ZArith NArith QArith Qround Qpower Lqa String Ascii List Lia
  Sorting.Sorted.
From stdpp Require Import base list gmap sets sorting.

Set Default Proof Using "Type".

(* ===================================================================== *)
(** ** JavaScript strings *)
(* ===================================================================== *)

Module Js.

Abbreviation jsstring := (list N).

(** A string literal of the source (ASCII only). *)
Definition lit (s : string) : jsstring :=
  List.map N_of_ascii (list_ascii_of_string s).

Definition LF : N := 10%N.
Definition CR : N := 13%N.

(** ECMAScript [LineTerminator]: LF, CR, U+2028, U+2029. *)
Definition isLineTerminator (c : N) : bool :=
  (c =? 10)%N || (c =? 13)%N || (c =? 8232)%N || (c =? 8233)%N.

(** ECMAScript [WhiteSpace] or [LineTerminator]: what [trim] strips and
    what [\s] matches. *)
Definition isWhiteSpace (c : N) : bool :=
  (c =? 9)%N || (c =? 11)%N || (c =? 12)%N || (c =? 32)%N || (c =? 160)%N
  || (c =? 5760)%N || ((8192 <=? c)%N && (c <=? 8202)%N)
  || (c =? 8239)%N || (c =? 8287)%N || (c =? 12288)%N || (c =? 65279)%N
  || isLineTerminator c.

(** [[a-z]] *)
Definition isLower (c : N) : bool := (97 <=? c)%N && (c <=? 122)%N.
(** [[A-Z]] *)
Definition isUpper (c : N) : bool := (65 <=? c)%N && (c <=? 90)%N.
(** [[a-z]] under the [i] flag of a non-unicode regular expression: the
    canonicalisation never maps a non-ASCII code unit to an ASCII one, so
    the class is exactly the ASCII letters. *)
Definition isAsciiLetter (c : N) : bool := isLower c || isUpper c.

Fixpoint dropWhile {A} (p : A -> bool) (l : list A) : list A :=
  match l with
  | [] => []
  | x :: l' => if p x then dropWhile p l' else l
  end.

Definition trimStart (s : jsstring) : jsstring := dropWhile isWhiteSpace s.
Definition trimEnd (s : jsstring) : jsstring :=
  rev (dropWhile isWhiteSpace (rev s)).
Definition trim (s : jsstring) : jsstring := trimEnd (trimStart s).

(** [s.startsWith(p)]; [stripPrefix] also returns what follows [p]. *)
Fixpoint stripPrefix (p s : jsstring) : option jsstring :=
  match p, s with
  | [], _ => Some s
  | _ :: _, [] => None
  | a :: p', b :: s' => if (a =? b)%N then stripPrefix p' s' else None
  end.

Definition startsWith (p s : jsstring) : bool :=
  match stripPrefix p s with Some _ => true | None => false end.

Definition endsWith (p s : jsstring) : bool := startsWith (rev p) (rev s).

(** [hay.includes(needle)] *)
Fixpoint includes (needle hay : jsstring) : bool :=
  startsWith needle hay
  || match hay with
     | [] => false
     | _ :: hay' => includes needle hay'
     end.

(** [s.split(sep)] for a separator of one code unit; the result is never
    empty. *)
Fixpoint split (sep : N) (s : jsstring) : list jsstring :=
  match s with
  | [] => [[]]
  | c :: s' =>
      if (c =? sep)%N then [] :: split sep s'
      else match split sep s' with
           | [] => [[c]]
           | l :: ls => (c :: l) :: ls
           end
  end.

(** [parts.join(sep)] *)
Fixpoint join (sep : jsstring) (parts : list jsstring) : jsstring :=
  match parts with
  | [] => []
  | [p] => p
  | p :: ps => p ++ sep ++ join sep ps
  end.

(** The relative index of [slice]: a negative index counts from the end,
    and the result is clamped to [0 .. len]. *)
Definition relIndex (len i : Z) : Z :=
  if (i <? 0)%Z then Z.max (len + i) 0 else Z.min i len.

(** [x.slice(from, to)], on strings and on arrays. *)
Definition slice {A} (from to : Z) (l : list A) : list A :=
  let len := Z.of_nat (length l) in
  let k := relIndex len from in
  let final := relIndex len to in
  take (Z.to_nat (final - k)) (drop (Z.to_nat k) l).

(** *** Basic facts *)

Lemma dropWhile_id {A} (p : A -> bool) (l : list A) :
  match l with [] => True | x :: _ => p x = false end ->
  dropWhile p l = l.
Proof. destruct l as [|x l]; simpl; [done|]. by intros ->. Qed.

Lemma stripPrefix_app (p s rest : jsstring) :
  stripPrefix p s = Some rest -> s = p ++ rest.
Proof.
  revert s; induction p as [|a p IH]; intros [|b s] H; simpl in *;
    try congruence.
  destruct (N.eqb_spec a b) as [->|]; [|done].
  f_equal. by apply IH.
Qed.

Lemma split_nonempty (sep : N) (s : jsstring) : split sep s <> [].
Proof.
  induction s as [|c s IH]; simpl; [done|].
  destruct (c =? sep)%N; [done|]. by destruct (split sep s).
Qed.

(** No piece of a split contains the separator. *)
Lemma split_no_sep (sep : N) (s : jsstring) :
  Forall (fun piece => sep ∉ piece) (split sep s).
Proof.
  induction s as [|c s IH]; simpl.
  - repeat constructor. apply not_elem_of_nil.
  - destruct (N.eqb_spec c sep) as [->|Hne].
    + constructor; [apply not_elem_of_nil | done].
    + destruct (split sep s) as [|l ls]; [|inversion IH; subst].
      * repeat constructor. intros [->%eq_sym| H]%elem_of_cons; [done|].
        by apply not_elem_of_nil in H.
      * constructor; [|done].
        intros [->%eq_sym| H]%elem_of_cons; done.
  Qed.

(** A piece not containing the separator is a fixed point of
    "first piece of the split". *)
Lemma split_no_sep_id (sep : N) (s : jsstring) :
  sep ∉ s -> split sep s = [s].
Proof.
  induction s as [|c s IH]; simpl; [done|].
  intros [Hc Hs]%not_elem_of_cons.
  destruct (N.eqb_spec c sep) as [->|_]; [done|].
  by rewrite IH.
Qed.

End Js.

Import Js.

(* ===================================================================== *)
(** ** utils/validators.ts: [ResponseValidator] *)
(* ===================================================================== *)

Module ResponseValidator.

Definition fence : jsstring := lit "```".
Definition dquote : N := 34%N.
Definition squote : N := 39%N.

(** The fixed fallback of [sanitizeMessage]. *)
Definition fallbackMessage : jsstring := lit "chore: update code".

(** [message.replace(/^```[a-z]*\n?/, '')]: at the start of the string only,
    the fence, the longest run of lower-case letters and one optional LF. *)
Definition stripOpeningFence (m : jsstring) : jsstring :=
  match stripPrefix fence m with
  | Some rest =>
      match dropWhile isLower rest with
      | c :: r => if (c =? LF)%N then r else c :: r
      | [] => []
      end
  | None => m
  end.

(** [message.replace(/\n?```$/, '')]: the pattern has no [m] flag, so [$] is
    the end of the string; the leftmost match takes the LF before the fence
    when there is one. *)
Definition stripClosingFence (m : jsstring) : jsstring :=
  if endsWith fence m then
    let body := take (length m - 3) m in
    if endsWith [LF] body then take (length body - 1) body else body
  else m.

(** [(m.startsWith(q) && m.endsWith(q))] for either quote character. *)
Definition isQuoted (m : jsstring) : bool :=
  (startsWith [dquote] m && endsWith [dquote] m)
  || (startsWith [squote] m && endsWith [squote] m).

Definition unquote (m : jsstring) : jsstring :=
  if isQuoted m then slice 1 (-1) m else m.

(** [message.split('\n')[0]] *)
Definition firstLine (m : jsstring) : jsstring := hd [] (split LF m).

Definition isValidCommitMessage (message : jsstring) : bool :=
  (3 <? length message) && (length message <? 100)
  && negb (includes [LF] message).

(** [message.replace(/^[^a-z]/i, '')]: one leading code unit is removed when
    it is not an ASCII letter. *)
Definition stripLeadingNonLetter (message : jsstring) : jsstring :=
  match message with
  | c :: rest => if isAsciiLetter c then message else rest
  | [] => []
  end.

Definition sanitizeMessage (message : jsstring) : jsstring :=
  let message := trim (stripLeadingNonLetter message) in
  if isValidCommitMessage message then message else fallbackMessage.

(** The message before validation: trimmed, fences removed, one layer of
    quotes removed, first line kept. *)
Definition cleanedFirstLine (response : jsstring) : jsstring :=
  let message := trim response in
  let message := stripClosingFence (stripOpeningFence message) in
  let message := unquote message in
  firstLine message.

Definition parseCommitMessage (response : jsstring) : jsstring :=
  let message := cleanedFirstLine response in
  if isValidCommitMessage message then message else sanitizeMessage message.

(** A message that every cleaning stage leaves alone: no white space at
    either end, no fence at either end, no pair of quotes around it. *)
Definition isClean (m : jsstring) : bool :=
  bool_decide (trim m = m)
  && negb (startsWith fence m) && negb (endsWith fence m)
  && negb (isQuoted m).

(** *** Examples from the specification *)

Example scenario_C_fenced_reply :
  parseCommitMessage (lit "```" ++ [LF] ++ lit "[feature] add login" ++ [LF] ++ lit "```")
  = lit "[feature] add login".
Proof. reflexivity. Qed.

Example scenario_D_long_run_on :
  parseCommitMessage (replicate 200 97%N) = fallbackMessage.
Proof. vm_compute. reflexivity. Qed.

Example sanitize_strips_one_char :
  parseCommitMessage (lit "-" ++ replicate 99 97%N) = replicate 99 97%N.
Proof. vm_compute. reflexivity. Qed.

(** *** Facts about validity *)

Lemma includes_single (c : N) (s : jsstring) :
  includes [c] s = true <-> c ∈ s.
Proof.
  induction s as [|d s IH]; simpl.
  - split; [done|]. intros H. by apply not_elem_of_nil in H.
  - unfold startsWith; simpl. rewrite elem_of_cons.
    destruct (N.eqb_spec c d) as [->|Hne]; simpl.
    + split; auto.
    + rewrite IH. split; [auto|]. by intros [?|?].
Qed.

Lemma isValid_spec (m : jsstring) :
  isValidCommitMessage m = true <-> 3 < length m < 100 /\ LF ∉ m.
Proof.
  unfold isValidCommitMessage.
  rewrite !andb_true_iff, negb_true_iff, !Nat.ltb_lt.
  rewrite <- not_true_iff_false, includes_single. tauto.
Qed.

Lemma fallbackMessage_valid : isValidCommitMessage fallbackMessage = true.
Proof. reflexivity. Qed.

Lemma sanitizeMessage_valid (m : jsstring) :
  isValidCommitMessage (sanitizeMessage m) = true.
Proof.
  unfold sanitizeMessage.
  destruct (isValidCommitMessage (trim (stripLeadingNonLetter m))) eqn:E;
    [exact E | exact fallbackMessage_valid].
Qed.

Lemma parseCommitMessage_isValid (response : jsstring) :
  isValidCommitMessage (parseCommitMessage response) = true.
Proof.
  unfold parseCommitMessage.
  destruct (isValidCommitMessage (cleanedFirstLine response)) eqn:E;
    [exact E | apply sanitizeMessage_valid].
Qed.

(** C2, as stated, fails: a valid message may be 99 code units long, which
    is not strictly below 99. *)
Lemma parseCommitMessage_length_99 :
  let out := parseCommitMessage (replicate 99 97%N) in
  ~ (3 < length out /\ length out < 99).
Proof. vm_compute. lia. Qed.

(** C2 (amended): the result of [parseCommitMessage] is longer than 3 and
    shorter than 100 code units and holds no line feed; it is the cleaned
    first line when that is valid, else that line with one leading
    non-letter removed and trimmed when this is valid, else exactly the
    fallback ["chore: update code"]. *)
Theorem parseCommitMessage_valid_or_fallback (response : jsstring) :
  let out := parseCommitMessage response in
  let m := cleanedFirstLine response in
  let m' := trim (stripLeadingNonLetter m) in
  (3 < length out < 100) /\ (LF ∉ out)
  /\ out = (if isValidCommitMessage m then m
            else if isValidCommitMessage m' then m'
            else lit "chore: update code").
Proof.
  intros out m m'.
  pose proof (parseCommitMessage_isValid response) as Hv.
  apply isValid_spec in Hv. destruct Hv as [Hlen Hlf].
  repeat split; try apply Hlen; try exact Hlf.
Qed.

(** *** Idempotence *)

Lemma trim_fixed_firstLine (m : jsstring) :
  LF ∉ m -> firstLine m = m.
Proof. intros H. unfold firstLine. by rewrite split_no_sep_id. Qed.

Lemma stripOpeningFence_id (m : jsstring) :
  startsWith fence m = false -> stripOpeningFence m = m.
Proof.
  unfold startsWith, stripOpeningFence.
  by destruct (stripPrefix fence m).
Qed.

Lemma stripClosingFence_id (m : jsstring) :
  endsWith fence m = false -> stripClosingFence m = m.
Proof. unfold stripClosingFence. by intros ->. Qed.

Lemma unquote_id (m : jsstring) : isQuoted m = false -> unquote m = m.
Proof. unfold unquote. by intros ->. Qed.

Lemma isClean_spec (m : jsstring) :
  isClean m = true ->
  trim m = m /\ startsWith fence m = false /\ endsWith fence m = false
  /\ isQuoted m = false.
Proof.
  unfold isClean. rewrite !andb_true_iff, !negb_true_iff.
  intros [[[Ht%bool_decide_eq_true ?] ?] ?]. auto.
Qed.

(** C3, as stated, fails: only one layer of quotes is removed and the text
    inside the quotes is not trimmed again, so a second run changes the
    result. *)
Lemma parseCommitMessage_not_idempotent :
  let s := lit "' fix: typo '" in
  parseCommitMessage s = lit " fix: typo "
  /\ parseCommitMessage (parseCommitMessage s) = lit "fix: typo"
  /\ parseCommitMessage (parseCommitMessage s) <> parseCommitMessage s.
Proof. vm_compute. repeat split; congruence. Qed.

(** A clean and valid message passes through unchanged. *)
Lemma parseCommitMessage_clean_passthrough (m : jsstring) :
  isClean m = true -> isValidCommitMessage m = true ->
  parseCommitMessage m = m.
Proof.
  intros Hc Hv.
  apply isClean_spec in Hc as (Ht & Ho & Hc & Hq).
  pose proof Hv as [_ Hlf]%isValid_spec.
  unfold parseCommitMessage, cleanedFirstLine.
  rewrite Ht, (stripOpeningFence_id _ Ho), (stripClosingFence_id _ Hc),
    (unquote_id _ Hq), (trim_fixed_firstLine _ Hlf), Hv.
  reflexivity.
Qed.

(** Lines that end in CR LF are a second way to lose idempotence: the CR
    stays at the end of the first line and is trimmed by the second run. *)
Example parseCommitMessage_crlf :
  let s := lit "fix: typo" ++ [CR; LF] ++ lit "details" in
  parseCommitMessage s = lit "fix: typo" ++ [CR]
  /\ parseCommitMessage (parseCommitMessage s) = lit "fix: typo".
Proof. vm_compute. split; reflexivity. Qed.

(** C3 (amended): re-running [parseCommitMessage] on its own output yields
    the same string whenever that output is already clean, that is, has no
    white space at either end, neither starts nor ends with a code fence and
    is not wrapped in matching quotes; already-clean valid messages pass
    through unchanged. *)
Theorem parseCommitMessage_idempotent_on_clean (s : jsstring) :
  isClean (parseCommitMessage s) = true ->
  parseCommitMessage (parseCommitMessage s) = parseCommitMessage s.
Proof.
  intros Hclean.
  apply parseCommitMessage_clean_passthrough; [exact Hclean|].
  apply parseCommitMessage_isValid.
Qed.

(** The fenced reply of scenario C is cleaned by the first run and left
    alone by the second. *)
Lemma parseCommitMessage_idempotent_on_clean_witness :
  isClean (parseCommitMessage (lit "```" ++ [LF] ++ lit "[feature] add login")) = true
  /\ parseCommitMessage (parseCommitMessage (lit "```" ++ [LF] ++ lit "[feature] add login"))
     = parseCommitMessage (lit "```" ++ [LF] ++ lit "[feature] add login").
Proof.
  split; [reflexivity|].
  apply (parseCommitMessage_idempotent_on_clean
           (lit "```" ++ [LF] ++ lit "[feature] add login")).
  reflexivity.
Defined.

(** The fallback itself is clean, hence a fixed point. *)
Lemma fallbackMessage_fixed_point :
  isClean fallbackMessage = true
  /\ parseCommitMessage fallbackMessage = fallbackMessage.
Proof. split; reflexivity. Qed.

End ResponseValidator.

(* ===================================================================== *)
(** ** JavaScript numbers: binary64 arithmetic *)
(* ===================================================================== *)

(** A JavaScript [number] is an IEEE 754 binary64 value, and every
    arithmetic operation returns the value nearest to the exact result,
    the one with an even significand when two are equally near.  A finite
    number is modelled as the rational it denotes; [binary64] is the
    rounding to 53 significant bits.  The exponent range is not modelled:
    the numbers rounded here are quotients of collection sizes and their
    sums and products with three weights, none of which overflows or
    reaches the subnormal range. *)

Module Binary64.

(** The integer nearest to [x]; the even one when [x] lies half way between
    two integers. *)
Definition roundNearestEven (x : Q) : Z :=
  let lo := Qfloor x in
  match (x - inject_Z lo ?= 1 # 2)%Q with
  | Lt => lo
  | Gt => (lo + 1)%Z
  | Eq => if Z.even lo then lo else (lo + 1)%Z
  end.

(** [floor (log2 x)] for [0 < x]: the difference of the bit lengths of the
    numerator and the denominator, or one less. *)
Definition exponent (x : Q) : Z :=
  let e := (Z.log2 (Qnum x) - Z.log2 (Zpos (Qden x)))%Z in
  if Qle_bool (2 ^ e) x then e else (e - 1)%Z.

(** Rounding of [0 < x]: the significand [x / ulp] lies in [[2^52, 2^53)]
    and is rounded to an integer. *)
Definition roundPositive (x : Q) : Q :=
  let ulp := (2 ^ (exponent x - 52))%Q in
  (inject_Z (roundNearestEven (x / ulp)) * ulp)%Q.

Definition binary64 (x : Q) : Q :=
  match Qnum x with
  | Z0 => 0
  | Zpos _ => roundPositive x
  | Zneg _ => - roundPositive (- x)
  end.

(** [x + y] and [x * y] on numbers. *)
Definition add64 (x y : Q) : Q := binary64 (x + y).
Definition mul64 (x y : Q) : Q := binary64 (x * y).
(** [x - y] *)
Definition sub64 (x y : Q) : Q := binary64 (x - y).


(** *** Facts about the rounding *)

Lemma roundNearestEven_spec (x : Q) :
  let k := roundNearestEven x in
  (inject_Z k - (1 # 2) <= x <= inject_Z k + (1 # 2))%Q
  /\ ((x == inject_Z k - (1 # 2) \/ x == inject_Z k + (1 # 2))%Q -> Z.even k = true).
Proof.
  unfold roundNearestEven.
  pose proof (Qfloor_le x) as Hlo. pose proof (Qlt_floor x) as Hhi.
  rewrite inject_Z_plus in Hhi. change (inject_Z 1) with 1%Q in Hhi.
  destruct (x - inject_Z (Qfloor x) ?= 1 # 2)%Q eqn:Hc; cbv zeta;
    rewrite ?inject_Z_plus; change (inject_Z 1) with 1%Q.
  - apply Qeq_alt in Hc.
    destruct (Z.even (Qfloor x)) eqn:He.
    + split; [lra|]. intros _. exact He.
    + rewrite inject_Z_plus. change (inject_Z 1) with 1%Q.
      split; [lra|]. intros _.
      rewrite Z.even_add, He. reflexivity.
  - apply Qlt_alt in Hc. split; [lra|]. intros [H | H]; lra.
  - apply Qgt_alt in Hc. split; [lra|]. intros [H | H]; lra.
Qed.

Lemma roundNearestEven_mono (x y : Q) :
  (x <= y)%Q -> (roundNearestEven x <= roundNearestEven y)%Z.
Proof.
  intros Hxy.
  destruct (roundNearestEven_spec x) as [Hx Hex].
  destruct (roundNearestEven_spec y) as [Hy Hey].
  cbv zeta in *.
  set (kx := roundNearestEven x) in *. set (ky := roundNearestEven y) in *.
  destruct (Z_le_gt_dec kx ky) as [|Hgt]; [assumption|]. exfalso.
  assert (inject_Z ky + 1 <= inject_Z kx)%Q as Hk.
  { change 1%Q with (inject_Z 1). rewrite <- inject_Z_plus, <- Zle_Qle. lia. }
  assert (kx = ky + 1)%Z as Hkx.
  { assert (inject_Z kx <= inject_Z (ky + 1))%Q as H
      by (rewrite inject_Z_plus; change (inject_Z 1) with 1%Q; lra).
    rewrite <- Zle_Qle in H. lia. }
  assert (Z.even kx = true) as E1.
  { apply Hex. left. rewrite Hkx, inject_Z_plus in *. change (inject_Z 1) with 1%Q in *. lra. }
  assert (Z.even ky = true) as E2.
  { apply Hey. right. rewrite Hkx, inject_Z_plus in *. change (inject_Z 1) with 1%Q in *. lra. }
  rewrite Hkx, Z.even_add, E2 in E1. discriminate.
Qed.

Lemma roundNearestEven_inject_Z (k : Z) : roundNearestEven (inject_Z k) = k.
Proof.
  destruct (roundNearestEven_spec (inject_Z k)) as [[H1 H2] _]. cbv zeta in *.
  set (r := roundNearestEven (inject_Z k)) in *.
  assert (inject_Z r <= inject_Z k + (1 # 2))%Q as Ha by lra.
  assert (inject_Z k <= inject_Z r + (1 # 2))%Q as Hb by lra.
  unfold Qle in Ha, Hb. cbn in Ha, Hb. lia.
Qed.


Lemma pow2_pos (e : Z) : (0 < 2 ^ e)%Q.
Proof. by apply Qpower_0_lt. Qed.

Lemma pow2_succ (e : Z) : (2 ^ (e + 1) == 2 * 2 ^ e)%Q.
Proof. rewrite Qpower_plus by discriminate. change (2 ^ 1)%Q with 2%Q. ring. Qed.

Lemma pow2_add (a b : Z) : (2 ^ (a + b) == 2 ^ a * 2 ^ b)%Q.
Proof. by apply Qpower_plus. Qed.

Lemma pow2_mono (a b : Z) : (a <= b)%Z -> (2 ^ a <= 2 ^ b)%Q.
Proof. intros H. by apply Qpower_le_compat_l. Qed.

Lemma pow2_log2 (n : Z) :
  (0 < n)%Z -> (2 ^ Z.log2 n <= inject_Z n < 2 * 2 ^ Z.log2 n)%Q.
Proof.
  intros Hn. destruct (Z.log2_spec n Hn) as [Hlo Hhi].
  pose proof (Z.log2_nonneg n) as H0.
  rewrite <- pow2_succ.
  change 2%Q with (inject_Z 2). rewrite <- !Zpower_Qpower by lia.
  rewrite <- Zle_Qle, <- Zlt_Qlt. split; [exact Hlo | exact Hhi].
Qed.


Lemma exponent_spec (x : Q) :
  (0 < x)%Q -> (2 ^ exponent x <= x < 2 ^ (exponent x + 1))%Q.
Proof.
  intros Hx. unfold exponent.
  set (e := (Z.log2 (Qnum x) - Z.log2 (Z.pos (Qden x)))%Z).
  assert (0 < Qnum x)%Z as Hn by (unfold Qlt in Hx; cbn in Hx; lia).
  pose proof (pow2_log2 (Qnum x) Hn) as HN.
  pose proof (pow2_log2 (Z.pos (Qden x)) eq_refl) as HD.
  pose proof (pow2_pos (Z.log2 (Qnum x))) as HA.
  pose proof (pow2_pos (Z.log2 (Z.pos (Qden x)))) as HB.
  pose proof (pow2_pos e) as HP.
  assert (2 ^ e * 2 ^ Z.log2 (Z.pos (Qden x)) == 2 ^ Z.log2 (Qnum x))%Q as HPB.
  { rewrite <- pow2_add. unfold e. by replace (_ - _ + _)%Z with (Z.log2 (Qnum x)) by lia. }
  assert (x * inject_Z (Z.pos (Qden x)) == inject_Z (Qnum x))%Q as HxD.
  { destruct x as [n d]. cbn [Qnum Qden]. rewrite (Qmake_Qdiv n d). field. discriminate. }
  revert HN HD HA HB HP HPB HxD.
  generalize (2 ^ Z.log2 (Qnum x))%Q (2 ^ Z.log2 (Z.pos (Qden x)))%Q
    (inject_Z (Qnum x)) (inject_Z (Z.pos (Qden x))).
  intros A B N D HN HD HA HB HP HPB HxD.
  destruct (Qle_bool (2 ^ e) x) eqn:Hle.
  - apply Qle_bool_iff in Hle. split; [exact Hle|].
    rewrite pow2_succ. revert Hle HP HPB. generalize (2 ^ e)%Q. intros P Hle HP HPB.
    nra.
  - assert (x < 2 ^ e)%Q as Hlt.
    { apply Qnot_le_lt. intros H. apply Qle_bool_iff in H. congruence. }
    replace (e - 1 + 1)%Z with e by lia. split; [|exact Hlt].
    assert (2 * 2 ^ (e - 1) == 2 ^ e)%Q as H2
      by (rewrite <- pow2_succ; by replace (e - 1 + 1)%Z with e by lia).
    pose proof (pow2_pos (e - 1)) as HP'.
    revert Hlt HP HPB H2 HP'. generalize (2 ^ e)%Q (2 ^ (e - 1))%Q.
    intros P P' Hlt HP HPB H2 HP'.
    nra.
Qed.

Lemma exponent_mono (x y : Q) :
  (0 < x)%Q -> (x <= y)%Q -> (exponent x <= exponent y)%Z.
Proof.
  intros Hx Hxy.
  destruct (exponent_spec x Hx) as [Hlo _].
  destruct (exponent_spec y) as [_ Hhi]; [lra|].
  destruct (Z_le_gt_dec (exponent x) (exponent y)) as [|Hgt]; [assumption|].
  assert (2 ^ (exponent y + 1) <= 2 ^ exponent x)%Q by (apply pow2_mono; lia). lra.
Qed.

(** The significand of [x] at its own exponent lies in [2^52, 2^53). *)
Lemma significand_range (x : Q) :
  (0 < x)%Q ->
  (inject_Z (2 ^ 52) <= x / 2 ^ (exponent x - 52) < inject_Z (2 ^ 53))%Q.
Proof.
  intros Hx. destruct (exponent_spec x Hx) as [Hlo Hhi].
  pose proof (pow2_pos (exponent x - 52)) as Hulp.
  assert (2 ^ exponent x == inject_Z (2 ^ 52) * 2 ^ (exponent x - 52))%Q as E1.
  { rewrite Zpower_Qpower by lia. change (inject_Z 2) with 2%Q.
    rewrite <- pow2_add. by replace (52 + (exponent x - 52))%Z with (exponent x) by lia. }
  assert (2 ^ (exponent x + 1) == inject_Z (2 ^ 53) * 2 ^ (exponent x - 52))%Q as E2.
  { rewrite Zpower_Qpower by lia. change (inject_Z 2) with 2%Q.
    rewrite <- pow2_add. by replace (53 + (exponent x - 52))%Z with (exponent x + 1)%Z by lia. }
  rewrite E1 in Hlo. rewrite E2 in Hhi. split.
  - apply Qle_shift_div_l; assumption.
  - apply Qlt_shift_div_r; assumption.
Qed.

Lemma roundPositive_range (x : Q) :
  (0 < x)%Q ->
  (2 ^ exponent x <= roundPositive x <= 2 ^ (exponent x + 1))%Q.
Proof.
  intros Hx. destruct (significand_range x Hx) as [Hlo Hhi].
  pose proof (pow2_pos (exponent x - 52)) as Hulp.
  unfold roundPositive. cbv zeta.
  apply roundNearestEven_mono in Hlo. apply Qlt_le_weak, roundNearestEven_mono in Hhi.
  rewrite roundNearestEven_inject_Z in Hlo, Hhi.
  rewrite Zle_Qle in Hlo, Hhi.
  assert (2 ^ exponent x == inject_Z (2 ^ 52) * 2 ^ (exponent x - 52))%Q as ->.
  { rewrite Zpower_Qpower by lia. change (inject_Z 2) with 2%Q.
    rewrite <- pow2_add. by replace (52 + (exponent x - 52))%Z with (exponent x) by lia. }
  assert (2 ^ (exponent x + 1) == inject_Z (2 ^ 53) * 2 ^ (exponent x - 52))%Q as ->.
  { rewrite Zpower_Qpower by lia. change (inject_Z 2) with 2%Q.
    rewrite <- pow2_add. by replace (53 + (exponent x - 52))%Z with (exponent x + 1)%Z by lia. }
  split; apply Qmult_le_compat_r; (assumption || lra).
Qed.

Lemma roundPositive_pos (x : Q) : (0 < x)%Q -> (0 < roundPositive x)%Q.
Proof.
  intros Hx. destruct (roundPositive_range x Hx) as [Hlo _].
  pose proof (pow2_pos (exponent x)). lra.
Qed.

Lemma roundPositive_mono (x y : Q) :
  (0 < x)%Q -> (x <= y)%Q -> (roundPositive x <= roundPositive y)%Q.
Proof.
  intros Hx Hxy. assert (0 < y)%Q as Hy by lra.
  pose proof (exponent_mono x y Hx Hxy) as He.
  destruct (Z.eq_dec (exponent x) (exponent y)) as [Heq | Hne].
  - unfold roundPositive. cbv zeta. rewrite Heq.
    pose proof (pow2_pos (exponent y - 52)) as Hulp.
    apply Qmult_le_compat_r; [|lra].
    rewrite <- Zle_Qle. apply roundNearestEven_mono.
    apply Qmult_le_compat_r; [assumption|].
    apply Qlt_le_weak, Qinv_lt_0_compat, Hulp.
  - destruct (roundPositive_range x Hx) as [_ Hhi].
    destruct (roundPositive_range y Hy) as [Hlo _].
    assert (2 ^ (exponent x + 1) <= 2 ^ exponent y)%Q by (apply pow2_mono; lia). lra.
Qed.

(** The rounding error is at most half a unit in the last place, itself at
    most [2^-53] times the value. *)
Lemma roundPositive_error (x : Q) :
  (0 < x)%Q ->
  (x - x * (1 # 9007199254740992) <= roundPositive x <= x + x * (1 # 9007199254740992))%Q.
Proof.
  intros Hx. destruct (significand_range x Hx) as [Hlo _].
  pose proof (pow2_pos (exponent x - 52)) as Hulp.
  unfold roundPositive. cbv zeta.
  destruct (roundNearestEven_spec (x / 2 ^ (exponent x - 52))) as [Hk _].
  cbv zeta in Hk.
  revert Hk. generalize (roundNearestEven (x / 2 ^ (exponent x - 52))). intros k Hk.
  assert (x / 2 ^ (exponent x - 52) * 2 ^ (exponent x - 52) == x)%Q as Hm
    by (field; lra).
  revert Hlo Hk Hm. generalize (x / 2 ^ (exponent x - 52))%Q. intros m Hlo Hk Hm.
  revert Hulp Hm. generalize (2 ^ (exponent x - 52))%Q. intros ulp Hulp Hm.
  change (inject_Z (2 ^ 52)) with (4503599627370496 # 1)%Q in Hlo.
  nra.
Qed.

Lemma binary64_nonneg (x : Q) : (0 <= x)%Q -> (0 <= binary64 x)%Q.
Proof.
  intros Hx. unfold binary64. destruct x as [[|n|n] d]; cbn [Qnum].
  - lra.
  - apply Qlt_le_weak, roundPositive_pos. reflexivity.
  - exfalso. unfold Qle in Hx. cbn in Hx. lia.
Qed.

Lemma binary64_pos (x : Q) : (0 < x)%Q -> (0 < binary64 x)%Q.
Proof.
  intros Hx. unfold binary64. destruct x as [[|n|n] d]; cbn [Qnum].
  - exfalso. unfold Qlt in Hx. cbn in Hx. lia.
  - apply roundPositive_pos. reflexivity.
  - exfalso. unfold Qlt in Hx. cbn in Hx. lia.
Qed.

(** Rounding keeps the sign. *)
Lemma binary64_positive (x : Q) : (0 < binary64 x)%Q <-> (0 < x)%Q.
Proof.
  split; [|apply binary64_pos].
  unfold binary64. destruct x as [[|n|n] d]; cbn [Qnum]; [done|done|].
  intros H. exfalso.
  assert (0 < roundPositive (- (Z.neg n # d)))%Q by (by apply roundPositive_pos).
  lra.
Qed.

Lemma sub64_positive (x y : Q) : (0 < sub64 x y)%Q <-> (y < x)%Q.
Proof. unfold sub64. rewrite binary64_positive. split; intros H; lra. Qed.

Lemma binary64_0 (x : Q) : (x == 0)%Q -> binary64 x = 0%Q.
Proof.
  intros Hx. unfold binary64. destruct x as [[|n|n] d]; cbn [Qnum]; [done| |];
    unfold Qeq in Hx; cbn in Hx; lia.
Qed.

Lemma binary64_mono (x y : Q) :
  (0 <= x)%Q -> (x <= y)%Q -> (binary64 x <= binary64 y)%Q.
Proof.
  intros Hx Hxy. destruct (Qlt_le_dec 0 x) as [Hpos | H0].
  - assert (0 < y)%Q as Hy by lra.
    unfold binary64.
    destruct x as [[|n|n] d]; cbn [Qnum];
      try (exfalso; unfold Qlt in Hpos; cbn in Hpos; lia).
    destruct y as [[|m|m] d']; cbn [Qnum];
      try (exfalso; unfold Qlt in Hy; cbn in Hy; lia).
    by apply roundPositive_mono.
  - rewrite (binary64_0 x) by lra. apply binary64_nonneg. lra.
Qed.

Lemma binary64_comp (x y : Q) :
  (0 <= x)%Q -> (x == y)%Q -> (binary64 x == binary64 y)%Q.
Proof.
  intros Hx Hxy. apply Qle_antisym; apply binary64_mono; lra.
Qed.

Lemma binary64_zero_iff (x : Q) :
  (0 <= x)%Q -> (binary64 x == 0)%Q <-> (x == 0)%Q.
Proof.
  intros Hx. split.
  - intros H. destruct (Qlt_le_dec 0 x) as [Hpos | H0]; [|lra].
    pose proof (binary64_pos x Hpos). lra.
  - intros H. by rewrite (binary64_0 x H).
Qed.

Lemma binary64_error (x : Q) :
  (0 <= x)%Q ->
  (x - x * (1 # 9007199254740992) <= binary64 x <= x + x * (1 # 9007199254740992))%Q.
Proof.
  intros Hx. destruct (Qlt_le_dec 0 x) as [Hpos | H0].
  - unfold binary64.
    destruct x as [[|n|n] d]; cbn [Qnum];
      try (exfalso; unfold Qlt in Hpos; cbn in Hpos; lia).
    by apply roundPositive_error.
  - rewrite (binary64_0 x) by lra. lra.
Qed.


Lemma exponent_unique (x : Q) (e : Z) :
  (2 ^ e <= x < 2 ^ (e + 1))%Q -> exponent x = e.
Proof.
  intros [Hlo Hhi]. pose proof (pow2_pos e) as He.
  destruct (exponent_spec x) as [Hlo' Hhi']; [lra|].
  destruct (Z_lt_le_dec (exponent x) e) as [Hlt|Hge].
  - assert (2 ^ (exponent x + 1) <= 2 ^ e)%Q by (apply pow2_mono; lia). lra.
  - destruct (Z_lt_le_dec e (exponent x)) as [Hlt|Hle]; [|lia].
    assert (2 ^ (e + 1) <= 2 ^ exponent x)%Q by (apply pow2_mono; lia). lra.
Qed.

Lemma roundNearestEven_comp (x y : Q) :
  (x == y)%Q -> roundNearestEven x = roundNearestEven y.
Proof.
  intros H. apply Z.le_antisymm; apply roundNearestEven_mono; lra.
Qed.

(** A number with a 53-bit significand is its own rounding. *)
Lemma roundPositive_representable (k q : Z) :
  (2 ^ 52 <= k < 2 ^ 53)%Z ->
  (roundPositive (inject_Z k * 2 ^ q) == inject_Z k * 2 ^ q)%Q.
Proof.
  intros [Hlo Hhi]. pose proof (pow2_pos q) as Hq.
  rewrite Zle_Qle in Hlo. rewrite Zlt_Qlt in Hhi.
  assert (exponent (inject_Z k * 2 ^ q) = q + 52)%Z as He.
  { apply exponent_unique.
    replace (q + 52 + 1)%Z with (53 + q)%Z by lia.
    rewrite (Z.add_comm q 52), !pow2_add.
    change (2 ^ 52)%Q with (inject_Z (2 ^ 52)). change (2 ^ 53)%Q with (inject_Z (2 ^ 53)).
    split; [apply Qmult_le_compat_r; lra | apply Qmult_lt_compat_r; lra]. }
  unfold roundPositive. cbv zeta. rewrite He.
  replace (q + 52 - 52)%Z with q by lia.
  rewrite (roundNearestEven_comp _ (inject_Z k)) by (field; lra).
  by rewrite roundNearestEven_inject_Z.
Qed.

Lemma roundPositive_idempotent (x : Q) :
  (0 < x)%Q -> (roundPositive (roundPositive x) == roundPositive x)%Q.
Proof.
  intros Hx. destruct (significand_range x Hx) as [Hlo Hhi].
  apply roundNearestEven_mono in Hlo. apply Qlt_le_weak, roundNearestEven_mono in Hhi.
  rewrite roundNearestEven_inject_Z in Hlo, Hhi.
  assert (roundPositive x
          = inject_Z (roundNearestEven (x / 2 ^ (exponent x - 52)))
            * 2 ^ (exponent x - 52))%Q as Hy by reflexivity.
  revert Hlo Hhi Hy. generalize (roundNearestEven (x / 2 ^ (exponent x - 52))).
  generalize (exponent x - 52)%Z.
  intros q k Hlo Hhi Hy. rewrite Hy.
  destruct (Z_lt_le_dec k (2 ^ 53)) as [Hlt | Hge].
  - by apply roundPositive_representable.
  - assert (k = 2 ^ 53)%Z as -> by lia.
    assert (inject_Z (2 ^ 53) * 2 ^ q == inject_Z (2 ^ 52) * 2 ^ (q + 1))%Q as E.
    { rewrite pow2_succ. change (inject_Z (2 ^ 53)) with (2 * inject_Z (2 ^ 52))%Q. ring. }
    assert (0 < inject_Z (2 ^ 53) * 2 ^ q)%Q as Hpos.
    { pose proof (pow2_pos q). change (inject_Z (2 ^ 53)) with (9007199254740992 # 1)%Q.
      lra. }
    assert (0 < inject_Z (2 ^ 52) * 2 ^ (q + 1))%Q as Hpos' by lra.
    pose proof (roundPositive_representable (2 ^ 52) (q + 1)
                  (conj (Z.le_refl _) eq_refl)) as R.
    assert (roundPositive (inject_Z (2 ^ 53) * 2 ^ q)
            <= roundPositive (inject_Z (2 ^ 52) * 2 ^ (q + 1)))%Q
      by (apply roundPositive_mono; lra).
    assert (roundPositive (inject_Z (2 ^ 52) * 2 ^ (q + 1))
            <= roundPositive (inject_Z (2 ^ 53) * 2 ^ q))%Q
      by (apply roundPositive_mono; lra).
    lra.
Qed.

Lemma binary64_idempotent (x : Q) :
  (0 <= x)%Q -> (binary64 (binary64 x) == binary64 x)%Q.
Proof.
  intros Hx. destruct (Qlt_le_dec 0 x) as [Hpos | H0].
  - assert (binary64 x = roundPositive x) as ->.
    { unfold binary64. destruct x as [[|n|n] d]; cbn [Qnum]; try done;
        exfalso; unfold Qlt in Hpos; cbn in Hpos; lia. }
    pose proof (roundPositive_pos x Hpos) as Hy.
    assert (binary64 (roundPositive x) = roundPositive (roundPositive x)) as ->.
    { unfold binary64. destruct (roundPositive x) as [[|n|n] d]; cbn [Qnum]; try done;
        exfalso; unfold Qlt in Hy; cbn in Hy; lia. }
    by apply roundPositive_idempotent.
  - rewrite (binary64_0 x) by lra. reflexivity.
Qed.


Lemma binary64_1 : (binary64 1 == 1)%Q.
Proof. vm_compute. reflexivity. Qed.

Lemma binary64_range (x : Q) : (0 <= x <= 1)%Q -> (0 <= binary64 x <= 1)%Q.
Proof.
  intros [H0 H1]. split; [by apply binary64_nonneg|].
  rewrite <- binary64_1. by apply binary64_mono.
Qed.

Lemma mul64_nonneg (x y : Q) : (0 <= x)%Q -> (0 <= y)%Q -> (0 <= mul64 x y)%Q.
Proof. intros Hx Hy. apply binary64_nonneg. by apply Qmult_le_0_compat. Qed.

Lemma add64_nonneg (x y : Q) : (0 <= x)%Q -> (0 <= y)%Q -> (0 <= add64 x y)%Q.
Proof. intros Hx Hy. apply binary64_nonneg. lra. Qed.

Lemma mul64_zero_iff (x w : Q) :
  (0 <= x)%Q -> (0 < w)%Q -> (mul64 x w == 0)%Q <-> (x == 0)%Q.
Proof.
  intros Hx Hw. unfold mul64.
  rewrite binary64_zero_iff by (apply Qmult_le_0_compat; lra).
  split; [|intros ->; ring].
  intros H. apply Qmult_integral in H as [H | H]; lra.
Qed.

Lemma add64_zero_iff (x y : Q) :
  (0 <= x)%Q -> (0 <= y)%Q -> (add64 x y == 0)%Q <-> (x == 0 /\ y == 0)%Q.
Proof.
  intros Hx Hy. unfold add64. rewrite binary64_zero_iff by lra.
  split; [intros H; split; lra | intros [H1 H2]; lra].
Qed.

(** Adding to [0] is exact. *)
Lemma add64_0_l (x : Q) : (0 <= x)%Q -> (add64 0 (binary64 x) == binary64 x)%Q.
Proof.
  intros Hx. unfold add64.
  rewrite (binary64_comp (0 + binary64 x) (binary64 x)).
  - by apply binary64_idempotent.
  - pose proof (binary64_nonneg x Hx). lra.
  - ring.
Qed.

Lemma add64_mono (x y x' y' : Q) :
  (0 <= x)%Q -> (0 <= y)%Q -> (x <= x')%Q -> (y <= y')%Q ->
  (add64 x y <= add64 x' y')%Q.
Proof. intros Hx Hy Hxx Hyy. apply binary64_mono; lra. Qed.

Lemma mul64_mono_l (x x' w : Q) :
  (0 <= x)%Q -> (0 <= w)%Q -> (x <= x')%Q -> (mul64 x w <= mul64 x' w)%Q.
Proof.
  intros Hx Hw Hxx. apply binary64_mono; [by apply Qmult_le_0_compat|].
  by apply Qmult_le_compat_r.
Qed.

End Binary64.

(* ===================================================================== *)
(** ** git/commitHistoryRetriever.ts: [CommitHistoryRetriever] *)
(* ===================================================================== *)

Module CommitHistoryRetriever.

Import Binary64.

Record HistoricalCommit := mkCommit {
  hash : jsstring;
  message : jsstring;
  files : list jsstring;
  similarity : Q;
}.

(** [constructor(maxCommits: number = 5)] *)
Definition defaultMaxCommits : Z := 5.
Definition construct (maxCommits : option Z) : Z :=
  default defaultMaxCommits maxCommits.

(** *** [parseGitLog] *)

(** A non-empty string is truthy. *)
Definition truthy (s : jsstring) : bool :=
  match s with [] => false | _ :: _ => true end.

(** [currentCommit]: [null], or the hash, the subject and the files read so
    far. *)
Definition Partial : Type := option (jsstring * jsstring * list jsstring).

Definition pushIfComplete (commits : list HistoricalCommit) (cur : Partial)
  : list HistoricalCommit :=
  match cur with
  | Some (h, m, fs) =>
      if truthy h && truthy m then commits ++ [mkCommit h m fs 0] else commits
  | None => commits
  end.

Definition pipe : N := 124%N.

Definition parseLine (st : list HistoricalCommit * Partial) (line : jsstring)
  : list HistoricalCommit * Partial :=
  let '(commits, cur) := st in
  if includes [pipe] line then
    let parts := split pipe line in
    (pushIfComplete commits cur, Some (nth 0 parts [], nth 1 parts [], []))
  else
    match cur with
    | Some (h, m, fs) =>
        if truthy (trim line) then (commits, Some (h, m, fs ++ [trim line]))
        else st
    | None => st
    end.

Definition parseGitLog (logOutput : jsstring) : list HistoricalCommit :=
  let '(commits, cur) := fold_left parseLine (split LF logOutput) ([], None) in
  pushIfComplete commits cur.

(** *** Scoring *)

Definition ratio (intersection union : Z) : Q :=
  if (0 <? union)%Z then inject_Z intersection / inject_Z union else 0.

(** Jaccard similarity of two [Set]s of strings: [intersection] counts the
    members of [set1] that [set2] has. *)
Definition jaccard (set1 set2 : gset jsstring) : Q :=
  let intersection := Z.of_nat (size (set1 ∩ set2)) in
  let union := (Z.of_nat (size set1) + Z.of_nat (size set2) - intersection)%Z in
  ratio intersection union.

Definition calculateFileOverlap (files1 files2 : list jsstring) : Q :=
  if (length files1 =? 0) || (length files2 =? 0) then 0
  else jaccard (list_to_set files1) (list_to_set files2).

Definition slash : N := 47%N.

(** [s.lastIndexOf(c)], [-1] when [c] does not occur. *)
Fixpoint lastIndexOf (c : N) (s : jsstring) : Z :=
  match s with
  | [] => -1
  | x :: s' =>
      let r := lastIndexOf c s' in
      if (0 <=? r)%Z then (r + 1)%Z
      else if (x =? c)%N then 0%Z else (-1)%Z
  end.

Definition getDirectory (filePath : jsstring) : jsstring :=
  let lastSlash := lastIndexOf slash filePath in
  if (lastSlash =? -1)%Z then lit "." else take (Z.to_nat lastSlash) filePath.

Definition calculateDirectoryOverlap (files1 files2 : list jsstring) : Q :=
  if (length files1 =? 0) || (length files2 =? 0) then 0
  else jaccard (list_to_set (List.map getDirectory files1))
               (list_to_set (List.map getDirectory files2)).

Section Scoring.

(** [String.prototype.toLowerCase]: the Unicode case mapping is a built-in
    of the language and stays a parameter. *)
Variable toLowerCase : jsstring -> jsstring.

Definition keywordMatches (message : jsstring) (keywords : list jsstring) : nat :=
  let lowerMessage := toLowerCase message in
  length (List.filter (fun keyword => includes (toLowerCase keyword) lowerMessage)
                      keywords).

Definition calculateKeywordMatch (message : jsstring) (keywords : list jsstring) : Q :=
  if length keywords =? 0 then 0
  else inject_Z (Z.of_nat (keywordMatches message keywords))
       / inject_Z (Z.of_nat (length keywords)).

(** The three overlap functions above are written with the exact quotient;
    the number that the program holds is the binary64 value nearest to it.
    The literals [0.6], [0.3] and [0.1] denote the binary64 values nearest
    to them, and [*] and [+=] round their result. *)
Definition calculateSimilarity (commit : HistoricalCommit)
    (changedFiles keywords : list jsstring) : Q :=
  let score := 0%Q in
  let fileOverlap := binary64 (calculateFileOverlap (files commit) changedFiles) in
  let score := add64 score (mul64 fileOverlap (binary64 (6 # 10))) in
  let dirOverlap := binary64 (calculateDirectoryOverlap (files commit) changedFiles) in
  let score := add64 score (mul64 dirOverlap (binary64 (3 # 10))) in
  let keywordMatch := binary64 (calculateKeywordMatch (message commit) keywords) in
  let score := add64 score (mul64 keywordMatch (binary64 (1 # 10))) in
  score.

(** *** Ranking *)

(** [x > 0] on numbers. *)
Definition Qpositive (x : Q) : bool :=
  match (0 ?= x)%Q with Lt => true | _ => false end.

(** [Array.prototype.sort(cmp)] is stable: an element moves behind another
    only when the comparator is positive.  Every stable sort agrees with
    this insertion sort when [cmp] is a consistent ordering. *)
Fixpoint insertBy {A} (cmp : A -> A -> Q) (x : A) (l : list A) : list A :=
  match l with
  | [] => [x]
  | y :: l' => if Qpositive (cmp x y) then y :: insertBy cmp x l' else x :: l
  end.

Definition sortBy {A} (cmp : A -> A -> Q) (l : list A) : list A :=
  fold_right (insertBy cmp) [] l.

(** [(a, b) => b.similarity - a.similarity] *)
Definition bySimilarityDesc (a b : HistoricalCommit) : Q :=
  sub64 (similarity b) (similarity a).

(** [{...commit, similarity: ...}] *)
Definition withSimilarity (commit : HistoricalCommit) (s : Q) : HistoricalCommit :=
  mkCommit (hash commit) (message commit) (files commit) s.

Definition scoreCommits (commits : list HistoricalCommit)
    (changedFiles keywords : list jsstring) : list HistoricalCommit :=
  List.map (fun commit =>
              withSimilarity commit (calculateSimilarity commit changedFiles keywords))
           commits.

(** [scoredCommits.filter(...).sort(...).slice(0, this.maxCommits)] *)
Definition rankCommits (maxCommits : Z) (scoredCommits : list HistoricalCommit)
  : list HistoricalCommit :=
  slice 0 maxCommits
    (sortBy bySimilarityDesc
       (List.filter (fun c => Qpositive (similarity c)) scoredCommits)).

(** [logOutput] is what [execSync('git log -200 ...')] returns, [None] when
    it throws: the [catch] then yields the empty array. *)
Definition findSimilarCommits (maxCommits : Z) (logOutput : option jsstring)
    (changedFiles keywords : list jsstring) : list HistoricalCommit :=
  match logOutput with
  | Some logOutput =>
      let commits := parseGitLog logOutput in
      let scoredCommits := scoreCommits commits changedFiles keywords in
      rankCommits maxCommits scoredCommits
  | None => []
  end.

End Scoring.

(** ASCII-only lower-casing, which agrees with [toLowerCase] on ASCII
    strings; used to run the definitions on examples. *)
Definition asciiLower (s : jsstring) : jsstring :=
  List.map (fun c => if isUpper c then (c + 32)%N else c) s.

(** The commits with score [v], in list order. *)
Definition tiesOf (v : Q) (l : list HistoricalCommit) : list HistoricalCommit :=
  List.filter (fun c => Qeq_bool (similarity c) v) l.

(** *** Facts about numbers and [slice] *)

Lemma Qpositive_spec (x : Q) : Qpositive x = true <-> (0 < x)%Q.
Proof.
  unfold Qpositive. rewrite Qlt_alt.
  destruct (0 ?= x)%Q; split; congruence.
Qed.

Lemma ratio_range (i u : Z) :
  (0 <= i <= u)%Z -> (0 <= ratio i u <= 1)%Q.
Proof.
  intros [Hi Hu]. unfold ratio.
  destruct (Z.ltb_spec 0 u) as [Hpos|_]; [|split; discriminate].
  assert (inject_Z 0 < inject_Z u)%Q as HposQ by (rewrite <- Zlt_Qlt; exact Hpos).
  split.
  - apply Qle_shift_div_l; [exact HposQ|].
    rewrite Qmult_0_l. change 0%Q with (inject_Z 0).
    rewrite <- Zle_Qle. exact Hi.
  - apply Qle_shift_div_r; [exact HposQ|].
    rewrite Qmult_1_l. rewrite <- Zle_Qle. exact Hu.
Qed.

Lemma jaccard_range (set1 set2 : gset jsstring) :
  (0 <= jaccard set1 set2 <= 1)%Q.
Proof.
  unfold jaccard. apply ratio_range.
  assert (size (set1 ∩ set2) <= size set1) as H1
    by apply subseteq_size, intersection_subseteq_l.
  assert (size (set1 ∩ set2) <= size set2) as H2
    by apply subseteq_size, intersection_subseteq_r.
  lia.
Qed.

Lemma slice_0_take {A} (n : Z) (l : list A) :
  (0 <= n)%Z -> slice 0 n l = take (Z.to_nat n) l.
Proof.
  intros Hn. unfold slice, relIndex. simpl.
  destruct (Z.ltb_spec n 0) as [?|_]; [lia|].
  replace (Z.min 0 (Z.of_nat (length l))) with 0%Z by lia.
  rewrite Z.sub_0_r. simpl. rewrite drop_0.
  destruct (Z.le_ge_cases n (Z.of_nat (length l))) as [Hle|Hge].
  - by rewrite Z.min_l.
  - rewrite Z.min_r, Nat2Z.id by done.
    rewrite !take_ge; [done| lia | lia].
Qed.

(** *** Facts about the stable sort *)

Definition descending (a b : HistoricalCommit) : Prop :=
  (similarity b <= similarity a)%Q.

Lemma bySimilarityDesc_positive (x y : HistoricalCommit) :
  Qpositive (bySimilarityDesc x y) = true <-> (similarity x < similarity y)%Q.
Proof.
  rewrite Qpositive_spec. unfold bySimilarityDesc. apply sub64_positive.
Qed.

Lemma insertBy_Forall {A} (P : A -> Prop) cmp (x : A) (l : list A) :
  Forall P (insertBy cmp x l) <-> P x /\ Forall P l.
Proof.
  induction l as [|y l IH]; simpl.
  - rewrite Forall_singleton. split; [by auto | by intros []].
  - destruct (Qpositive (cmp x y)).
    + rewrite !Forall_cons, IH. tauto.
    + rewrite !Forall_cons. tauto.
Qed.

Lemma sortBy_Forall {A} (P : A -> Prop) cmp (l : list A) :
  Forall P (sortBy cmp l) <-> Forall P l.
Proof.
  induction l as [|x l IH]; simpl; [done|].
  rewrite insertBy_Forall, Forall_cons, IH. tauto.
Qed.

Lemma insertBy_descending (x : HistoricalCommit) (l : list HistoricalCommit) :
  StronglySorted descending l ->
  StronglySorted descending (insertBy bySimilarityDesc x l).
Proof.
  induction 1 as [|y l Hs IH Hall]; simpl.
  - repeat constructor.
  - destruct (Qpositive (bySimilarityDesc x y)) eqn:E.
    + apply bySimilarityDesc_positive in E.
      constructor; [exact IH|].
      apply insertBy_Forall. split; [|exact Hall].
      unfold descending. apply Qlt_le_weak, E.
    + assert (similarity y <= similarity x)%Q as Hyx.
      { apply Qnot_lt_le. intros Hlt.
        apply bySimilarityDesc_positive in Hlt. congruence. }
      constructor; [by constructor|].
      constructor; [exact Hyx|].
      eapply Forall_impl; [exact Hall|].
      unfold descending. intros z Hz. by eapply Qle_trans.
Qed.

Lemma sortBy_descending (l : list HistoricalCommit) :
  StronglySorted descending (sortBy bySimilarityDesc l).
Proof.
  induction l as [|x l IH]; simpl; [constructor|].
  by apply insertBy_descending.
Qed.

(** Stability: the commits of any one score keep their order. *)
Lemma insertBy_ties (v : Q) (x : HistoricalCommit) (l : list HistoricalCommit) :
  tiesOf v (insertBy bySimilarityDesc x l) = tiesOf v (x :: l).
Proof.
  induction l as [|y l IH]; [done|].
  cbn [insertBy].
  destruct (Qpositive (bySimilarityDesc x y)) eqn:E; [|done].
  apply bySimilarityDesc_positive in E.
  unfold tiesOf in *. cbn [List.filter] in *. rewrite IH.
  destruct (Qeq_bool (similarity x) v) eqn:Ex;
    destruct (Qeq_bool (similarity y) v) eqn:Ey; try done.
  apply Qeq_bool_iff in Ex, Ey. rewrite Ex, Ey in E.
  by apply Qlt_irrefl in E.
Qed.

Lemma sortBy_ties (v : Q) (l : list HistoricalCommit) :
  tiesOf v (sortBy bySimilarityDesc l) = tiesOf v l.
Proof.
  induction l as [|x l IH]; [done|].
  cbn [sortBy fold_right]. fold (sortBy bySimilarityDesc l).
  rewrite insertBy_ties. unfold tiesOf in *. cbn [List.filter].
  by rewrite IH.
Qed.

Lemma tiesOf_positive_prefix (v : Q) (l : list HistoricalCommit) :
  tiesOf v (List.filter (fun c => Qpositive (similarity c)) l)
    `prefix_of` tiesOf v l.
Proof.
  destruct (Qpositive v) eqn:Ev.
  - replace (tiesOf v (List.filter (fun c => Qpositive (similarity c)) l))
      with (tiesOf v l); [done|].
    induction l as [|c l IH]; [done|].
    unfold tiesOf in *. cbn [List.filter].
    destruct (Qeq_bool (similarity c) v) eqn:Ec.
    + assert (Qpositive (similarity c) = true) as ->.
      { apply Qeq_bool_iff in Ec. apply Qpositive_spec.
        rewrite Ec. by apply Qpositive_spec. }
      cbn [List.filter]. by rewrite Ec, IH.
    + destruct (Qpositive (similarity c)); [|done].
      cbn [List.filter]. by rewrite Ec.
  - replace (tiesOf v (List.filter (fun c => Qpositive (similarity c)) l))
      with (@nil HistoricalCommit); [apply prefix_nil|].
    induction l as [|c l IH]; [done|].
    cbn [List.filter].
    destruct (Qpositive (similarity c)) eqn:Ec; [|done].
    unfold tiesOf in *. cbn [List.filter].
    destruct (Qeq_bool (similarity c) v) eqn:Ecv; [|done].
    apply Qeq_bool_iff in Ecv. apply Qpositive_spec in Ec.
    rewrite Ecv in Ec. apply Qpositive_spec in Ec. congruence.
Qed.

Lemma tiesOf_take_prefix (v : Q) (n : nat) (l : list HistoricalCommit) :
  tiesOf v (take n l) `prefix_of` tiesOf v l.
Proof.
  rewrite <- (take_drop n l) at 2. unfold tiesOf.
  rewrite List.filter_app. by apply prefix_app_r.
Qed.

(** The ranking of any scored list, whatever the scores are: only their
    order is used. *)
Lemma rankCommits_ranked (maxCommits : Z) (scored : list HistoricalCommit) :
  (0 <= maxCommits)%Z ->
  let out := rankCommits maxCommits scored in
  Forall (fun c => In c scored /\ (0 < similarity c)%Q) out
  /\ StronglySorted descending out
  /\ (forall v, tiesOf v out `prefix_of` tiesOf v scored)
  /\ (Z.of_nat (length out) <= maxCommits)%Z.
Proof.
  intros Hmax out. subst out. unfold rankCommits.
  rewrite slice_0_take by exact Hmax.
  set (positive := List.filter (fun c => Qpositive (similarity c)) scored).
  set (sorted := sortBy bySimilarityDesc positive).
  split; [|split; [|split]].
  - apply Forall_take, sortBy_Forall, Forall_forall. intros c Hc.
    apply list_elem_of_In, List.filter_In in Hc as [Hin Hpos].
    by apply Qpositive_spec in Hpos.
  - pose proof (sortBy_descending positive) as Hs. fold sorted in Hs.
    rewrite <- (take_drop (Z.to_nat maxCommits) sorted) in Hs.
    by apply StronglySorted_app_1_l in Hs.
  - intros v. etrans; [apply tiesOf_take_prefix|].
    unfold sorted. rewrite sortBy_ties. apply tiesOf_positive_prefix.
  - rewrite length_take. lia.
Qed.

(** A sorted list is determined by its classes of equal score: two
    descending lists with the same commits of every score, in the same
    order, are equal. *)
Lemma descending_ties_unique (l1 l2 : list HistoricalCommit) :
  StronglySorted descending l1 -> StronglySorted descending l2 ->
  (forall v, tiesOf v l1 = tiesOf v l2) -> l1 = l2.
Proof.
  intros H1. revert l2.
  induction H1 as [|a l1 Hs1 IH Ha]; intros l2 H2 Hties.
  - destruct l2 as [|b l2]; [done|].
    specialize (Hties (similarity b)). unfold tiesOf in Hties.
    cbn [List.filter] in Hties.
    by rewrite (proj2 (Qeq_bool_iff _ _) (Qeq_refl _)) in Hties.
  - assert (forall c l, tiesOf (similarity c) (c :: l)
                        = c :: tiesOf (similarity c) l) as Hhead.
    { intros c l. unfold tiesOf. cbn [List.filter].
      by rewrite (proj2 (Qeq_bool_iff _ _) (Qeq_refl _)). }
    assert (forall v l c, In c (tiesOf v l) -> In c l) as Hsub.
    { intros v l c Hc. by apply List.filter_In in Hc as [? _]. }
    destruct l2 as [|b l2].
    { specialize (Hties (similarity a)). by rewrite Hhead in Hties. }
    inversion H2 as [|? ? Hs2 Hb]; subst.
    assert (similarity a == similarity b)%Q as Hab.
    { apply Qle_antisym.
      - assert (In a (b :: l2)) as [->|Hin].
        { apply (Hsub (similarity a)). rewrite <- Hties, Hhead. by left. }
        + apply Qle_refl.
        + rewrite List.Forall_forall in Hb. by apply Hb.
      - assert (In b (a :: l1)) as [->|Hin].
        { apply (Hsub (similarity b)). rewrite Hties, Hhead. by left. }
        + apply Qle_refl.
        + rewrite List.Forall_forall in Ha. by apply Ha. }
    assert (a = b) as ->.
    { pose proof (Hties (similarity b)) as Hv. rewrite Hhead in Hv.
      unfold tiesOf in Hv. cbn [List.filter] in Hv.
      rewrite (proj2 (Qeq_bool_iff _ _) Hab) in Hv. by injection Hv. }
    f_equal. apply IH; [exact Hs2|]. intros v.
    specialize (Hties v). unfold tiesOf in *. cbn [List.filter] in Hties.
    destruct (Qeq_bool (similarity b) v); [by injection Hties | exact Hties].
Qed.

(** Hence every stable sort by descending similarity returns what
    [sortBy] returns. *)
Lemma stable_sort_unique (l sorted : list HistoricalCommit) :
  StronglySorted descending sorted ->
  (forall v, tiesOf v sorted = tiesOf v l) ->
  sorted = sortBy bySimilarityDesc l.
Proof.
  intros Hs Hties. apply descending_ties_unique; [exact Hs | apply sortBy_descending |].
  intros v. by rewrite sortBy_ties.
Qed.

(** *** The properties of the specification *)

Section Ranking.

Variable toLowerCase : jsstring -> jsstring.

Lemma calculateFileOverlap_range (files1 files2 : list jsstring) :
  (0 <= calculateFileOverlap files1 files2 <= 1)%Q.
Proof.
  unfold calculateFileOverlap.
  destruct ((length files1 =? 0) || (length files2 =? 0));
    [split; discriminate | apply jaccard_range].
Qed.

Lemma calculateDirectoryOverlap_range (files1 files2 : list jsstring) :
  (0 <= calculateDirectoryOverlap files1 files2 <= 1)%Q.
Proof.
  unfold calculateDirectoryOverlap.
  destruct ((length files1 =? 0) || (length files2 =? 0));
    [split; discriminate | apply jaccard_range].
Qed.

Lemma calculateKeywordMatch_range (message : jsstring) (keywords : list jsstring) :
  (0 <= calculateKeywordMatch toLowerCase message keywords <= 1)%Q.
Proof.
  assert (calculateKeywordMatch toLowerCase message keywords
          = ratio (Z.of_nat (keywordMatches toLowerCase message keywords))
                  (Z.of_nat (length keywords))) as ->.
  { unfold calculateKeywordMatch, ratio.
    destruct keywords as [|k ks]; [done|].
    by replace (0 <? Z.of_nat (length (k :: ks)))%Z with true
      by (symmetry; apply Z.ltb_lt; simpl; lia). }
  apply ratio_range. unfold keywordMatches.
  pose proof (List.filter_length_le
    (fun keyword => includes (toLowerCase keyword) (toLowerCase message)) keywords).
  lia.
Qed.

Lemma overlaps_empty (files1 files2 : list jsstring) :
  files1 = [] \/ files2 = [] ->
  calculateFileOverlap files1 files2 = 0%Q
  /\ calculateDirectoryOverlap files1 files2 = 0%Q.
Proof.
  unfold calculateFileOverlap, calculateDirectoryOverlap.
  intros [-> | ->]; simpl; [done|].
  by rewrite orb_true_r.
Qed.

(** The score as a function of the three components, as
    [calculateSimilarity] computes it. *)
Definition weightedSum (fileOverlap dirOverlap keywordMatch : Q) : Q :=
  add64 (add64 (add64 0 (mul64 (binary64 fileOverlap) (binary64 (6 # 10))))
               (mul64 (binary64 dirOverlap) (binary64 (3 # 10))))
        (mul64 (binary64 keywordMatch) (binary64 (1 # 10))).

Lemma calculateSimilarity_weightedSum (commit : HistoricalCommit)
    (changedFiles keywords : list jsstring) :
  calculateSimilarity toLowerCase commit changedFiles keywords
  = weightedSum (calculateFileOverlap (files commit) changedFiles)
                (calculateDirectoryOverlap (files commit) changedFiles)
                (calculateKeywordMatch toLowerCase (message commit) keywords).
Proof. reflexivity. Qed.

(** The binary64 values of the three weights. *)
Lemma weights_binary64 :
  (binary64 (6 # 10) == 5404319552844595 # 9007199254740992
   /\ binary64 (3 # 10) == 5404319552844595 # 18014398509481984
   /\ binary64 (1 # 10) == 3602879701896397 # 36028797018963968)%Q.
Proof. vm_compute. repeat split. Qed.

Lemma weights_positive :
  (0 < binary64 (6 # 10) /\ 0 < binary64 (3 # 10) /\ 0 < binary64 (1 # 10))%Q.
Proof. repeat split; by apply binary64_pos. Qed.

Lemma weightedSum_first (f : Q) :
  (0 <= f)%Q ->
  (add64 0 (mul64 (binary64 f) (binary64 (6 # 10)))
   == mul64 (binary64 f) (binary64 (6 # 10)))%Q.
Proof.
  intros Hf. destruct weights_positive as (H6 & _).
  apply add64_0_l, Qmult_le_0_compat; [by apply binary64_nonneg | lra].
Qed.

Lemma weightedSum_zero (f d k : Q) :
  (0 <= f)%Q -> (0 <= d)%Q -> (0 <= k)%Q ->
  (weightedSum f d k == 0)%Q <-> (f == 0 /\ d == 0 /\ k == 0)%Q.
Proof.
  intros Hf Hd Hk. destruct weights_positive as (H6 & H3 & H1).
  pose proof (binary64_nonneg f Hf) as Hf'.
  pose proof (binary64_nonneg d Hd) as Hd'.
  pose proof (binary64_nonneg k Hk) as Hk'.
  unfold weightedSum.
  rewrite add64_zero_iff, add64_zero_iff, add64_zero_iff, !mul64_zero_iff,
    !binary64_zero_iff
    by (repeat first [ assumption | lra | apply add64_nonneg | apply mul64_nonneg ]).
  split; [intros (((_ & ?) & ?) & ?) | intros (? & ? & ?)]; repeat split;
    (assumption || reflexivity).
Qed.

Lemma weightedSum_range (f d k : Q) :
  (0 <= f <= 1)%Q -> (0 <= d <= 1)%Q -> (0 <= k <= 1)%Q ->
  (0 <= weightedSum f d k <= 1)%Q.
Proof.
  intros Hf Hd Hk. destruct weights_positive as (H6 & H3 & H1).
  apply binary64_range in Hf, Hd, Hk.
  assert (forall x w, 0 <= x <= 1 -> 0 < w ->
                      0 <= mul64 x w /\ mul64 x w <= mul64 1 w)%Q as Hmul.
  { intros x w Hx Hw. split; [apply mul64_nonneg; lra|].
    apply mul64_mono_l; lra. }
  destruct (Hmul _ _ Hf H6) as [Ha0 Ha]. destruct (Hmul _ _ Hd H3) as [Hb0 Hb].
  destruct (Hmul _ _ Hk H1) as [Hc0 Hc].
  unfold weightedSum. split.
  - repeat first [ assumption | lra | apply add64_nonneg ].
  - apply Qle_trans with
      (add64 (add64 (add64 0 (mul64 1 (binary64 (6 # 10))))
                    (mul64 1 (binary64 (3 # 10))))
             (mul64 1 (binary64 (1 # 10)))).
    + repeat first [ assumption | lra | apply add64_mono | apply add64_nonneg ].
    + apply Qle_bool_iff. vm_compute. reflexivity.
Qed.

(** The rounding error of the score: five roundings of numbers up to [1]. *)
Lemma weightedSum_error (f d k : Q) :
  (0 <= f <= 1)%Q -> (0 <= d <= 1)%Q -> (0 <= k <= 1)%Q ->
  let exact := ((6 # 10) * binary64 f + (3 # 10) * binary64 d + (1 # 10) * binary64 k)%Q in
  (exact - (1 # 2 ^ 51) <= weightedSum f d k <= exact + (1 # 2 ^ 51))%Q.
Proof.
  intros Hf Hd Hk exact. unfold exact. clear exact.
  destruct weights_positive as (H6 & H3 & H1).
  destruct weights_binary64 as (E6 & E3 & E1).
  pose proof (weightedSum_first f (proj1 Hf)) as Hfirst.
  apply binary64_range in Hf, Hd, Hk.
  assert (forall x w c, 0 <= x <= 1 -> 0 < w -> w == c ->
            x * c - x * c * (1 # 9007199254740992) <= mul64 x w
            <= x * c + x * c * (1 # 9007199254740992))%Q as Hmul.
  { intros x w c Hx Hw Hc. unfold mul64.
    rewrite (binary64_comp (x * w) (x * c));
      [|apply Qmult_le_0_compat; lra | by rewrite Hc].
    apply binary64_error. apply Qmult_le_0_compat; [lra | rewrite <- Hc; lra]. }
  pose proof (Hmul _ _ _ Hf H6 E6) as Ha. pose proof (Hmul _ _ _ Hd H3 E3) as Hb.
  pose proof (Hmul _ _ _ Hk H1 E1) as Hc.
  unfold weightedSum.
  set (a := mul64 (binary64 f) (binary64 (6 # 10))) in *.
  set (b := mul64 (binary64 d) (binary64 (3 # 10))) in *.
  set (c := mul64 (binary64 k) (binary64 (1 # 10))) in *.
  set (s1 := add64 0 a) in *.
  assert (0 <= s1 + b)%Q as Hs2 by lra.
  pose proof (binary64_error (s1 + b) Hs2) as Hab. fold (add64 s1 b) in Hab.
  set (s2 := add64 s1 b) in *.
  assert (0 <= s2 + c)%Q as Hs3 by lra.
  pose proof (binary64_error (s2 + c) Hs3) as Habc. fold (add64 s2 c) in Habc.
  set (s3 := add64 s2 c) in *.
  clearbody a b c s1 s2 s3.
  change (1 # 2 ^ 51)%Q with (1 # 2251799813685248)%Q.
  lra.
Qed.

(** C5, as stated, fails: with both file sets empty the keyword component
    still counts.  Here the components are 0, 0 and 1, and the score is the
    binary64 value of [0.1]: it is not 0, and it is not the weighted sum
    0.6 * 0 + 0.3 * 0 + 0.1 * 1 either, which is one tenth. *)
Lemma calculateSimilarity_empty_sets_nonzero :
  let commit := mkCommit (lit "abc123") (lit "fix login") [] 0 in
  let changedFiles : list jsstring := [] in
  let keywords := [lit "login"] in
  let score := calculateSimilarity asciiLower commit changedFiles keywords in
  files commit = [] /\ changedFiles = []
  /\ (binary64 (calculateFileOverlap (files commit) changedFiles) == 0
      /\ binary64 (calculateDirectoryOverlap (files commit) changedFiles) == 0
      /\ binary64 (calculateKeywordMatch asciiLower (message commit) keywords) == 1)%Q
  /\ (score == binary64 (1 # 10))%Q
  /\ (score == 3602879701896397 # 36028797018963968)%Q
  /\ ~ (score == 0)%Q
  /\ ~ (score == (6 # 10) * 0 + (3 # 10) * 0 + (1 # 10) * 1)%Q.
Proof. vm_compute. repeat split; congruence. Qed.

(** C5 (amended): every component (the binary64 value of a quotient of two
    counts) lies in [0, 1]; the score is their weighted sum with the weights
    0.6, 0.3 and 0.1 as the program computes it, in binary64 arithmetic from
    left to right, which differs from the exact weighted sum of the
    components by at most 2^-51; the score lies in [0, 1].  Whenever one of
    the compared file lists is empty (in particular when both are) the two
    overlap components are 0 and the score is the rounded product of the
    keyword component and 0.1, which is 0 when no keyword is supplied. *)
Theorem calculateSimilarity_range (commit : HistoricalCommit)
    (changedFiles keywords : list jsstring) :
  let fileOverlap := binary64 (calculateFileOverlap (files commit) changedFiles) in
  let dirOverlap := binary64 (calculateDirectoryOverlap (files commit) changedFiles) in
  let keywordMatch :=
    binary64 (calculateKeywordMatch toLowerCase (message commit) keywords) in
  let score := calculateSimilarity toLowerCase commit changedFiles keywords in
  let exact := ((6 # 10) * fileOverlap + (3 # 10) * dirOverlap
                + (1 # 10) * keywordMatch)%Q in
  ((0 <= fileOverlap <= 1) /\ (0 <= dirOverlap <= 1) /\ (0 <= keywordMatch <= 1)
   /\ score == add64 (add64 (mul64 fileOverlap (binary64 (6 # 10)))
                            (mul64 dirOverlap (binary64 (3 # 10))))
                     (mul64 keywordMatch (binary64 (1 # 10)))
   /\ (exact - (1 # 2 ^ 51) <= score <= exact + (1 # 2 ^ 51))
   /\ (0 <= score <= 1)
   /\ (files commit = [] \/ changedFiles = [] ->
       fileOverlap = 0 /\ dirOverlap = 0
       /\ score == mul64 keywordMatch (binary64 (1 # 10))
       /\ (keywords = [] -> score == 0)))%Q.
Proof.
  intros f d k score exact.
  pose proof (calculateFileOverlap_range (files commit) changedFiles) as Hf.
  pose proof (calculateDirectoryOverlap_range (files commit) changedFiles) as Hd.
  pose proof (calculateKeywordMatch_range (message commit) keywords) as Hk.
  destruct weights_positive as (H6 & H3 & H1).
  assert (score == add64 (add64 (mul64 f (binary64 (6 # 10)))
                                (mul64 d (binary64 (3 # 10))))
                         (mul64 k (binary64 (1 # 10))))%Q as Hsum.
  { unfold score. rewrite calculateSimilarity_weightedSum. unfold weightedSum.
    fold f d k.
    pose proof (weightedSum_first _ (proj1 Hf)) as Hfirst. fold f in Hfirst.
    pose proof (binary64_range _ Hf) as Hf'. fold f in Hf'.
    pose proof (binary64_range _ Hd) as Hd'. fold d in Hd'.
    pose proof (binary64_range _ Hk) as Hk'. fold k in Hk'.
    assert (0 <= mul64 f (binary64 (6 # 10)))%Q as Ha by (apply mul64_nonneg; lra).
    assert (0 <= mul64 d (binary64 (3 # 10)))%Q as Hb by (apply mul64_nonneg; lra).
    assert (0 <= mul64 k (binary64 (1 # 10)))%Q as Hc by (apply mul64_nonneg; lra).
    assert (add64 (add64 0 (mul64 f (binary64 (6 # 10))))
                  (mul64 d (binary64 (3 # 10)))
            == add64 (mul64 f (binary64 (6 # 10)))
                     (mul64 d (binary64 (3 # 10))))%Q as Hab
      by (apply binary64_comp; lra).
    assert (0 <= add64 (add64 0 (mul64 f (binary64 (6 # 10))))
                       (mul64 d (binary64 (3 # 10))))%Q
      by (apply binary64_nonneg; lra).
    apply binary64_comp; lra. }
  split; [by apply binary64_range|]. split; [by apply binary64_range|].
  split; [by apply binary64_range|]. split; [exact Hsum|].
  split; [unfold score; rewrite calculateSimilarity_weightedSum;
          by apply weightedSum_error|].
  split; [unfold score; rewrite calculateSimilarity_weightedSum;
          by apply weightedSum_range|].
  intros Hempty.
  destruct (overlaps_empty (files commit) changedFiles Hempty) as [Hf0 Hd0].
  assert (f = 0%Q) as Ef by (unfold f; by rewrite Hf0).
  assert (d = 0%Q) as Ed by (unfold d; by rewrite Hd0).
  assert (score == mul64 k (binary64 (1 # 10)))%Q as Hscore.
  { rewrite Hsum, Ef, Ed.
    pose proof (binary64_range _ Hk) as Hk'. fold k in Hk'.
    unfold mul64 at 3. apply add64_0_l, Qmult_le_0_compat; lra. }
  repeat split; try assumption.
  intros ->. rewrite Hscore. reflexivity.
Qed.

(** The scored history that [findSimilarCommits] ranks. *)
Definition scoredHistory (logOutput : option jsstring)
    (changedFiles keywords : list jsstring) : list HistoricalCommit :=
  match logOutput with
  | Some logOutput => scoreCommits toLowerCase (parseGitLog logOutput) changedFiles keywords
  | None => []
  end.

Lemma scoreCommits_similarity (commits : list HistoricalCommit)
    (changedFiles keywords : list jsstring) :
  Forall (fun c => similarity c = calculateSimilarity toLowerCase c changedFiles keywords)
         (scoreCommits toLowerCase commits changedFiles keywords).
Proof.
  unfold scoreCommits. apply List.Forall_map, Forall_forall. by intros c _.
Qed.

(** C4: the result of [findSimilarCommits] holds only commits of the scored
    history whose score is positive (none of score 0), is sorted by
    non-increasing similarity, keeps commits of equal score in the order of
    the history (newest first), and is no longer than [maxCommits] (5 by
    default); [maxCommits] is a count, that is, not negative. *)
Theorem findSimilarCommits_ranked (maxCommits : Z) (logOutput : option jsstring)
    (changedFiles keywords : list jsstring) :
  (0 <= maxCommits)%Z ->
  let history := scoredHistory logOutput changedFiles keywords in
  let out := findSimilarCommits toLowerCase maxCommits logOutput changedFiles keywords in
  Forall (fun c => In c history
                   /\ similarity c = calculateSimilarity toLowerCase c changedFiles keywords
                   /\ (0 < similarity c)%Q /\ ~ (similarity c == 0)%Q) out
  /\ StronglySorted (fun a b => (similarity b <= similarity a)%Q) out
  /\ (forall v, tiesOf v out `prefix_of` tiesOf v history)
  /\ (Z.of_nat (length out) <= maxCommits)%Z
  /\ (construct None = 5)%Z.
Proof.
  intros Hmax history out.
  destruct logOutput as [logOutput|]; cbn in history, out.
  2: { subst out.
       split; [constructor|split; [constructor|split; [|split]]];
         [intros v; apply prefix_nil | simpl; lia | reflexivity]. }
  destruct (rankCommits_ranked maxCommits history Hmax)
    as (Hall & Hsorted & Hties & Hlen).
  fold out in Hall, Hsorted, Hties, Hlen.
  split; [|by repeat split].
  eapply Forall_impl; [exact Hall|].
  intros c [Hin Hpos]. repeat split; [exact Hin| |exact Hpos|].
  - pose proof (scoreCommits_similarity (parseGitLog logOutput) changedFiles keywords) as Hs.
    rewrite List.Forall_forall in Hs. by apply Hs.
  - intros H0. rewrite H0 in Hpos. by apply Qlt_irrefl in Hpos.
Qed.

End Ranking.

Lemma calculateSimilarity_range_witness :
  let commit := mkCommit (lit "abc123") (lit "fix login") [] 0 in
  (files commit = [] \/ @nil jsstring = [])
  /\ (calculateSimilarity asciiLower commit [] [lit "login"]
      == mul64 (binary64 (calculateKeywordMatch asciiLower (message commit)
                            [lit "login"]))
               (binary64 (1 # 10)))%Q.
Proof.
  intros commit. split; [by left|].
  destruct (calculateSimilarity_range asciiLower commit [] [lit "login"])
    as (_ & _ & _ & _ & _ & _ & H).
  apply H. by left.
Defined.

(** A small history: three commits, the last without files. *)
Definition sampleLog : jsstring :=
  lit "abc|fix login" ++ [LF] ++ lit "src/a.ts" ++ [LF] ++ lit "src/b.ts" ++ [LF]
  ++ [LF] ++ lit "def|add validateEmail" ++ [LF] ++ lit "lib/c.ts" ++ [LF]
  ++ [LF] ++ lit "ghi|docs".

Example findSimilarCommits_sample :
  List.map (fun c => (hash c, Qred (similarity c)))
    (findSimilarCommits asciiLower 5 (Some sampleLog)
       [lit "src/a.ts"; lit "lib/z.ts"] [lit "validateEmail"])
  = [(lit "abc", 3152519739159347 # 9007199254740992); (lit "def", 1 # 4)]%Q.
Proof. vm_compute. reflexivity. Qed.

(** The largest score: all three components are 1, and the sum of the
    three weights is rounded to 0.9999999999999999, the number below 1. *)
Example calculateSimilarity_same_files :
  let commit := mkCommit (lit "abc") (lit "fix login") [lit "src/a.ts"] 0 in
  let score := calculateSimilarity asciiLower commit [lit "src/a.ts"] [lit "login"] in
  (calculateFileOverlap (files commit) [lit "src/a.ts"] == 1
   /\ calculateDirectoryOverlap (files commit) [lit "src/a.ts"] == 1
   /\ calculateKeywordMatch asciiLower (message commit) [lit "login"] == 1
   /\ score == 9007199254740991 # 9007199254740992
   /\ score == 1 - (1 # 2 ^ 53))%Q.
Proof. vm_compute. repeat split. Qed.

(** One directory in three shared and nothing else: the score is
    0.09999999999999999, below the binary64 value of 0.1 and below one
    tenth. *)
Example calculateSimilarity_third_of_directories :
  let commit := mkCommit (lit "abc") (lit "docs") [lit "a/x.ts"; lit "b/y.ts"] 0 in
  let changedFiles := [lit "a/z.ts"; lit "c/w.ts"] in
  let score := calculateSimilarity asciiLower commit changedFiles [lit "login"] in
  (calculateFileOverlap (files commit) changedFiles == 0
   /\ calculateDirectoryOverlap (files commit) changedFiles == 1 # 3
   /\ calculateKeywordMatch asciiLower (message commit) [lit "login"] == 0
   /\ score == 7205759403792793 # 72057594037927936
   /\ score < binary64 (1 # 10) /\ score < 1 # 10)%Q.
Proof. vm_compute. repeat split. Qed.

Lemma findSimilarCommits_ranked_witness :
  (0 <= 5)%Z
  /\ (Z.of_nat (length (findSimilarCommits asciiLower 5 (Some sampleLog)
                         [lit "src/a.ts"; lit "lib/z.ts"] [lit "validateEmail"]))
      <= 5)%Z.
Proof.
  split; [lia|].
  apply (findSimilarCommits_ranked asciiLower 5 (Some sampleLog)
           [lit "src/a.ts"; lit "lib/z.ts"] [lit "validateEmail"]).
  lia.
Defined.

End CommitHistoryRetriever.

(* ===================================================================== *)
(** ** The header line of a file in a unified diff *)
(* ===================================================================== *)

Module DiffHeader.

Definition headerPrefix : jsstring := lit "diff --git".

(** [line.startsWith('diff --git')] *)
Definition isHeader (line : jsstring) : bool := startsWith headerPrefix line.

Definition noLineTerminator (s : jsstring) : bool :=
  forallb (fun c => negb (isLineTerminator c)) s.

(** [line.match(/b\/(.+?)$/)], group 1: the search takes the leftmost [b/]
    that is followed, up to the end of the string, by at least one code unit
    and by no line terminator (the dot does not match one, and without the
    [m] flag the dollar is the end of the string). *)
Fixpoint matchPath (line : jsstring) : option jsstring :=
  match line with
  | [] => None
  | c :: rest =>
      match (if (c =? 98)%N then stripPrefix [47%N] rest else None) with
      | Some (d :: path) =>
          if noLineTerminator (d :: path) then Some (d :: path)
          else matchPath rest
      | _ => matchPath rest
      end
  end.

Example matchPath_plain :
  matchPath (lit "diff --git a/src/x.ts b/src/x.ts") = Some (lit "src/x.ts").
Proof. reflexivity. Qed.

(** The leftmost [b/] need not be the one of the [b/] prefix. *)
Example matchPath_leftmost :
  matchPath (lit "diff --git a/lib/x.ts b/lib/x.ts") = Some (lit "x.ts b/lib/x.ts").
Proof. reflexivity. Qed.

End DiffHeader.

(* ===================================================================== *)
(** ** git/codeContextExtractor.ts: [CodeContextExtractor] *)
(* ===================================================================== *)

Module CodeContextExtractor.

Import DiffHeader.

Inductive SymbolType :=
  TFunction | TClass | TInterface | TType | TVariable | TConstant | TImport | TExport.

Inductive Action := Added | Modified | Deleted | Renamed.

#[global] Instance SymbolType_eq_dec : EqDecision SymbolType.
Proof. solve_decision. Defined.

#[global] Instance Action_eq_dec : EqDecision Action.
Proof. solve_decision. Defined.

Record CodeSymbol := mkSymbol {
  name : jsstring;
  type : SymbolType;
  action : Action;
  oldName : option jsstring;
  file : jsstring;
}.

(** The string behind each tag, as the template literals print it. *)
Definition typeString (t : SymbolType) : jsstring :=
  match t with
  | TFunction => lit "function" | TClass => lit "class"
  | TInterface => lit "interface" | TType => lit "type"
  | TVariable => lit "variable" | TConstant => lit "constant"
  | TImport => lit "import" | TExport => lit "export"
  end.

Definition actionString (a : Action) : jsstring :=
  match a with
  | Added => lit "added" | Modified => lit "modified"
  | Deleted => lit "deleted" | Renamed => lit "renamed"
  end.

Definition setAction (a : Action) (s : CodeSymbol) : CodeSymbol :=
  mkSymbol (name s) (type s) a (oldName s) (file s).

Definition setOldName (n : jsstring) (s : CodeSymbol) : CodeSymbol :=
  mkSymbol (name s) (type s) (action s) (Some n) (file s).

(** The seven patterns of [extractSymbolsFromLine]. *)
Inductive Pattern :=
  | FunctionDecl   (* /(?:export\s+)?(?:async\s+)?function\s+(\w+)/ *)
  | ArrowFunction  (* /(?:export\s+)?const\s+(\w+)\s*=\s*(?:async\s+)?\([^)]*\)\s*=>/ *)
  | ClassDecl      (* /(?:export\s+)?(?:default\s+)?class\s+(\w+)/ *)
  | InterfaceDecl  (* /(?:export\s+)?interface\s+(\w+)/ *)
  | TypeAlias      (* /(?:export\s+)?type\s+(\w+)\s*=/ *)
  | ImportStmt     (* /import\s+(?:\{([^}]+)\}|(\w+))\s+from/ *)
  | ConstDecl.     (* /(?:export\s+)?const\s+([A-Z_]+)\s*=/ *)

(** The capture groups of a successful match; a group that took no part in
    the match is [None]. *)
Record Match := mkMatch { group1 : option jsstring; group2 : option jsstring }.

(** [imp.trim().split(/\s+as\s+/)[0]]: what precedes the leftmost run of
    white space that is followed by [as] and white space. *)
Definition asFollows (s : jsstring) : bool :=
  match dropWhile isWhiteSpace s with
  | a :: b :: w :: _ => (a =? 97)%N && (b =? 115)%N && isWhiteSpace w
  | _ => false
  end.

Fixpoint beforeAs (s : jsstring) : jsstring :=
  match s with
  | [] => []
  | c :: s' => if isWhiteSpace c && asFollows s then [] else c :: beforeAs s'
  end.

Definition comma : N := 44%N.
Definition colon : jsstring := lit ":".

Section Extractor.

(** [line.match(pattern)] for the patterns above: the regular-expression
    engine is a built-in of the language and stays a parameter. *)
Variable regexMatch : Pattern -> jsstring -> option Match.

(** [String.prototype.toLowerCase], a built-in as well. *)
Variable toLowerCase : jsstring -> jsstring.

(** One symbol named by group 1 when [pattern] matches. *)
Definition symbolOf (pattern : Pattern) (t : SymbolType) (line : jsstring)
    (action : Action) (file : jsstring) : list CodeSymbol :=
  match regexMatch pattern line with
  | Some m => [mkSymbol (default [] (group1 m)) t action None file]
  | None => []
  end.

Definition truthy (s : jsstring) : bool :=
  match s with [] => false | _ :: _ => true end.

(** [importMatch[1] || importMatch[2]] *)
Definition importList (m : Match) : option jsstring :=
  match group1 m with
  | Some (c :: s) => Some (c :: s)
  | _ => group2 m
  end.

Definition importSymbols (line : jsstring) (action : Action) (file : jsstring)
  : list CodeSymbol :=
  match regexMatch ImportStmt line with
  | Some m =>
      match importList m with
      | Some imports =>
          if truthy imports then
            flat_map (fun imp =>
                        let name := trim (beforeAs (trim imp)) in
                        if truthy name then [mkSymbol name TImport action None file]
                        else [])
                     (split comma imports)
          else []
      | None => []
      end
  | None => []
  end.

Definition extractSymbolsFromLine (line : jsstring) (action : Action)
    (file : jsstring) : list CodeSymbol :=
  symbolOf FunctionDecl TFunction line action file
  ++ symbolOf ArrowFunction TFunction line action file
  ++ symbolOf ClassDecl TClass line action file
  ++ symbolOf InterfaceDecl TInterface line action file
  ++ symbolOf TypeAlias TType line action file
  ++ importSymbols line action file
  ++ symbolOf ConstDecl TConstant line action file.

(** *** [levenshteinDistance] and [areSimilar] *)

(** Row [i] of the matrix from row [i-1], columns 1 to [len2]: [diag] is
    [matrix[i-1][j-1]], [left] is [matrix[i][j-1]]. *)
Fixpoint nextRow (c : N) (str2 : jsstring) (diag : nat) (prev : list nat)
    (left : nat) : list nat :=
  match str2, prev with
  | d :: str2', up :: prev' =>
      let cost := if (c =? d)%N then 0 else 1 in
      let v := Nat.min (Nat.min (up + 1) (left + 1)) (diag + cost) in
      v :: nextRow c str2' up prev' v
  | _, _ => []
  end.

(** The rows below row [i-1]; returns row [len1] (columns 1 to [len2]). *)
Fixpoint lastRow (str1 str2 : jsstring) (i : nat) (prev : list nat) : list nat :=
  match str1 with
  | [] => prev
  | c :: str1' => lastRow str1' str2 (S i) (nextRow c str2 (i - 1) prev i)
  end.

Definition levenshteinDistance (str1 str2 : jsstring) : nat :=
  let len1 := length str1 in
  let len2 := length str2 in
  List.last (lastRow str1 str2 1 (seq 1 len2)) len1.

Definition areSimilar (name1 name2 : jsstring) : bool :=
  let lower1 := toLowerCase name1 in
  let lower2 := toLowerCase name2 in
  if includes lower2 lower1 || includes lower1 lower2 then true
  else levenshteinDistance lower1 lower2 <=? 3.

(** *** [detectRenames]

    The array holds objects that the loops change in place; [deleted] and
    [added] are the positions of the symbols that had these actions when
    the function started. *)

Definition positionsOf (a : Action) (symbols : list CodeSymbol) : list nat :=
  List.map fst
    (List.filter (fun p => bool_decide (action (snd p) = a))
                 (combine (seq 0 (length symbols)) symbols)).

Definition renameStep (del add : nat) (symbols : list CodeSymbol)
  : list CodeSymbol :=
  match symbols !! del, symbols !! add with
  | Some d, Some a =>
      if bool_decide (type d = type a) && bool_decide (file d = file a)
         && negb (bool_decide (name d = name a))
         && areSimilar (name d) (name a)
      then
        let symbols := alter (setAction Renamed) add symbols in
        let symbols := alter (setOldName (name d)) add symbols in
        alter (setAction Renamed) del symbols
      else symbols
  | _, _ => symbols
  end.

Definition detectRenames (symbols : list CodeSymbol) : list CodeSymbol :=
  let deleted := positionsOf Deleted symbols in
  let added := positionsOf Added symbols in
  fold_left (fun symbols del =>
               fold_left (fun symbols add => renameStep del add symbols)
                         added symbols)
            deleted symbols.

(** *** [detectModifications]

    [symbolMap] keeps its keys in insertion order; a group is the list of
    the positions of its symbols. *)

Definition groupKey (s : CodeSymbol) : jsstring :=
  name s ++ colon ++ typeString (type s) ++ colon ++ file s.

Fixpoint groupPush (key : jsstring) (i : nat)
    (symbolMap : list (jsstring * list nat)) : list (jsstring * list nat) :=
  match symbolMap with
  | [] => [(key, [i])]
  | (k, syms) :: rest =>
      if bool_decide (k = key) then (k, syms ++ [i]) :: rest
      else (k, syms) :: groupPush key i rest
  end.

Definition groupSymbols (symbols : list CodeSymbol) : list (jsstring * list nat) :=
  fold_left (fun symbolMap p => groupPush (groupKey (snd p)) (fst p) symbolMap)
            (combine (seq 0 (length symbols)) symbols) [].

Definition someHas (a : Action) (syms : list nat) (symbols : list CodeSymbol) : bool :=
  existsb (fun i => match symbols !! i with
                    | Some s => bool_decide (action s = a)
                    | None => false
                    end) syms.

Definition markModified (s : CodeSymbol) : CodeSymbol :=
  if bool_decide (action s = Renamed) then s else setAction Modified s.

Definition detectModifications (symbols : list CodeSymbol) : list CodeSymbol :=
  fold_left (fun symbols group =>
               let syms := snd group in
               let hasAdded := someHas Added syms symbols in
               let hasDeleted := someHas Deleted syms symbols in
               if hasAdded && hasDeleted then
                 fold_left (fun symbols i => alter markModified i symbols) syms symbols
               else symbols)
            (groupSymbols symbols) symbols.

(** *** [deduplicateSymbols] *)

Definition dedupKey (s : CodeSymbol) : jsstring :=
  name s ++ colon ++ typeString (type s) ++ colon
  ++ actionString (action s) ++ colon ++ file s.

Definition dedupStep (st : gset jsstring * list CodeSymbol) (symbol : CodeSymbol)
  : gset jsstring * list CodeSymbol :=
  let '(seen, unique) := st in
  let key := dedupKey symbol in
  if bool_decide (key ∈ seen) then st
  else ({[key]} ∪ seen, unique ++ [symbol]).

Definition deduplicateSymbols (symbols : list CodeSymbol) : list CodeSymbol :=
  snd (fold_left dedupStep symbols (∅, [])).

(** *** [extract] *)

Definition plus : jsstring := lit "+".
Definition minus : jsstring := lit "-".

(** One line of the diff: the current file and the symbols pushed so far. *)
Definition extractLine (st : jsstring * list CodeSymbol) (line : jsstring)
  : jsstring * list CodeSymbol :=
  let '(currentFile, symbols) := st in
  if isHeader line then
    match matchPath line with
    | Some path => (path, symbols)
    | None => st
    end
  else if negb (truthy currentFile) then st
  else
    let symbols :=
      if startsWith plus line && negb (startsWith (lit "+++") line)
      then symbols ++ extractSymbolsFromLine (trim (drop 1 line)) Added currentFile
      else symbols in
    let symbols :=
      if startsWith minus line && negb (startsWith (lit "---") line)
      then symbols ++ extractSymbolsFromLine (trim (drop 1 line)) Deleted currentFile
      else symbols in
    (currentFile, symbols).

Definition collectSymbols (diff : jsstring) : list CodeSymbol :=
  snd (fold_left extractLine (split LF diff) ([], [])).

(** The [symbols] field of [extract(diff)]. *)
Definition extractSymbols (diff : jsstring) : list CodeSymbol :=
  let symbols := collectSymbols diff in
  let symbols := detectRenames symbols in
  let symbols := detectModifications symbols in
  deduplicateSymbols symbols.

End Extractor.

(** The tuple the specification deduplicates by. *)
Definition tupleOf (s : CodeSymbol) : jsstring * SymbolType * Action * jsstring :=
  (name s, type s, action s, file s).

(** The key of [deduplicateSymbols] is computed from the tuple alone. *)
Definition keyOfTuple (t : jsstring * SymbolType * Action * jsstring) : jsstring :=
  let '(n, ty, a, f) := t in
  n ++ colon ++ typeString ty ++ colon ++ actionString a ++ colon ++ f.

Lemma dedupKey_tuple (s : CodeSymbol) : dedupKey s = keyOfTuple (tupleOf s).
Proof. reflexivity. Qed.

Example levenshtein_fetch_get :
  levenshteinDistance (lit "fetchusers") (lit "getusers") = 3.
Proof. reflexivity. Qed.

Example levenshtein_empty :
  levenshteinDistance [] (lit "abc") = 3 /\ levenshteinDistance (lit "abc") [] = 3.
Proof. split; reflexivity. Qed.

Example deduplicateSymbols_drops_repeats :
  let f := mkSymbol (lit "load") TFunction Added None (lit "a.ts") in
  let g := mkSymbol (lit "load") TFunction Deleted None (lit "a.ts") in
  deduplicateSymbols [f; g; f; g; f] = [f; g].
Proof. vm_compute. reflexivity. Qed.

(** The loop invariant of [deduplicateSymbols]: the keys of [unique] are
    pairwise different and all recorded in [seen]. *)
Definition dedupInv (st : gset jsstring * list CodeSymbol) : Prop :=
  NoDup (dedupKey <$> snd st) /\ (forall u, u ∈ snd st -> dedupKey u ∈ fst st).

Lemma dedupStep_inv (st : gset jsstring * list CodeSymbol) (symbol : CodeSymbol) :
  dedupInv st -> dedupInv (dedupStep st symbol).
Proof.
  destruct st as [seen unique]. intros [Hnd Hseen]. unfold dedupStep.
  case_bool_decide as Hin; [by split|].
  split; simpl in *.
  - rewrite fmap_app. apply NoDup_app. split; [exact Hnd|].
    split; [|apply NoDup_singleton].
    intros k Hk ->%list_elem_of_singleton.
    apply list_elem_of_fmap in Hk as (u & Hku & Hu).
    apply Hin. rewrite Hku. by apply Hseen.
  - intros u [Hu | ->%list_elem_of_singleton]%elem_of_app.
    + apply elem_of_union_r. by apply Hseen.
    + apply elem_of_union_l. by apply elem_of_singleton.
Qed.

Lemma dedupFold_inv (symbols : list CodeSymbol)
    (st : gset jsstring * list CodeSymbol) :
  dedupInv st -> dedupInv (fold_left dedupStep symbols st).
Proof.
  revert st. induction symbols as [|s symbols IH]; intros st Hst; [done|].
  simpl. by apply IH, dedupStep_inv.
Qed.

Lemma deduplicateSymbols_NoDup (symbols : list CodeSymbol) :
  NoDup (tupleOf <$> deduplicateSymbols symbols).
Proof.
  unfold deduplicateSymbols.
  destruct (dedupFold_inv symbols (∅, [])) as [Hnd _].
  { split; [constructor|]. intros u Hu. by apply not_elem_of_nil in Hu. }
  apply (NoDup_fmap_1 keyOfTuple).
  rewrite <- list_fmap_compose.
  erewrite list_fmap_ext; [exact Hnd|]. intros _ s _. apply dedupKey_tuple.
Qed.

(** C8: for every diff text the symbol list of [extract] holds no two
    symbols with the same (name, type, action, file) tuple. *)
Theorem extractSymbols_no_duplicates
    (regexMatch : Pattern -> jsstring -> option Match)
    (toLowerCase : jsstring -> jsstring) (diff : jsstring) :
  let symbols := extractSymbols regexMatch toLowerCase diff in
  NoDup (List.map tupleOf symbols)
  /\ (forall i j s1 s2,
        symbols !! i = Some s1 -> symbols !! j = Some s2 ->
        tupleOf s1 = tupleOf s2 -> i = j).
Proof.
  intros symbols.
  assert (NoDup (tupleOf <$> symbols)) as Hnd
    by apply deduplicateSymbols_NoDup.
  split; [exact Hnd|].
  intros i j s1 s2 Hi Hj Heq.
  eapply (NoDup_lookup _ i j (tupleOf s1) Hnd).
  - by rewrite list_lookup_fmap, Hi.
  - by rewrite list_lookup_fmap, Hj, Heq.
Qed.

(** A stand-in for the engine on lines of the shape [function NAME(...]:
    enough to run scenario B of the specification. *)
Definition sampleMatch (p : Pattern) (line : jsstring) : option Match :=
  match p, stripPrefix (lit "function ") line with
  | FunctionDecl, Some rest =>
      Some (mkMatch (Some (hd [] (split 40%N rest))) None)
  | _, _ => None
  end.

Example scenario_B_rename :
  extractSymbols sampleMatch CommitHistoryRetriever.asciiLower
    (lit "diff --git a/api.ts b/api.ts" ++ [LF]
     ++ lit "-function fetchUsers() {" ++ [LF]
     ++ lit "+function getUsers() {")
  = [mkSymbol (lit "fetchUsers") TFunction Renamed None (lit "api.ts");
     mkSymbol (lit "getUsers") TFunction Renamed (Some (lit "fetchUsers")) (lit "api.ts")].
Proof. vm_compute. reflexivity. Qed.

Example modified_symbol_is_reported_once :
  extractSymbols sampleMatch CommitHistoryRetriever.asciiLower
    (lit "diff --git a/api.ts b/api.ts" ++ [LF]
     ++ lit "-function load(a) {" ++ [LF]
     ++ lit "+function load(a, b) {")
  = [mkSymbol (lit "load") TFunction Modified None (lit "api.ts")].
Proof. vm_compute. reflexivity. Qed.

End CodeContextExtractor.

(* ===================================================================== *)
(** ** git/diffCollector.ts: [DiffCollector] *)
(* ===================================================================== *)

Module DiffCollector.

Import DiffHeader.

Definition maxDiffSize : Z := 500000.

Definition defaultIgnorePatterns : list jsstring :=
  [lit "*-lock.*"; lit "*.lock"; lit "dist/*"; lit "build/*";
   lit "node_modules/*"; lit ".next/*"; lit "coverage/*"].

(** [loadIgnorePatterns]: the defaults, then the lines of [.commitignore]
    (when the file exists) that are neither blank nor comments. *)
Definition loadIgnorePatterns (commitignore : option jsstring) : list jsstring :=
  match commitignore with
  | Some content =>
      defaultIgnorePatterns
      ++ List.filter (fun l => match l with
                               | [] => false
                               | _ => negb (startsWith (lit "#") l)
                               end)
                     (List.map trim (split LF content))
  | None => defaultIgnorePatterns
  end.

(** [(diff.match(/^diff --git/gm) || []).length]: under the [m] flag the
    caret matches at the start of the text and after every line terminator;
    [lineStart] tells whether the head of [s] is such a position. *)
Fixpoint countFrom (lineStart : bool) (s : jsstring) : nat :=
  match s with
  | [] => 0
  | c :: s' =>
      (if lineStart && startsWith headerPrefix s then 1 else 0)
      + countFrom (isLineTerminator c) s'
  end.

Definition countHeaderMatches (text : jsstring) : nat := countFrom true text.

(** The size limit of [getStagedDiff]: the text and the [truncated] flag. *)
Definition truncate (diff : jsstring) : jsstring * bool :=
  if (maxDiffSize <? Z.of_nat (length diff))%Z
  then (take (Z.to_nat maxDiffSize) diff ++ [LF] ++ lit "... (truncated)", true)
  else (diff, false).

(** The fields of [DiffContext] that are computed from the diff text; the
    others come from further git commands. *)
Record DiffContext := mkDiffContext {
  diff : jsstring;
  filesChanged : nat;
  truncated : bool;
}.

Section Collector.

(** [minimatch(path, pattern)] of the package of that name. *)
Variable minimatch : jsstring -> jsstring -> bool.

(** [patterns.some(p => minimatch(currentFile, p))] *)
Definition shouldExclude (patterns : list jsstring) (currentFile : jsstring) : bool :=
  existsb (fun p => minimatch currentFile p) patterns.

(** One turn of the loop of [filterDiff]: [skipCurrentFile] and the lines
    kept so far. *)
Definition filterLine (patterns : list jsstring)
    (st : bool * list jsstring) (line : jsstring) : bool * list jsstring :=
  let '(skipCurrentFile, filtered) := st in
  let push skip := if negb skip then (skip, filtered ++ [line]) else (skip, filtered) in
  if isHeader line then
    match matchPath line with
    | Some currentFile =>
        let skipCurrentFile := shouldExclude patterns currentFile in
        if skipCurrentFile then (skipCurrentFile, filtered)
        else push skipCurrentFile
    | None => push skipCurrentFile
    end
  else push skipCurrentFile.

Definition filterDiff (diff : jsstring) (patterns : list jsstring) : jsstring :=
  let lines := split LF diff in
  join [LF] (snd (fold_left (filterLine patterns) lines (false, []))).

(** [getStagedDiff] on the output [staged] of [git diff --staged]. *)
Definition getStagedDiff (staged : jsstring) (commitignore : option jsstring)
  : DiffContext :=
  let ignorePatterns := loadIgnorePatterns commitignore in
  let diff := filterDiff staged ignorePatterns in
  let '(diff, truncated) := truncate diff in
  let filesChanged := countHeaderMatches diff in
  mkDiffContext diff filesChanged truncated.

(** *** What the specification compares [filesChanged] with *)

(** The header lines of the diff. *)
Definition headerLines (staged : jsstring) : list jsstring :=
  List.filter isHeader (split LF staged).

(** A header line that [filterDiff] drops: the text that [matchPath] finds
    in it matches an ignore pattern.  In a header [diff --git a/OLD b/NEW]
    with no [b/] in [OLD] this text is the path [NEW] of the file. *)
Definition ignoredHeader (patterns : list jsstring) (line : jsstring) : bool :=
  match matchPath line with
  | Some path => shouldExclude patterns path
  | None => false
  end.

(** The header lines that are not dropped: those of the files that are not
    ignored, when the paths hold no [b/]. *)
Definition keptHeaders (patterns : list jsstring) (staged : jsstring) : list jsstring :=
  List.filter (fun line => negb (ignoredHeader patterns line)) (headerLines staged).

(** The paths that [matchPath] finds in these header lines. *)
Definition keptPaths (patterns : list jsstring) (staged : jsstring) : list jsstring :=
  omap matchPath (keptHeaders patterns staged).

(** The number of distinct file paths observed in the diff, ignoring the
    files matched by the ignore patterns. *)
Definition distinctPaths (patterns : list jsstring) (staged : jsstring) : nat :=
  size (list_to_set (keptPaths patterns staged) : gset jsstring).

End Collector.

(** Patterns without wildcards: a stand-in for [minimatch] on examples. *)
Definition literalMatch (path pattern : jsstring) : bool :=
  bool_decide (path = pattern).

(** A type change (file to symbolic link) is printed by git as a deletion
    and a creation of the same path. *)
Definition typeChangeDiff : jsstring :=
  lit "diff --git a/link b/link" ++ [LF]
  ++ lit "deleted file mode 100644" ++ [LF]
  ++ lit "--- a/link" ++ [LF] ++ lit "+++ /dev/null" ++ [LF]
  ++ lit "@@ -1 +0,0 @@" ++ [LF] ++ lit "-text" ++ [LF]
  ++ lit "diff --git a/link b/link" ++ [LF]
  ++ lit "new file mode 120000" ++ [LF]
  ++ lit "--- /dev/null" ++ [LF] ++ lit "+++ b/link" ++ [LF]
  ++ lit "@@ -0,0 +1 @@" ++ [LF] ++ lit "+target".

Definition twoFilesDiff : jsstring :=
  lit "diff --git a/src/a.ts b/src/a.ts" ++ [LF]
  ++ lit "--- a/src/a.ts" ++ [LF] ++ lit "+++ b/src/a.ts" ++ [LF]
  ++ lit "@@ -1 +1 @@" ++ [LF] ++ lit "-old" ++ [LF] ++ lit "+new" ++ [LF]
  ++ lit "diff --git a/yarn.lock b/yarn.lock" ++ [LF]
  ++ lit "--- a/yarn.lock" ++ [LF] ++ lit "+++ b/yarn.lock" ++ [LF]
  ++ lit "@@ -1 +1 @@" ++ [LF] ++ lit "-x" ++ [LF] ++ lit "+y" ++ [LF]
  ++ lit "diff --git a/README.md b/README.md" ++ [LF]
  ++ lit "--- a/README.md" ++ [LF] ++ lit "+++ b/README.md" ++ [LF]
  ++ lit "@@ -1 +1 @@" ++ [LF] ++ lit "-a" ++ [LF] ++ lit "+b".

Example getStagedDiff_ignores_listed_file :
  let ctx := getStagedDiff literalMatch twoFilesDiff (Some (lit "yarn.lock")) in
  filesChanged ctx = 2 /\ truncated ctx = false
  /\ includes (lit "yarn.lock") (diff ctx) = false.
Proof. vm_compute. repeat split. Qed.

(** *** Counting header lines in a joined text *)

Lemma startsWith_header_app (l rest : jsstring) :
  startsWith headerPrefix (l ++ LF :: rest) = startsWith headerPrefix l.
Proof.
  unfold startsWith.
  assert (forall p : jsstring, LF ∉ p ->
            match stripPrefix p (l ++ LF :: rest) with Some _ => true | None => false end
            = match stripPrefix p l with Some _ => true | None => false end) as H.
  { intros p. revert l. induction p as [|a p IH]; intros l Hp; [done|].
    apply not_elem_of_cons in Hp as [Ha Hp].
    destruct l as [|b l]; simpl.
    - destruct (N.eqb_spec a LF) as [->|_]; [done|reflexivity].
    - destruct (a =? b)%N; [by apply IH | reflexivity]. }
  apply H. vm_compute. intros Hin.
  repeat (apply elem_of_cons in Hin as [Hin|Hin]; [discriminate|]).
  by apply not_elem_of_nil in Hin.
Qed.

Lemma countFrom_inside_line (l rest : jsstring) :
  noLineTerminator l = true ->
  countFrom false (l ++ LF :: rest) = countFrom true rest.
Proof.
  induction l as [|c l IH]; [done|].
  intros [Hc Hl]%andb_true_iff. apply negb_true_iff in Hc.
  cbn [app countFrom andb]. rewrite Hc. by apply IH.
Qed.

Lemma countFrom_inside_last_line (l : jsstring) :
  noLineTerminator l = true -> countFrom false l = 0.
Proof.
  induction l as [|c l IH]; [done|].
  intros [Hc Hl]%andb_true_iff. apply negb_true_iff in Hc.
  cbn [countFrom andb]. rewrite Hc. by apply IH.
Qed.

Lemma countFrom_line (l rest : jsstring) :
  noLineTerminator l = true ->
  countFrom true (l ++ LF :: rest)
  = (if isHeader l then 1 else 0) + countFrom true rest.
Proof.
  destruct l as [|c l]; [done|].
  intros [Hc Hl]%andb_true_iff. apply negb_true_iff in Hc.
  change ((c :: l) ++ LF :: rest) with (c :: (l ++ LF :: rest)).
  cbn [countFrom andb]. rewrite Hc.
  change (c :: (l ++ LF :: rest)) with ((c :: l) ++ LF :: rest).
  rewrite startsWith_header_app, (countFrom_inside_line _ _ Hl).
  reflexivity.
Qed.

Lemma countFrom_last_line (l : jsstring) :
  noLineTerminator l = true ->
  countFrom true l = if isHeader l then 1 else 0.
Proof.
  destruct l as [|c l]; [done|].
  intros [Hc Hl]%andb_true_iff. apply negb_true_iff in Hc.
  cbn [countFrom andb]. rewrite Hc, (countFrom_inside_last_line _ Hl).
  unfold isHeader. lia.
Qed.

Lemma countHeaderMatches_join (lines : list jsstring) :
  Forall (fun l => noLineTerminator l = true) lines ->
  countHeaderMatches (join [LF] lines) = length (List.filter isHeader lines).
Proof.
  unfold countHeaderMatches.
  induction 1 as [|l lines Hl Hlines IH]; [done|].
  destruct lines as [|l2 lines].
  - cbn [join List.filter]. rewrite (countFrom_last_line _ Hl).
    by destruct (isHeader l).
  - change (join [LF] (l :: l2 :: lines)) with (l ++ LF :: join [LF] (l2 :: lines)).
    rewrite (countFrom_line _ _ Hl), IH.
    cbn [List.filter]. by destruct (isHeader l).
Qed.

(** The lines of a text whose only line terminator is LF hold none. *)
Lemma split_noLineTerminator (text : jsstring) :
  Forall (fun c => isLineTerminator c = true -> c = LF) text ->
  Forall (fun l => noLineTerminator l = true) (split LF text).
Proof.
  induction 1 as [|c text Hc Htext IH]; [by repeat constructor|].
  cbn [split].
  destruct (N.eqb_spec c LF) as [->|Hne].
  - by constructor.
  - destruct (split LF text) as [|l ls]; inversion IH; subst.
    + repeat constructor. cbn. rewrite andb_true_r.
      destruct (isLineTerminator c); [by specialize (Hc eq_refl)|done].
    + constructor; [|done]. cbn. apply andb_true_iff. split; [|done].
      destruct (isLineTerminator c); [by specialize (Hc eq_refl)|done].
Qed.

(** *** The lines [filterDiff] keeps *)

Section Filtering.

Variable minimatch : jsstring -> jsstring -> bool.
Variable patterns : list jsstring.

(** [skipCurrentFile] after [line] has been read. *)
Definition nextSkip (skip : bool) (line : jsstring) : bool :=
  if isHeader line then
    match matchPath line with
    | Some currentFile => shouldExclude minimatch patterns currentFile
    | None => skip
    end
  else skip.

Fixpoint keptFrom (skip : bool) (lines : list jsstring) : list jsstring :=
  match lines with
  | [] => []
  | line :: lines =>
      let skip := nextSkip skip line in
      (if skip then [] else [line]) ++ keptFrom skip lines
  end.

Lemma filterLine_nextSkip (skip : bool) (filtered : list jsstring) (line : jsstring) :
  filterLine minimatch patterns (skip, filtered) line
  = (nextSkip skip line,
     filtered ++ (if nextSkip skip line then [] else [line])).
Proof.
  unfold filterLine, nextSkip.
  destruct (isHeader line); [destruct (matchPath line) as [path|]|].
  - destruct (shouldExclude minimatch patterns path); simpl; by rewrite ?app_nil_r.
  - destruct skip; simpl; by rewrite ?app_nil_r.
  - destruct skip; simpl; by rewrite ?app_nil_r.
Qed.

Lemma filter_fold_keptFrom (lines : list jsstring) (skip : bool)
    (filtered : list jsstring) :
  snd (fold_left (filterLine minimatch patterns) lines (skip, filtered))
  = filtered ++ keptFrom skip lines.
Proof.
  revert skip filtered.
  induction lines as [|line lines IH]; intros skip filtered.
  - by rewrite app_nil_r.
  - cbn [fold_left keptFrom]. rewrite filterLine_nextSkip, IH.
    by rewrite <- app_assoc.
Qed.

Lemma keptFrom_Forall (P : jsstring -> Prop) (lines : list jsstring) (skip : bool) :
  Forall P lines -> Forall P (keptFrom skip lines).
Proof.
  intros H. revert skip. induction H as [|line lines Hl Hlines IH]; intros skip.
  - constructor.
  - cbn [keptFrom]. apply Forall_app. split; [|apply IH].
    destruct (nextSkip skip line); by repeat constructor.
Qed.

(** Among the kept lines, the headers are those of the files that are not
    ignored, provided every header names a path. *)
Lemma keptFrom_headers (lines : list jsstring) (skip : bool) :
  Forall (fun line => is_Some (matchPath line)) (List.filter isHeader lines) ->
  List.filter isHeader (keptFrom skip lines)
  = List.filter (fun line => negb (ignoredHeader minimatch patterns line))
                (List.filter isHeader lines).
Proof.
  revert skip. induction lines as [|line lines IH]; intros skip Hpaths; [done|].
  cbn [keptFrom List.filter] in *. unfold nextSkip.
  destruct (isHeader line) eqn:Eh.
  - apply Forall_cons in Hpaths as [[path Hpath] Hpaths].
    cbn [List.filter]. unfold ignoredHeader at 1. rewrite Hpath.
    destruct (shouldExclude minimatch patterns path); cbn [app negb List.filter].
    + by apply IH.
    + rewrite Eh. f_equal. by apply IH.
  - rewrite List.filter_app, (IH _ Hpaths).
    destruct skip; cbn [List.filter]; by rewrite ?Eh.
Qed.

End Filtering.

Lemma truncate_false (text : jsstring) :
  snd (truncate text) = false -> fst (truncate text) = text.
Proof. unfold truncate. by destruct (maxDiffSize <? Z.of_nat (length text))%Z. Qed.

(** C9, as stated, fails: two header lines may name one path, and both are
    counted. *)
Lemma filesChanged_counts_a_path_twice :
  let ctx := getStagedDiff literalMatch typeChangeDiff None in
  let patterns := loadIgnorePatterns None in
  filesChanged ctx = 2
  /\ keptPaths literalMatch patterns typeChangeDiff = [lit "link"; lit "link"]
  /\ distinctPaths literalMatch patterns typeChangeDiff = 1
  /\ filesChanged ctx <> distinctPaths literalMatch patterns typeChangeDiff.
Proof. vm_compute. repeat split; congruence. Qed.

End DiffCollector.

(* ===================================================================== *)
(** ** Effects: state, recorded events and exceptions *)
(* ===================================================================== *)

Module Eff.

(** A thrown value: an [Error] object, of which the code reads the
    [name], the [code] and the [message]. *)
Record JsError := mkError {
  errName : jsstring;
  errCode : option jsstring;
  errMessage : jsstring;
}.

(** [new Error(message)] *)
Definition newError (message : jsstring) : JsError :=
  mkError (lit "Error") None message.

Inductive Outcome (A : Type) :=
  | Ok (a : A)
  | Throw (e : JsError).
Arguments Ok {A} a.
Arguments Throw {A} e.

(** The kinds of message of [Logger] and [UI]. *)
Inductive Level := LInfo | LSuccess | LWarn | LError.

(** The state threaded through the code: the outside world [W] (repository,
    terminal, network, clock) and the events [E] the code has caused so far,
    oldest first. *)
Record State (W E : Type) := mkState { world : W; events : list E }.
Arguments mkState {W E} world events.
Arguments world {W E} s.
Arguments events {W E} s.

Definition M (W E A : Type) : Type := State W E -> Outcome A * State W E.

Section Monad.

Context {W E : Type}.

Definition ret {A} (a : A) : M W E A := fun s => (Ok a, s).

Definition bind {A B} (c : M W E A) (k : A -> M W E B) : M W E B :=
  fun s => match c s with
           | (Ok a, s') => k a s'
           | (Throw e, s') => (Throw e, s')
           end.

Definition throw {A} (e : JsError) : M W E A := fun s => (Throw e, s).

(** [try { body } catch (error) { handler(error) }] *)
Definition tryCatch {A} (body : M W E A) (handler : JsError -> M W E A) : M W E A :=
  fun s => match body s with
           | (Ok a, s') => (Ok a, s')
           | (Throw e, s') => handler e s'
           end.

(** Record an event. *)
Definition emit (e : E) : M W E unit :=
  fun s => (Ok tt, mkState (world s) (events s ++ [e])).

(** A call of a collaborator that may throw. *)
Definition call {A} (h : W -> Outcome A * W) : M W E A :=
  fun s => let '(r, w) := h (world s) in (r, mkState w (events s)).

(** A call of a collaborator that does not throw. *)
Definition callTotal {A} (h : W -> A * W) : M W E A :=
  fun s => let '(a, w) := h (world s) in (Ok a, mkState w (events s)).

(** A call of a collaborator that returns nothing and whose failure does
    not reach the caller. *)
Definition effect (h : W -> W) : M W E unit :=
  fun s => (Ok tt, mkState (h (world s)) (events s)).

End Monad.

Declare Scope eff_scope.
Delimit Scope eff_scope with eff.
Notation "x <- c ;; k" := (bind c (fun x => k))
  (at level 100, c at next level, right associativity) : eff_scope.
Notation "c ;;; k" := (bind c (fun _ => k))
  (at level 100, right associativity) : eff_scope.

End Eff.

(* ===================================================================== *)
(** ** checks/checkRunner.ts: [CheckRunner] *)
(* ===================================================================== *)

Module CheckRunner.

Import Eff.
Local Open Scope eff_scope.

Record CheckConfig := mkCheckConfig {
  enabled : bool;
  command : jsstring;
  blocking : bool;
  message : option jsstring;
  autofix : option jsstring;
  timeout : option Z;
}.

Record CheckResult := mkCheckResult {
  name : jsstring;
  passed : bool;
  output : jsstring;
  error : option jsstring;
  duration : Z;
  autoFixAvailable : bool;
}.

(** [passed] and [failed] of the summary are [passedCount] and
    [failedCount] here. *)
Record CheckSummary := mkCheckSummary {
  totalChecks : nat;
  passedCount : nat;
  failedCount : nat;
  skipped : nat;
  results : list CheckResult;
  totalDuration : Z;
}.

(** What [execSync] throws: the message and the captured streams. *)
Record ExecError := mkExecError {
  execMessage : jsstring;
  stdout : jsstring;
  stderr : jsstring;
}.

(** The events of the check runner: the messages of [UI.warn], [UI.info]
    and [UI.error], and the commands handed to [execSync] with the name of
    their check.  Spinners and [console.log] decoration are not recorded. *)
Inductive Event :=
  | Said (level : Level) (text : jsstring)
  | Ran (checkName : jsstring) (command : jsstring) (timeout : Z).

(** The collaborators: [execSync(command, {timeout})] and [Date.now()]. *)
Record Env (W : Type) := mkEnv {
  execSync : jsstring -> Z -> W -> (ExecError + jsstring) * W;
  dateNow : W -> Z * W;
}.
Arguments execSync {W} e command timeout w.
Arguments dateNow {W} e w.

Definition quoted (s : jsstring) : jsstring := [34%N] ++ s ++ [34%N].

Definition truthy (s : jsstring) : bool :=
  match s with [] => false | _ :: _ => true end.

(** [config.timeout || 30000] *)
Definition timeoutOf (config : CheckConfig) : Z :=
  match timeout config with
  | Some t => if (t =? 0)%Z then 30000%Z else t
  | None => 30000%Z
  end.

(** [!!config.autofix] *)
Definition hasAutofix (config : CheckConfig) : bool :=
  match autofix config with
  | Some s => truthy s
  | None => false
  end.

(** [err.stdout || err.stderr || ''] *)
Definition outputOf (err : ExecError) : jsstring :=
  if truthy (stdout err) then stdout err
  else if truthy (stderr err) then stderr err
  else [].

Section Runner.

Context {W : Type}.
Variable env : Env W.

(** [this.checks] *)
Variable checks : gmap jsstring CheckConfig.

Definition runSingleCheck (name : jsstring) (config : CheckConfig)
  : M W Event CheckResult :=
  startTime <- callTotal (dateNow env) ;;
  emit (Ran name (command config) (timeoutOf config)) ;;;
  r <- callTotal (execSync env (command config) (timeoutOf config)) ;;
  match r with
  | inr out =>
      (* the duration shown by the spinner *)
      _ <- callTotal (dateNow env) ;;
      finish <- callTotal (dateNow env) ;;
      ret (mkCheckResult name true out None (finish - startTime) (hasAutofix config))
  | inl err =>
      finish <- callTotal (dateNow env) ;;
      ret (mkCheckResult name false (outputOf err) (Some (execMessage err))
             (finish - startTime) (hasAutofix config))
  end.

Definition summarizeResults (results : list CheckResult) (totalDuration : Z)
  : CheckSummary :=
  let nPassed := length (List.filter (fun r => passed r) results) in
  let nFailed := length (List.filter (fun r => negb (passed r)) results) in
  mkCheckSummary (length results) nPassed nFailed 0 results totalDuration.

(** The loop of [runChecks], with [results] and [totalDuration] as they
    stand before the remaining names are read. *)
Fixpoint runLoop (checkNames : list jsstring) (results : list CheckResult)
    (totalDuration : Z) : M W Event (list CheckResult * Z) :=
  match checkNames with
  | [] => ret (results, totalDuration)
  | checkName :: checkNames =>
      match checks !! checkName with
      | None =>
          emit (Said LWarn (lit "Check " ++ quoted checkName
                            ++ lit " not found in configuration, skipping")) ;;;
          runLoop checkNames results totalDuration
      | Some checkConfig =>
          if negb (enabled checkConfig) then
            emit (Said LInfo (lit "Check " ++ quoted checkName
                              ++ lit " is disabled, skipping")) ;;;
            runLoop checkNames results totalDuration
          else
            result <- runSingleCheck checkName checkConfig ;;
            let results := results ++ [result] in
            let totalDuration := (totalDuration + duration result)%Z in
            if blocking checkConfig && negb (passed result) then
              emit (Said LError (lit "Blocking check " ++ quoted checkName
                                 ++ lit " failed, stopping")) ;;;
              ret (results, totalDuration)
            else runLoop checkNames results totalDuration
      end
  end.

Definition runChecks (checkNames : list jsstring) : M W Event CheckSummary :=
  r <- runLoop checkNames [] 0%Z ;;
  ret (summarizeResults (fst r) (snd r)).

Definition canProceed (summary : CheckSummary) : bool :=
  forallb (fun result =>
             match checks !! name result with
             | Some config => negb (blocking config && negb (passed result))
             | None => true
             end)
          (results summary).

(** *** The vocabulary of the property *)

(** A name that is configured and enabled. *)
Definition runnable (checkName : jsstring) : bool :=
  match checks !! checkName with
  | Some config => enabled config
  | None => false
  end.

(** A result that failed while its check is configured as blocking. *)
Definition blockingFailure (result : CheckResult) : bool :=
  match checks !! name result with
  | Some config => blocking config && negb (passed result)
  | None => false
  end.

End Runner.

(** The names of the checks whose command was executed, in order. *)
Definition ranNames (evs : list Event) : list jsstring :=
  omap (fun e => match e with Ran n _ _ => Some n | Said _ _ => None end) evs.

(** *** Facts about the loop *)

Section RunnerFacts.

Context {W : Type}.
Variable env : Env W.
Variable checks : gmap jsstring CheckConfig.

Lemma runSingleCheck_spec (checkName : jsstring) (config : CheckConfig)
    (st : State W Event) :
  exists result w',
    runSingleCheck env checkName config st
    = (Ok result,
       mkState w' (events st ++ [Ran checkName (command config) (timeoutOf config)]))
    /\ name result = checkName.
Proof.
  unfold runSingleCheck, bind, callTotal, emit, ret. cbn [world events].
  destruct (dateNow env (world st)) as [startTime w1].
  cbn [world events].
  destruct (execSync env (command config) (timeoutOf config) w1) as [[err|out] w2];
    cbn [world events].
  - destruct (dateNow env w2) as [finish w3]. by eexists _, _.
  - destruct (dateNow env w2) as [shown w3]. cbn [world events].
    destruct (dateNow env w3) as [finish w4]. by eexists _, _.
Qed.

(** What one run of the loop over [checkNames] adds: the results [newRes]
    and the events [newEv]. *)
Definition loopSpec (checkNames : list jsstring) (newRes : list CheckResult)
    (newEv : list Event) : Prop :=
  exists ran rest,
    checkNames = ran ++ rest
    /\ name <$> newRes = List.filter (runnable checks) ran
    /\ ranNames newEv = name <$> newRes
    /\ Forall (fun r => blockingFailure checks r = false) (removelast newRes)
    /\ (rest = []
        \/ exists r, last newRes = Some r /\ last ran = Some (name r)
                     /\ blockingFailure checks r = true).

Lemma loopSpec_skip (checkName : jsstring) (checkNames : list jsstring)
    (newRes : list CheckResult) (newEv : list Event) (level : Level)
    (text : jsstring) :
  runnable checks checkName = false ->
  loopSpec checkNames newRes newEv ->
  loopSpec (checkName :: checkNames) newRes (Said level text :: newEv).
Proof.
  intros Hrun (ran & rest & -> & Hnames & Hran & Hnb & Hstop).
  exists (checkName :: ran), rest.
  split; [done|]. split; [cbn [List.filter]; by rewrite Hrun|].
  split; [exact Hran|]. split; [exact Hnb|].
  destruct Hstop as [->|(r & Hlast & Hlr & Hbf)]; [by left|right].
  exists r. split; [exact Hlast|]. split; [|exact Hbf].
  destruct ran as [|x ran]; [done|exact Hlr].
Qed.

Lemma runLoop_spec (checkNames : list jsstring) :
  forall (results : list CheckResult) (total : Z) (st : State W Event),
  exists newRes total' newEv w',
    runLoop env checks checkNames results total st
    = (Ok (results ++ newRes, total'), mkState w' (events st ++ newEv))
    /\ loopSpec checkNames newRes newEv.
Proof.
  induction checkNames as [|checkName checkNames IH]; intros results total st.
  - exists [], total, [], (world st). rewrite !app_nil_r. split.
    + by destruct st.
    + exists [], []. repeat split; [constructor | by left].
  - cbn [runLoop].
    destruct (checks !! checkName) as [config|] eqn:Hlook;
      [destruct (enabled config) eqn:Hen; cbn [negb]|].
    + (* the check runs *)
      destruct (runSingleCheck_spec checkName config st) as (result & w1 & Hrun & Hname).
      unfold bind at 1. rewrite Hrun.
      destruct (blocking config && negb (passed result)) eqn:Hbf.
      * (* blocking failure: the loop ends *)
        unfold bind, emit, ret. cbn [world events].
        eexists [result], _, [_; _], w1. rewrite <- app_assoc. split; [done|].
        exists [checkName], checkNames.
        split; [done|]. split.
        { cbn. unfold runnable. by rewrite Hlook, Hen, Hname. }
        split; [cbn; by rewrite Hname|]. split; [constructor|].
        right. exists result. rewrite Hname. repeat split.
        unfold blockingFailure. by rewrite Hname, Hlook.
      * destruct (IH (results ++ [result]) (total + duration result)%Z
                    (mkState w1 (events st ++ [Ran checkName (command config) (timeoutOf config)])))
          as (newRes & total' & newEv & w' & Hloop & ran & rest & -> & Hnames & Hran & Hnb & Hstop).
        rewrite Hloop. cbn [events].
        exists (result :: newRes), total', (Ran checkName (command config) (timeoutOf config) :: newEv), w'.
        rewrite <- !app_assoc. split; [done|].
        exists (checkName :: ran), rest.
        split; [done|]. split.
        { cbn [List.filter fmap list_fmap]. unfold runnable at 1.
          rewrite Hlook, Hen. cbn. by rewrite Hname, <- Hnames. }
        split; [cbn; by rewrite Hname, <- Hran|].
        assert (blockingFailure checks result = false) as Hres
          by (unfold blockingFailure; by rewrite Hname, Hlook).
        split.
        { destruct newRes as [|r newRes]; [constructor|].
          change (removelast (result :: r :: newRes))
            with (result :: removelast (r :: newRes)).
          by constructor. }
        destruct Hstop as [->|(r & Hlast & Hlr & Hr)]; [by left|right].
        exists r. split; [|split; [|exact Hr]].
        { destruct newRes as [|r0 newRes]; [done|exact Hlast]. }
        { destruct ran as [|x ran]; [done|exact Hlr]. }
    + (* disabled *)
      unfold bind at 1, emit at 1. cbn [world events].
      destruct (IH results total
                  (mkState (world st) (events st ++ [Said LInfo
                     (lit "Check " ++ quoted checkName ++ lit " is disabled, skipping")])))
        as (newRes & total' & newEv & w' & Hloop & Hspec).
      rewrite Hloop. cbn [events]. rewrite <- app_assoc.
      eexists newRes, total', (_ :: newEv), w'. split; [done|].
      apply loopSpec_skip; [|exact Hspec].
      unfold runnable. by rewrite Hlook, Hen.
    + (* not configured *)
      unfold bind at 1, emit at 1. cbn [world events].
      destruct (IH results total
                  (mkState (world st) (events st ++ [Said LWarn
                     (lit "Check " ++ quoted checkName
                      ++ lit " not found in configuration, skipping")])))
        as (newRes & total' & newEv & w' & Hloop & Hspec).
      rewrite Hloop. cbn [events]. rewrite <- app_assoc.
      eexists newRes, total', (_ :: newEv), w'. split; [done|].
      apply loopSpec_skip; [|exact Hspec].
      unfold runnable. by rewrite Hlook.
Qed.

(** C10: [runChecks] reads the requested names in list order; it stops
    right after the first check that fails while configured as blocking, so
    that no later name is executed or reported; names that are unknown or
    disabled yield no [CheckResult].  Precisely: the names split into a part
    that was read and a rest that was not; the results are those of the
    runnable names of the first part, in order, and the commands executed
    are exactly theirs; no result but the last is a blocking failure; and
    when the rest is not empty, the last result is a blocking failure of the
    last name read. *)
Theorem runChecks_stops_at_blocking_failure (checkNames : list jsstring)
    (st : State W Event) :
  exists summary w' newEv ran rest,
    runChecks env checks checkNames st
    = (Ok summary, mkState w' (events st ++ newEv))
    /\ checkNames = ran ++ rest
    /\ name <$> results summary = List.filter (runnable checks) ran
    /\ ranNames newEv = name <$> results summary
    /\ Forall (fun r => runnable checks (name r) = true) (results summary)
    /\ Forall (fun r => blockingFailure checks r = false)
              (removelast (results summary))
    /\ (rest = []
        \/ exists r, last (results summary) = Some r
                     /\ last ran = Some (name r)
                     /\ blockingFailure checks r = true).
Proof.
  destruct (runLoop_spec checkNames [] 0%Z st)
    as (newRes & total' & newEv & w' & Hloop & ran & rest & Hsplit & Hnames & Hran & Hnb & Hstop).
  exists (summarizeResults newRes total'), w', newEv, ran, rest.
  split.
  { unfold runChecks, bind, ret. by rewrite Hloop. }
  cbn [results summarizeResults].
  repeat (split; [done|]).
  split; [|by split].
  apply Forall_forall. intros r Hr.
  assert (name r ∈ List.filter (runnable checks) ran) as Hin
    by (rewrite <- Hnames; apply list_elem_of_fmap; eauto).
  by apply list_elem_of_In, List.filter_In in Hin as [_ Hin].
Qed.

End RunnerFacts.

(** *** A run on a small configuration *)

(** The world is the clock; [npm run lint] fails after 5 ms, every other
    command succeeds after 7 ms. *)
Definition sampleEnv : Env Z :=
  mkEnv Z
    (fun command _ now =>
       if bool_decide (command = lit "npm run lint")
       then (inl (mkExecError (lit "Command failed") (lit "2 problems") []), now + 5)%Z
       else (inr (lit "ok"), now + 7)%Z)
    (fun now => (now, now)).

Definition sampleChecks : gmap jsstring CheckConfig :=
  list_to_map
    [(lit "build", mkCheckConfig true (lit "npm run build") true None None None);
     (lit "docs", mkCheckConfig false (lit "npm run docs") true None None None);
     (lit "lint", mkCheckConfig true (lit "npm run lint") true None (Some (lit "npm run fix")) None);
     (lit "test", mkCheckConfig true (lit "npm test") true None None None)].

Example runChecks_sample :
  let names := [lit "build"; lit "spell"; lit "docs"; lit "lint"; lit "test"] in
  match runChecks sampleEnv sampleChecks names (mkState 0%Z []) with
  | (Ok summary, st) =>
      List.map (fun r => (name r, passed r, duration r)) (results summary)
      = [(lit "build", true, 7%Z); (lit "lint", false, 5%Z)]
      /\ ranNames (events st) = [lit "build"; lit "lint"]
      /\ totalDuration summary = 12%Z
      /\ canProceed sampleChecks summary = false
  | _ => False
  end.
Proof. vm_compute. repeat split. Qed.

End CheckRunner.

(* ===================================================================== *)
(** ** workflows/workflowRunner.ts: [WorkflowRunner] *)
(* ===================================================================== *)

Module WorkflowRunner.

Import Eff.
Local Open Scope eff_scope.

Inductive Role := RSystem | RUser | RAssistant.

Record LLMMessage := mkMessage { role : Role; content : jsstring }.

(** A [WorkflowStep] is a string at run time: [executeStep] has a [default]
    case for the strings outside the union type. *)
Abbreviation WorkflowStep := jsstring (only parsing).

Record WorkflowConfig := mkConfig {
  steps : list WorkflowStep;
  checks : option (list jsstring);
  interactive : bool;
  description : option jsstring;
}.

Record WorkflowResult := mkResult {
  success : bool;
  stepsCompleted : nat;
  totalSteps : nat;
  failedStep : option jsstring;
  error : option jsstring;
}.

Inductive Source := Logger | UI.

(** The events of the workflow engine: the messages of [Logger] and [UI],
    the calls of [generateText] on the primary ([fallback = false]) or the
    fallback provider, and the calls of [diffCollector.commit].  Spinners
    and the box of [UI.commitMessage] are not recorded. *)
Inductive Event :=
  | Said (source : Source) (level : Level) (text : jsstring)
  | Generated (fallback : bool) (messages : list LLMMessage)
  | Committed (message : jsstring).

(** [LLMProvider.generateText(messages)] *)
Definition GenerateText (W : Type) : Type :=
  list LLMMessage -> W -> Outcome jsstring * W.

(** The collaborators of the runner: the check runner and the providers
    handed to the constructor, the diff collector, the prompt engine and
    the prompts of [enquirer]. *)
Record Env (W : Type) := mkEnv {
  dryRun : bool;
  provider : GenerateText W;
  fallbackProvider : option (GenerateText W);
  (* checkRunner.runAllChecks() *)
  checkRunAll : W -> Outcome CheckRunner.CheckSummary * W;
  (* checkRunner.runChecks(checkNames) *)
  checkRun : list jsstring -> W -> Outcome CheckRunner.CheckSummary * W;
  (* checkRunner.canProceed(summary) *)
  canProceed : CheckRunner.CheckSummary -> bool;
  (* diffCollector.getStagedDiff() *)
  getStagedDiff : W -> Outcome DiffCollector.DiffContext * W;
  (* diffCollector.addAll() and diffCollector.commit(message): the calls
     are not awaited, so that a rejection does not reach the enclosing try
     block *)
  addAll : W -> W;
  commit : jsstring -> W -> W;
  (* diffCollector.push() *)
  pushRemote : W -> Outcome jsstring * W;
  (* promptEngine.buildBracketedCommitPrompt(diffContext): a fresh array *)
  buildBracketedCommitPrompt : DiffCollector.DiffContext -> list LLMMessage;
  (* prompt({type: 'confirm', message, ...}): the answer *)
  promptConfirm : jsstring -> W -> Outcome bool * W;
  (* prompt({type: 'select', ...}).action *)
  promptSelect : W -> Outcome jsstring * W;
  (* prompt({type: 'input', initial}).message *)
  promptInput : jsstring -> W -> Outcome jsstring * W;
}.
Arguments dryRun {W} e.
Arguments provider {W} e messages w.
Arguments fallbackProvider {W} e.
Arguments checkRunAll {W} e w.
Arguments checkRun {W} e checkNames w.
Arguments canProceed {W} e summary.
Arguments getStagedDiff {W} e w.
Arguments addAll {W} e w.
Arguments commit {W} e message w.
Arguments pushRemote {W} e w.
Arguments buildBracketedCommitPrompt {W} e diffContext.
Arguments promptConfirm {W} e message w.
Arguments promptSelect {W} e w.
Arguments promptInput {W} e initial w.

(** [error.code === 'ERR_USE_AFTER_CLOSE' || error.name === 'ExitPromptError'] *)
Definition isPromptExit (error : JsError) : bool :=
  bool_decide (errCode error = Some (lit "ERR_USE_AFTER_CLOSE"))
  || bool_decide (errName error = lit "ExitPromptError").

Definition maxAttempts : nat := 5.

Definition maxRetriesWarning : Event :=
  Said UI LWarn (lit "Maximum retry attempts reached").

Definition truthy (s : jsstring) : bool :=
  match s with [] => false | _ :: _ => true end.

(** The message of the combined error. *)
Definition bothFailedMessage (primary fallback : JsError) : jsstring :=
  lit "Both primary and fallback providers failed. Primary: "
  ++ errMessage primary ++ lit ", Fallback: " ++ errMessage fallback.

(** The instruction appended on a retry. *)
Definition variationInstruction (previousMessages : list jsstring) : LLMMessage :=
  mkMessage RUser
    (lit "Previous attempt(s) generated: " ++ join (lit ", ") previousMessages
     ++ lit ". Please generate a DIFFERENT commit message with alternative wording or perspective.").

Section Runner.

Context {W : Type}.
Variable env : Env W.

Definition generateTextWithFallback (messages : list LLMMessage)
  : M W Event jsstring :=
  tryCatch
    (emit (Generated false messages) ;;; call (provider env messages))
    (fun error =>
       match fallbackProvider env with
       | Some fallback =>
           emit (Said Logger LWarn (lit "Primary provider failed: " ++ errMessage error)) ;;;
           emit (Said Logger LInfo (lit "Attempting to use fallback model...")) ;;;
           tryCatch
             (emit (Generated true messages) ;;;
              result <- call (fallback messages) ;;
              emit (Said Logger LSuccess (lit "Fallback model succeeded")) ;;;
              ret result)
             (fun fallbackError =>
                throw (newError (bothFailedMessage error fallbackError)))
       | None => throw error
       end).

Definition noStagedChanges (diffContext : DiffCollector.DiffContext) : bool :=
  negb (truthy (DiffCollector.diff diffContext))
  || (DiffCollector.filesChanged diffContext =? 0).

(** [stageAll]: [addAll] is called without [await], so nothing in the
    [try] block throws and the [catch] clause is never entered. *)
Definition stageAll : M W Event bool :=
  effect (addAll env) ;;; ret true.

(** [stagePrompt]: leaving the prompt is rethrown, any other error is the
    failure signal. *)
Definition stagePrompt : M W Event bool :=
  tryCatch
    (stage <- call (promptConfirm env (lit "Stage all changes?")) ;;
     if stage then stageAll
     else emit (Said UI LInfo (lit "Proceeding with currently staged files")) ;;;
          ret true)
    (fun error => if isPromptExit error then throw error else ret false).

(** [runAllChecks] and [runSpecificCheck]: the verdict of the check
    runner is the signal of the step. *)
Definition runAllChecks : M W Event bool :=
  summary <- call (checkRunAll env) ;;
  ret (canProceed env summary).

Definition runSpecificCheck (checkName : jsstring) : M W Event bool :=
  summary <- call (checkRun env [checkName]) ;;
  ret (canProceed env summary).

(** [commitAuto]: generate once and commit. *)
Definition commitAuto : M W Event bool :=
  tryCatch
    (diffContext <- call (getStagedDiff env) ;;
     if noStagedChanges diffContext
     then emit (Said UI LError (lit "No staged changes to commit")) ;;; ret false
     else
       let messages := buildBracketedCommitPrompt env diffContext in
       response <- generateTextWithFallback messages ;;
       let commitMessage := ResponseValidator.parseCommitMessage response in
       effect (commit env commitMessage) ;;;
       emit (Committed commitMessage) ;;;
       emit (Said UI LSuccess (lit "Committed successfully")) ;;;
       ret true)
    (fun error =>
       emit (Said UI LError (lit "Commit failed: " ++ errMessage error)) ;;;
       ret false).

(** [commitReview]: generate once, commit when the user accepts. *)
Definition commitReview : M W Event bool :=
  tryCatch
    (diffContext <- call (getStagedDiff env) ;;
     if noStagedChanges diffContext
     then emit (Said UI LError (lit "No staged changes to commit")) ;;; ret false
     else
       let messages := buildBracketedCommitPrompt env diffContext in
       response <- generateTextWithFallback messages ;;
       let commitMessage := ResponseValidator.parseCommitMessage response in
       accept <- call (promptConfirm env (lit "Accept this commit message?")) ;;
       if negb accept
       then emit (Said UI LInfo (lit "Commit cancelled")) ;;; ret false
       else
         effect (commit env commitMessage) ;;;
         emit (Committed commitMessage) ;;;
         emit (Said UI LSuccess (lit "Committed successfully")) ;;;
         ret true)
    (fun error =>
       emit (Said UI LError (lit "Commit failed: " ++ errMessage error)) ;;;
       ret false).

(** [push]: success whatever the remote printed, failure when the push
    throws. *)
Definition push : M W Event bool :=
  tryCatch
    (_ <- call (pushRemote env) ;; ret true)
    (fun error => emit (Said UI LError (errMessage error)) ;;; ret false).

(** [pushPrompt]: a skipped push and an error other than leaving the
    prompt do not fail the workflow. *)
Definition pushPrompt : M W Event bool :=
  tryCatch
    (answer <- call (promptConfirm env (lit "Push to remote?")) ;;
     if answer then push
     else emit (Said UI LInfo (lit "Push skipped")) ;;; ret true)
    (fun error => if isPromptExit error then throw error else ret true).

(** The [while (attempts < maxAttempts)] loop of [commitInteractive]:
    [budget] is [maxAttempts - attempts], the number of turns left. *)
Fixpoint retryLoop (diffContext : DiffCollector.DiffContext) (budget : nat)
    (attempts : nat) (previousMessages : list jsstring) : M W Event bool :=
  match budget with
  | 0 =>
      emit maxRetriesWarning ;;; ret false
  | S budget =>
      let attempts := attempts + 1 in
      let messages := buildBracketedCommitPrompt env diffContext in
      let messages :=
        if (1 <? attempts) && (0 <? length previousMessages)
        then messages ++ [variationInstruction previousMessages]
        else messages in
      response <- generateTextWithFallback messages ;;
      let commitMessage := ResponseValidator.parseCommitMessage response in
      answer <- call (promptSelect env) ;;
      if bool_decide (answer = lit "accept") then
        effect (commit env commitMessage) ;;;
        emit (Committed commitMessage) ;;;
        emit (Said UI LSuccess (lit "Committed successfully")) ;;;
        ret true
      else if bool_decide (answer = lit "edit") then
        commitMessage <- call (promptInput env commitMessage) ;;
        effect (commit env commitMessage) ;;;
        emit (Committed commitMessage) ;;;
        emit (Said UI LSuccess (lit "Committed successfully")) ;;;
        ret true
      else if bool_decide (answer = lit "cancel") then
        emit (Said UI LInfo (lit "Commit cancelled")) ;;;
        ret false
      else if bool_decide (answer = lit "retry") then
        retryLoop diffContext budget attempts (previousMessages ++ [commitMessage])
      else
        retryLoop diffContext budget attempts previousMessages
  end.

(** [commitInteractive]: accept, retry, edit or cancel, at most
    [maxAttempts] times. *)
Definition commitInteractive : M W Event bool :=
  tryCatch
    (diffContext <- call (getStagedDiff env) ;;
     if noStagedChanges diffContext
     then emit (Said UI LError (lit "No staged changes to commit")) ;;; ret false
     else retryLoop diffContext (maxAttempts - 0) 0 [])
    (fun error =>
       emit (Said UI LError (lit "Commit failed: " ++ errMessage error)) ;;;
       ret false).

(** [createPR]: not implemented, and not a failure. *)
Definition createPR : M W Event bool :=
  emit (Said UI LWarn (lit "create-pr step is not yet implemented")) ;;;
  emit (Said UI LInfo (lit "You can manually create a PR using: gh pr create")) ;;;
  ret true.

(** [executeStep]: a dry run executes nothing; otherwise the [switch]
    over the step name. *)
Definition executeStep (step : WorkflowStep) (config : WorkflowConfig)
  : M W Event bool :=
  if dryRun env then
    emit (Said Logger LInfo (lit "[DRY RUN] Would execute: " ++ step)) ;;; ret true
  else if bool_decide (step = lit "stage:all") then stageAll
  else if bool_decide (step = lit "stage:prompt") then stagePrompt
  else if bool_decide (step = lit "check:all") then runAllChecks
  else if bool_decide (step = lit "check:build") then runSpecificCheck (lit "build")
  else if bool_decide (step = lit "check:lint") then runSpecificCheck (lit "lint")
  else if bool_decide (step = lit "check:test") then runSpecificCheck (lit "test")
  else if bool_decide (step = lit "check:typecheck") then runSpecificCheck (lit "typecheck")
  else if bool_decide (step = lit "commit:auto") then commitAuto
  else if bool_decide (step = lit "commit:review") then commitReview
  else if bool_decide (step = lit "commit:interactive") then commitInteractive
  else if bool_decide (step = lit "push") then push
  else if bool_decide (step = lit "push:prompt") then pushPrompt
  else if bool_decide (step = lit "create-pr") then createPR
  else emit (Said Logger LWarn (lit "Unknown step: " ++ step)) ;;; ret false.

(** The [for] loop of [executeWorkflow] inside its [try] block.  A step
    that throws ends the loop in the [catch] clause, which reads
    [stepsCompleted] as it stands at that moment; the clause returns, so no
    exception leaves the turn in which it was thrown. *)
Fixpoint stepLoop (config : WorkflowConfig) (remaining : list WorkflowStep)
    (stepsCompleted totalSteps : nat) : M W Event WorkflowResult :=
  match remaining with
  | [] => ret (mkResult true stepsCompleted totalSteps None None)
  | step :: remaining =>
      tryCatch
        (success <- executeStep step config ;;
         if negb success then
           ret (mkResult false stepsCompleted totalSteps (Some step)
                  (Some (lit "Step failed: " ++ step)))
         else stepLoop config remaining (stepsCompleted + 1) totalSteps)
        (fun error =>
           emit (Said UI LError (lit "Workflow failed: " ++ errMessage error)) ;;;
           ret (mkResult false stepsCompleted totalSteps None
                  (Some (errMessage error))))
  end.

Definition executeWorkflow (config : WorkflowConfig) : M W Event WorkflowResult :=
  let stepsCompleted := 0 in
  let totalSteps := length (steps config) in
  stepLoop config (steps config) stepsCompleted totalSteps.

End Runner.

(** The calls of [generateText] on the primary provider: one per
    generation attempt. *)
Definition isAttempt (e : Event) : bool :=
  match e with Generated false _ => true | _ => false end.

Definition generationAttempts (evs : list Event) : nat :=
  length (List.filter isAttempt evs).

Definition commits (evs : list Event) : list jsstring :=
  omap (fun e => match e with Committed m => Some m | _ => None end) evs.

(** *** [generateTextWithFallback] *)

Lemma startsWith_app (p rest : jsstring) : startsWith p (p ++ rest) = true.
Proof.
  unfold startsWith. induction p as [|a p IH]; [done|].
  simpl. by rewrite N.eqb_refl.
Qed.

(** A text includes each of its substrings. *)
Lemma includes_middle (needle before after : jsstring) :
  includes needle (before ++ needle ++ after) = true.
Proof.
  induction before as [|c before IH].
  - cbn [app]. pose proof (startsWith_app needle after) as H.
    destruct (needle ++ after); cbn [includes]; by rewrite H.
  - cbn [app includes]. rewrite IH. apply orb_true_r.
Qed.

Lemma bothFailedMessage_names_both (primary fallback : JsError) :
  includes (errMessage primary) (bothFailedMessage primary fallback) = true
  /\ includes (errMessage fallback) (bothFailedMessage primary fallback) = true.
Proof.
  unfold bothFailedMessage. split.
  - apply includes_middle.
  - rewrite <- (app_nil_r (errMessage fallback)) at 2.
    rewrite !app_assoc, <- app_assoc. apply includes_middle.
Qed.

Section RunnerFacts.

Context {W : Type}.
Variable env : Env W.

(** The events of a fallback round, after the call of the primary
    provider. *)
Definition fallbackEvents (error : JsError) (messages : list LLMMessage)
  : list Event :=
  [Said Logger LWarn (lit "Primary provider failed: " ++ errMessage error);
   Said Logger LInfo (lit "Attempting to use fallback model...");
   Generated true messages].

(** C7: the generate-text operation calls the primary provider first.  When
    that call succeeds its text is the result and the fallback is not
    called.  When it throws and a fallback provider is configured, the
    fallback is called with the same messages: its text is the result when
    it succeeds (and the success is logged), and when it throws too, one
    new error is thrown whose message names both failures.  When no
    fallback is configured the error of the primary provider is rethrown
    as it is. *)
Theorem generateTextWithFallback_policy (messages : list LLMMessage)
    (st : State W Event) :
  let run := generateTextWithFallback env messages st in
  let called := events st ++ [Generated false messages] in
  match provider env messages (world st) with
  | (Ok text, w1) => run = (Ok text, mkState w1 called)
  | (Throw error, w1) =>
      match fallbackProvider env with
      | None => run = (Throw error, mkState w1 called)
      | Some fallback =>
          match fallback messages w1 with
          | (Ok text, w2) =>
              run = (Ok text,
                     mkState w2 (called ++ fallbackEvents error messages
                                 ++ [Said Logger LSuccess (lit "Fallback model succeeded")]))
          | (Throw fallbackError, w2) =>
              run = (Throw (newError (bothFailedMessage error fallbackError)),
                     mkState w2 (called ++ fallbackEvents error messages))
              /\ includes (errMessage error)
                          (bothFailedMessage error fallbackError) = true
              /\ includes (errMessage fallbackError)
                          (bothFailedMessage error fallbackError) = true
          end
      end
  end.
Proof.
  intros run called. subst run called.
  unfold generateTextWithFallback, tryCatch, bind, emit, call, throw, ret.
  cbn [world events].
  destruct (provider env messages (world st)) as [[text|error] w1]; [done|].
  destruct (fallbackProvider env) as [fallback|]; [|done].
  cbn [world events].
  destruct (fallback messages w1) as [[text|fallbackError] w2]; cbn [world events].
  - by rewrite <- !app_assoc.
  - split; [by rewrite <- !app_assoc | apply bothFailedMessage_names_both].
Qed.

(** *** [executeWorkflow] *)

(** The steps of [done] run one after the other from [st] to [st'] and
    each returns the success signal. *)
Inductive allSucceed (config : WorkflowConfig)
  : list WorkflowStep -> State W Event -> State W Event -> Prop :=
  | allSucceed_nil (st : State W Event) : allSucceed config [] st st
  | allSucceed_cons (step : WorkflowStep) (done : list WorkflowStep)
      (st st1 st2 : State W Event) :
      executeStep env step config st = (Ok true, st1) ->
      allSucceed config done st1 st2 ->
      allSucceed config (step :: done) st st2.

(** How a workflow ends after the steps [done] have succeeded and [rest]
    is what remains, in the state [st1] reached. *)
Definition ending (config : WorkflowConfig) (rest : list WorkflowStep)
    (st1 : State W Event) (result : WorkflowResult) (st' : State W Event) : Prop :=
  match rest with
  | [] =>
      success result = true /\ failedStep result = None
      /\ error result = None /\ st' = st1
  | step :: _ =>
      success result = false
      /\ ((* the step returned the failure signal *)
          (executeStep env step config st1 = (Ok false, st')
           /\ failedStep result = Some step
           /\ error result = Some (lit "Step failed: " ++ step))
          \/
          (* the step threw *)
          (exists e st2,
              executeStep env step config st1 = (Throw e, st2)
              /\ failedStep result = None
              /\ error result = Some (errMessage e)
              /\ st' = mkState (world st2)
                         (events st2
                          ++ [Said UI LError (lit "Workflow failed: " ++ errMessage e)])))
  end.

Lemma stepLoop_spec (config : WorkflowConfig) (remaining : list WorkflowStep) :
  forall (completed total : nat) (st : State W Event),
  exists result st' done rest st1,
    stepLoop env config remaining completed total st = (Ok result, st')
    /\ remaining = done ++ rest
    /\ allSucceed config done st st1
    /\ totalSteps result = total
    /\ stepsCompleted result = completed + length done
    /\ ending config rest st1 result st'.
Proof.
  induction remaining as [|step remaining IH]; intros completed total st.
  - exists (mkResult true completed total None None), st, [], [], st.
    cbn. repeat split; [constructor | lia].
  - cbn [stepLoop]. unfold tryCatch, bind at 1.
    destruct (executeStep env step config st) as [[[|]|e] st1] eqn:Hstep.
    + (* success: the loop goes on *)
      cbn [negb].
      destruct (IH (completed + 1) total st1)
        as (result & st' & done & rest & st2 & Hloop & -> & Hdone & Htot & Hcnt & Hend).
      rewrite Hloop.
      exists result, st', (step :: done), rest, st2.
      repeat split; try done.
      * by econstructor.
      * rewrite Hcnt. cbn [length]. lia.
    + (* failure signal *)
      cbn [negb]. unfold ret.
      eexists _, st1, [], (step :: remaining), st.
      repeat split; [constructor | cbn; lia |].
      by left.
    + (* exception *)
      unfold bind, emit, ret. cbn [world events].
      eexists _, _, [], (step :: remaining), st.
      repeat split; [constructor | cbn; lia |].
      right. by exists e, st1.
Qed.

(** C1: [executeWorkflow] always returns a result.  The step list splits
    into the steps that ran and returned the success signal and the rest;
    [stepsCompleted] is the number of the former and never exceeds
    [totalSteps], the length of the step list.  With nothing left the result
    is a success without [failedStep].  Otherwise the first step left
    either returned the failure signal, and then [success] is false and
    [failedStep] is that step, or threw, and then [success] is false,
    [failedStep] is not set and [error] is the message of the exception. *)
Theorem executeWorkflow_result (config : WorkflowConfig) (st : State W Event) :
  exists result st' done rest st1,
    executeWorkflow env config st = (Ok result, st')
    /\ steps config = done ++ rest
    /\ allSucceed config done st st1
    /\ totalSteps result = length (steps config)
    /\ stepsCompleted result = length done
    /\ stepsCompleted result <= totalSteps result
    /\ ending config rest st1 result st'.
Proof.
  destruct (stepLoop_spec config (steps config) 0 (length (steps config)) st)
    as (result & st' & done & rest & st1 & Hrun & Hsplit & Hdone & Htot & Hcnt & Hend).
  exists result, st', done, rest, st1.
  repeat split; try done.
  rewrite Hcnt, Htot, Hsplit, length_app. lia.
Qed.

(** *** [commitInteractive] *)

(** An event that is neither a generation attempt nor the warning of the
    exhausted loop. *)
Definition calm (e : Event) : Prop :=
  isAttempt e = false /\ e <> maxRetriesWarning.

Lemma calm_attempts (evs : list Event) :
  Forall calm evs -> generationAttempts evs = 0 /\ maxRetriesWarning ∉ evs.
Proof.
  unfold generationAttempts.
  induction 1 as [|e evs [He Hne] Hevs [IH1 IH2]].
  - split; [done | apply not_elem_of_nil].
  - cbn [List.filter]. rewrite He. split; [exact IH1|].
    apply not_elem_of_cons. by split.
Qed.

Lemma generationAttempts_app (evs1 evs2 : list Event) :
  generationAttempts (evs1 ++ evs2)
  = generationAttempts evs1 + generationAttempts evs2.
Proof. unfold generationAttempts. by rewrite List.filter_app, length_app. Qed.

(** One call of [generateTextWithFallback] is one generation attempt. *)
Lemma generateTextWithFallback_one_attempt (messages : list LLMMessage)
    (st : State W Event) :
  exists r w' tail,
    generateTextWithFallback env messages st
    = (r, mkState w' (events st ++ Generated false messages :: tail))
    /\ Forall calm tail.
Proof.
  unfold generateTextWithFallback, tryCatch, bind, emit, call, throw, ret.
  cbn [world events].
  destruct (provider env messages (world st)) as [[text|error] w1].
  { by eexists _, _, []. }
  destruct (fallbackProvider env) as [fallback|]; [|by eexists _, _, []].
  cbn [world events].
  destruct (fallback messages w1) as [[text|fallbackError] w2]; cbn [world events];
    rewrite <- !app_assoc; eexists _, _, _; (split; [reflexivity|]);
    repeat constructor; discriminate.
Qed.

(** When the primary provider answers, nothing else happens. *)
Lemma generateTextWithFallback_primary (messages : list LLMMessage)
    (st : State W Event) (text : jsstring) (w1 : W) :
  provider env messages (world st) = (Ok text, w1) ->
  generateTextWithFallback env messages st
  = (Ok text, mkState w1 (events st ++ [Generated false messages])).
Proof.
  intros H.
  unfold generateTextWithFallback, tryCatch, bind, emit, call.
  cbn [world events]. by rewrite H.
Qed.

(** The loop makes at most [budget] attempts, and the warning of the
    exhausted loop appears only after exactly [budget] attempts, with the
    failure signal. *)
Lemma retryLoop_bound (diffContext : DiffCollector.DiffContext) (budget : nat) :
  forall (attempts : nat) (previousMessages : list jsstring) (st : State W Event),
  exists r w' newEv,
    retryLoop env diffContext budget attempts previousMessages st
    = (r, mkState w' (events st ++ newEv))
    /\ generationAttempts newEv <= budget
    /\ (maxRetriesWarning ∈ newEv ->
        generationAttempts newEv = budget /\ r = Ok false).
Proof.
  induction budget as [|budget IH]; intros attempts previousMessages st.
  - exists (Ok false), (world st), [maxRetriesWarning].
    repeat split. cbn. lia.
  - cbn [retryLoop].
    set (messages := if (1 <? attempts + 1) && (0 <? length previousMessages)
                     then _ else _).
    destruct (generateTextWithFallback_one_attempt messages st)
      as (r1 & w1 & tail & Hgen & Htail).
    pose proof (calm_attempts tail Htail) as [Htail0 Htailw].
    (* what every way out of this turn without a further turn satisfies *)
    assert (forall (r : Outcome bool) (w : W) (more : list Event),
              Forall calm more ->
              exists r' w' newEv,
                (r, mkState w ((events st ++ Generated false messages :: tail) ++ more))
                = (r', mkState w' (events st ++ newEv))
                /\ generationAttempts newEv <= S budget
                /\ (maxRetriesWarning ∈ newEv ->
                    generationAttempts newEv = S budget /\ r' = Ok false)) as Hout.
    { intros r w more Hmore.
      pose proof (calm_attempts more Hmore) as [Hmore0 Hmorew].
      exists r, w, (Generated false messages :: tail ++ more).
      split; [by rewrite <- app_assoc|].
      change (Generated false messages :: tail ++ more)
        with ([Generated false messages] ++ tail ++ more).
      rewrite !generationAttempts_app, Htail0, Hmore0.
      split; [cbn; lia|].
      intros [Hin|[Hin|Hin]%elem_of_app]%elem_of_app; [|done|done].
      apply list_elem_of_singleton in Hin. discriminate. }
    (* what a further turn satisfies *)
    assert (forall (w : W) (previous : list jsstring),
              exists r' w' newEv,
                retryLoop env diffContext budget (attempts + 1) previous
                  (mkState w (events st ++ Generated false messages :: tail))
                = (r', mkState w' (events st ++ newEv))
                /\ generationAttempts newEv <= S budget
                /\ (maxRetriesWarning ∈ newEv ->
                    generationAttempts newEv = S budget /\ r' = Ok false)) as Hnext.
    { intros w previous.
      destruct (IH (attempts + 1) previous
                  (mkState w (events st ++ Generated false messages :: tail)))
        as (r' & w' & newEv & Hloop & Hle & Hwarn).
      exists r', w', (Generated false messages :: tail ++ newEv).
      cbn [events] in Hloop. rewrite Hloop.
      split; [by rewrite <- app_assoc|].
      change (Generated false messages :: tail ++ newEv)
        with ([Generated false messages] ++ tail ++ newEv).
      rewrite !generationAttempts_app, Htail0.
      split; [cbn; lia|].
      intros [Hin|[Hin|Hin]%elem_of_app]%elem_of_app.
      - apply list_elem_of_singleton in Hin. discriminate.
      - done.
      - destruct (Hwarn Hin) as [-> ->]. split; [cbn; lia | done]. }
    unfold bind at 1. rewrite Hgen.
    destruct r1 as [response|e].
    2: { rewrite <- (app_nil_r (events st ++ _)). apply Hout. constructor. }
    unfold bind at 1, call at 1. cbn [world events].
    destruct (promptSelect env w1) as [[answer|e] w2].
    2: { rewrite <- (app_nil_r (events st ++ _)). apply Hout. constructor. }
    repeat case_bool_decide.
    + (* accept *)
      unfold bind, effect, emit, ret. cbn [world events].
      rewrite <- app_assoc. apply Hout. repeat constructor; discriminate.
    + (* edit *)
      unfold bind at 1, call at 1. cbn [world events].
      destruct (promptInput env _ w2) as [[edited|e] w3].
      * unfold bind, effect, emit, ret. cbn [world events].
        rewrite <- app_assoc. apply Hout. repeat constructor; discriminate.
      * rewrite <- (app_nil_r (events st ++ _)). apply Hout. constructor.
    + (* cancel *)
      unfold bind, emit, ret. cbn [world events].
      apply Hout. repeat constructor; discriminate.
    + (* retry *)
      apply Hnext.
    + (* any other answer *)
      apply Hnext.
Qed.

(** A generation records its attempt and then nothing that is an attempt,
    the warning of the exhausted loop or a commit. *)
Lemma generateTextWithFallback_quiet (messages : list LLMMessage)
    (st : State W Event) :
  exists r w' tail,
    generateTextWithFallback env messages st
    = (r, mkState w' (events st ++ Generated false messages :: tail))
    /\ Forall calm tail /\ commits tail = [].
Proof.
  unfold generateTextWithFallback, tryCatch, bind, emit, call, throw, ret.
  cbn [world events].
  destruct (provider env messages (world st)) as [[text|error] w1].
  { by eexists _, _, []. }
  destruct (fallbackProvider env) as [fallback|]; [|by eexists _, _, []].
  cbn [world events].
  destruct (fallback messages w1) as [[text|fallbackError] w2]; cbn [world events];
    rewrite <- !app_assoc; eexists _, _, _; (split; [reflexivity|]);
    (split; [repeat constructor; discriminate|reflexivity]).
Qed.

(** The user answers [retry] to every prompt, every generation succeeds (on
    the primary provider, or on the fallback provider after the primary one
    has failed) and there are staged changes. *)
Definition retryScenario : Prop :=
  (forall w, exists diffContext w',
      getStagedDiff env w = (Ok diffContext, w')
      /\ truthy (DiffCollector.diff diffContext) = true
      /\ DiffCollector.filesChanged diffContext <> 0)
  /\ (forall messages st, exists text st',
        generateTextWithFallback env messages st = (Ok text, st'))
  /\ (forall w, exists w', promptSelect env w = (Ok (lit "retry"), w')).

Lemma retryLoop_exhausted (diffContext : DiffCollector.DiffContext) (budget : nat) :
  retryScenario ->
  forall (attempts : nat) (previousMessages : list jsstring) (st : State W Event),
  exists w' newEv,
    retryLoop env diffContext budget attempts previousMessages st
    = (Ok false, mkState w' (events st ++ newEv))
    /\ generationAttempts newEv = budget
    /\ last newEv = Some maxRetriesWarning
    /\ commits newEv = [].
Proof.
  intros (_ & Hgen & Hretry).
  induction budget as [|budget IH]; intros attempts previousMessages st.
  - by exists (world st), [maxRetriesWarning].
  - cbn [retryLoop].
    set (messages := if (1 <? attempts + 1) && (0 <? length previousMessages)
                     then _ else _).
    destruct (generateTextWithFallback_quiet messages st)
      as (r1 & w1 & tail & Hrun & Hcalm & Hquiet).
    destruct (Hgen messages st) as (text & st1 & Hok).
    rewrite Hrun in Hok. injection Hok as -> _.
    pose proof (calm_attempts tail Hcalm) as [Htail0 _].
    unfold bind at 1. rewrite Hrun.
    unfold bind at 1, call at 1. cbn [world events].
    destruct (Hretry w1) as (w2 & ->).
    repeat (case_bool_decide; [discriminate|]).
    case_bool_decide; [|done].
    destruct (IH (attempts + 1)
                (previousMessages ++ [ResponseValidator.parseCommitMessage text])
                (mkState w2 (events st ++ Generated false messages :: tail)))
      as (w' & newEv & Hloop & Hcount & Hlast & Hcommits).
    rewrite Hloop. cbn [events].
    exists w', (Generated false messages :: tail ++ newEv).
    split; [by rewrite <- app_assoc|].
    change (Generated false messages :: tail ++ newEv)
      with ([Generated false messages] ++ tail ++ newEv).
    split; [rewrite !generationAttempts_app, Htail0, Hcount; reflexivity|].
    split.
    + by rewrite !last_app, Hlast.
    + unfold commits in *. by rewrite !omap_app, Hquiet, Hcommits.
Qed.

(** C6: one run of the interactive commit step makes at most 5
    generation attempts and always returns.  The warning
    [Maximum retry attempts reached] is recorded only after exactly 5
    attempts, together with the failure signal.  When the user answers
    [retry] to every prompt (and every generation succeeds, be it on the
    primary or on the fallback provider), the step makes exactly 5
    attempts, never a sixth, commits nothing, ends with that warning and
    reports failure. *)
Theorem commitInteractive_at_most_five_attempts (st : State W Event) :
  exists b w' newEv,
    commitInteractive env st = (Ok b, mkState w' (events st ++ newEv))
    /\ generationAttempts newEv <= 5
    /\ (maxRetriesWarning ∈ newEv -> generationAttempts newEv = 5 /\ b = false)
    /\ (retryScenario ->
        b = false /\ generationAttempts newEv = 5
        /\ last newEv = Some maxRetriesWarning /\ commits newEv = []).
Proof.
  unfold commitInteractive, tryCatch, bind at 1, call at 1.
  destruct (getStagedDiff env (world st)) as [[diffContext|e] w1] eqn:Hdiff.
  2: { (* getStagedDiff throws *)
       unfold bind, emit, ret. cbn [world events]. eexists _, _, [_].
       split; [reflexivity|]. split; [cbn; lia|]. split.
       - intros Hin%list_elem_of_singleton. discriminate.
       - intros (Hstaged & _). destruct (Hstaged (world st)) as (? & ? & H & _).
         congruence. }
  unfold noStagedChanges.
  destruct (negb (truthy (DiffCollector.diff diffContext))
            || (DiffCollector.filesChanged diffContext =? 0)) eqn:Hnone.
  { (* nothing is staged *)
    unfold bind, emit, ret. cbn [world events]. eexists _, _, [_].
    split; [reflexivity|]. split; [cbn; lia|]. split.
    - intros Hin%list_elem_of_singleton. discriminate.
    - intros (Hstaged & _).
      destruct (Hstaged (world st)) as (ctx & w & H & Htruthy & Hfiles).
      rewrite Hdiff in H. injection H as <- <-.
      apply orb_true_iff in Hnone as [Hn|Hn].
      + by rewrite Htruthy in Hn.
      + by apply Nat.eqb_eq in Hn. }
  change (maxAttempts - 0) with 5.
  destruct (retryLoop_bound diffContext 5 0 [] (mkState w1 (events st)))
    as (r & w' & newEv & Hloop & Hle & Hwarn).
  cbn [events] in Hloop. rewrite Hloop.
  destruct r as [b|e].
  - exists b, w', newEv. split; [reflexivity|]. split; [exact Hle|].
    split.
    + intros Hin. destruct (Hwarn Hin) as [? [= ->]]. by split.
    + intros Hsc.
      destruct (retryLoop_exhausted diffContext 5 Hsc 0 [] (mkState w1 (events st)))
        as (w'' & newEv' & Hloop' & Hcount & Hlast & Hcommits).
      cbn [events] in Hloop'. rewrite Hloop in Hloop'.
      injection Hloop' as -> _ ->%app_inv_head. by repeat split.
  - unfold bind, emit, ret. cbn [world events]. rewrite <- app_assoc.
    eexists _, _, _. split; [reflexivity|].
    rewrite generationAttempts_app. cbn [generationAttempts List.filter isAttempt length].
    split; [lia|]. split.
    + intros [Hin|Hin%list_elem_of_singleton]%elem_of_app; [|discriminate].
      by destruct (Hwarn Hin) as [_ ?].
    + intros Hsc.
      destruct (retryLoop_exhausted diffContext 5 Hsc 0 [] (mkState w1 (events st)))
        as (w'' & newEv' & Hloop' & _).
      cbn [events] in Hloop'. rewrite Hloop in Hloop'. discriminate.
Qed.

End RunnerFacts.

(** *** Runs on a small environment *)

(** The world counts the calls of the model; the model answers, the user
    always chooses [answer], the confirmation prompts end as [confirm]
    says, every check passes and the push ends as [pushed] says. *)
Definition sampleEnv (answer : jsstring) (confirm : Outcome bool)
    (pushed : Outcome jsstring) : Env nat :=
  {| dryRun := false;
     provider := fun _ n => (Ok (lit "[feature] add login"), S n);
     fallbackProvider := None;
     checkRunAll := fun n => (Ok (CheckRunner.summarizeResults [] 0), n);
     checkRun := fun _ n => (Ok (CheckRunner.summarizeResults [] 0), n);
     canProceed := fun _ => true;
     getStagedDiff := fun n =>
       (Ok (DiffCollector.mkDiffContext (lit "diff --git a/x b/x") 1 false), n);
     addAll := fun n => n;
     commit := fun _ n => n;
     pushRemote := fun n => (pushed, n);
     buildBracketedCommitPrompt := fun _ =>
       [mkMessage RSystem (lit "system"); mkMessage RUser (lit "user")];
     promptConfirm := fun _ n => (confirm, n);
     promptSelect := fun n => (Ok answer, n);
     promptInput := fun initial n => (Ok initial, n) |}.

Definition start : State nat Event := mkState 0 [].

Example commitInteractive_five_retries :
  match commitInteractive (sampleEnv (lit "retry") (Ok true) (Ok [])) start with
  | (r, st) =>
      r = Ok false /\ world st = 5
      /\ generationAttempts (events st) = 5
      /\ List.map (fun e => match e with
                            | Generated _ messages => length messages
                            | _ => 0
                            end) (events st) = [2; 3; 3; 3; 3; 0]
      /\ last (events st) = Some maxRetriesWarning
  end.
Proof. vm_compute. repeat split. Qed.

Example commitInteractive_accept :
  match commitInteractive (sampleEnv (lit "accept") (Ok true) (Ok [])) start with
  | (r, st) =>
      r = Ok true /\ generationAttempts (events st) = 1
      /\ commits (events st) = [lit "[feature] add login"]
  end.
Proof. vm_compute. repeat split. Qed.

(** The primary provider fails at every call and the fallback provider
    answers; the other collaborators are those of [sampleEnv]. *)
Definition fallbackEnv (answer : jsstring) : Env nat :=
  let live := sampleEnv answer (Ok true) (Ok []) in
  {| dryRun := false;
     provider := fun _ n => (Throw (newError (lit "timeout")), S n);
     fallbackProvider := Some (fun _ n => (Ok (lit "[fix] repair login"), S n));
     checkRunAll := checkRunAll live;
     checkRun := checkRun live;
     canProceed := canProceed live;
     getStagedDiff := getStagedDiff live;
     addAll := addAll live;
     commit := commit live;
     pushRemote := pushRemote live;
     buildBracketedCommitPrompt := buildBracketedCommitPrompt live;
     promptConfirm := promptConfirm live;
     promptSelect := promptSelect live;
     promptInput := promptInput live |}.

(** Five retries answered by the fallback provider: ten calls of a model,
    five attempts. *)
Example commitInteractive_five_retries_on_fallback :
  match commitInteractive (fallbackEnv (lit "retry")) start with
  | (r, st) =>
      r = Ok false /\ world st = 10
      /\ generationAttempts (events st) = 5
      /\ commits (events st) = []
      /\ last (events st) = Some maxRetriesWarning
  end.
Proof. vm_compute. repeat split. Qed.

Lemma commitInteractive_at_most_five_attempts_witness :
  retryScenario (fallbackEnv (lit "retry"))
  /\ exists b w' newEv,
       commitInteractive (fallbackEnv (lit "retry")) start
       = (Ok b, mkState w' (events start ++ newEv))
       /\ b = false /\ generationAttempts newEv = 5.
Proof.
  assert (retryScenario (fallbackEnv (lit "retry"))) as Hsc.
  { repeat split; intros; repeat eexists; simpl; congruence. }
  split; [exact Hsc|].
  destruct (commitInteractive_at_most_five_attempts
              (fallbackEnv (lit "retry")) start)
    as (b & w' & newEv & Hrun & _ & _ & Hexhaust).
  exists b, w', newEv. split; [exact Hrun|].
  destruct (Hexhaust Hsc) as (Hb & Hcount & _). by split.
Defined.

Example executeWorkflow_failure_signal :
  let config := mkConfig [lit "stage:all"; lit "deploy"; lit "push"] None false None in
  fst (executeWorkflow (sampleEnv (lit "accept") (Ok true) (Ok [])) config start)
  = Ok (mkResult false 1 3 (Some (lit "deploy")) (Some (lit "Step failed: deploy"))).
Proof. vm_compute. reflexivity. Qed.

Example executeWorkflow_push_rejected :
  let config := mkConfig [lit "commit:interactive"; lit "push"; lit "create-pr"] None false None in
  fst (executeWorkflow
         (sampleEnv (lit "accept") (Ok true) (Throw (newError (lit "rejected"))))
         config start)
  = Ok (mkResult false 1 3 (Some (lit "push")) (Some (lit "Step failed: push"))).
Proof. vm_compute. reflexivity. Qed.

(** The user leaves the confirmation prompt: [pushPrompt] rethrows and the
    workflow ends in its [catch] clause, without [failedStep]. *)
Example executeWorkflow_exception :
  let config := mkConfig [lit "stage:all"; lit "push:prompt"; lit "create-pr"] None false None in
  fst (executeWorkflow
         (sampleEnv (lit "accept")
            (Throw (mkError (lit "ExitPromptError") None (lit "cancelled")))
            (Ok []))
         config start)
  = Ok (mkResult false 1 3 None (Some (lit "cancelled"))).
Proof. vm_compute. reflexivity. Qed.

Example executeWorkflow_success :
  let config := mkConfig [lit "stage:all"; lit "commit:interactive"; lit "create-pr"] None false None in
  fst (executeWorkflow (sampleEnv (lit "accept") (Ok true) (Ok [])) config start)
  = Ok (mkResult true 3 3 None None).
Proof. vm_compute. reflexivity. Qed.

End WorkflowRunner.

(* ===================================================================== *)
(** * Further properties of the code *)
(* ===================================================================== *)

(* ===================================================================== *)
(** ** More facts about strings *)
(* ===================================================================== *)

Module JsFacts.

(** Splitting at a separator and joining with it gives the text back. *)
Lemma join_split (sep : N) (s : jsstring) : join [sep] (split sep s) = s.
Proof.
  induction s as [|c s IH]; [done|].
  cbn [split].
  destruct (N.eqb_spec c sep) as [->|Hne].
  - pose proof (split_nonempty sep s) as Hne.
    destruct (split sep s) as [|l ls] eqn:E; [done|].
    cbn [join]. cbn [join] in IH. by rewrite <- IH.
  - destruct (split sep s) as [|l ls] eqn:E.
    + by apply split_nonempty in E.
    + destruct ls as [|l2 ls]; cbn [join] in *; by rewrite <- IH.
Qed.

(** Joining pieces that are free of the separator and splitting again
    gives the pieces back. *)
Lemma split_join (sep : N) (pieces : list jsstring) :
  pieces <> [] -> Forall (fun p => sep ∉ p) pieces ->
  split sep (join [sep] pieces) = pieces.
Proof.
  intros Hne Hall. induction Hall as [|p pieces Hp Hall IH]; [done|].
  destruct pieces as [|q pieces].
  - cbn [join]. by apply split_no_sep_id.
  - change (join [sep] (p :: q :: pieces)) with (p ++ sep :: join [sep] (q :: pieces)).
    specialize (IH ltac:(done)). revert IH.
    generalize (join [sep] (q :: pieces)). intros rest IH.
    clear Hall Hne. induction p as [|c p IHp].
    + cbn [app split]. by rewrite N.eqb_refl, IH.
    + apply not_elem_of_cons in Hp as [Hc Hp].
      cbn [app split]. destruct (N.eqb_spec c sep) as [->|_]; [done|].
      by rewrite (IHp Hp).
Qed.

Lemma dropWhile_idem {A} (p : A -> bool) (l : list A) :
  dropWhile p (dropWhile p l) = dropWhile p l.
Proof.
  induction l as [|x l IH]; [done|].
  cbn [dropWhile]. destruct (p x) eqn:E; [exact IH|].
  cbn [dropWhile]. by rewrite E.
Qed.

(** What [dropWhile] returns starts with an element that fails the test. *)
Lemma dropWhile_head {A} (p : A -> bool) (l : list A) :
  match dropWhile p l with [] => True | x :: _ => p x = false end.
Proof.
  induction l as [|x l IH]; [done|].
  cbn [dropWhile]. destruct (p x) eqn:E; [exact IH|exact E].
Qed.

Lemma trimEnd_head (s : jsstring) :
  match s with [] => True | c :: _ => isWhiteSpace c = false end ->
  match trimEnd s with
  | [] => s = []
  | c :: _ => isWhiteSpace c = false
  end.
Proof.
  destruct s as [|c s]; [done|]. intros Hc. unfold trimEnd.
  cbn [rev]. 
  assert (forall (l : jsstring),
            exists t, rev (dropWhile isWhiteSpace (l ++ [c])) = c :: t) as H.
  { induction l as [|d l IH].
    - cbn. rewrite Hc. by exists [].
    - cbn [app dropWhile]. destruct (isWhiteSpace d); [exact IH|].
      exists (rev l ++ [d]). cbn [rev]. by rewrite rev_app_distr. }
  destruct (H (rev s)) as [t ->]. exact Hc.
Qed.

(** [trim] strips all there is to strip. *)
Lemma trim_idem (s : jsstring) : trim (trim s) = trim s.
Proof.
  unfold trim.
  pose proof (dropWhile_head isWhiteSpace s) as Hhead.
  fold (trimStart s) in Hhead.
  pose proof (trimEnd_head (trimStart s) Hhead) as Hend.
  assert (trimStart (trimEnd (trimStart s)) = trimEnd (trimStart s)) as ->.
  { unfold trimStart at 1. apply dropWhile_id.
    destruct (trimEnd (trimStart s)); [done|exact Hend]. }
  unfold trimEnd. by rewrite rev_involutive, dropWhile_idem.
Qed.

End JsFacts.

(* ===================================================================== *)
(** ** git/diffCollector.ts: filtering, truncation, ignore patterns and the
       commit command *)
(* ===================================================================== *)

Module DiffCollectorFacts.

Import DiffHeader DiffCollector JsFacts.

(** *** [commit]: the escaping of the message *)

Definition backslash : N := 92%N.
Definition dquote : N := 34%N.

(** [s.replace(/c/g, by)] for a pattern of one code unit. *)
Definition replaceAll (c : N) (by_ : jsstring) (s : jsstring) : jsstring :=
  flat_map (fun x => if (x =? c)%N then by_ else [x]) s.

(** [message.replace(/\\/g, '\\\\').replace(/"/g, '\\"').replace(/\n/g, '\\n')] *)
Definition escapeMessage (message : jsstring) : jsstring :=
  replaceAll LF [backslash; 110%N]
    (replaceAll dquote [backslash; dquote]
       (replaceAll backslash [backslash; backslash] message)).

(** The command line handed to [execSync]. *)
Definition commitCommand (message : jsstring) : jsstring :=
  lit "git commit -m " ++ [dquote] ++ escapeMessage message ++ [dquote].

(** Reading a text inside double quotes the way a shell does: a backslash
    takes the next code unit with it; [closesQuote] tells whether a double
    quote is met that no backslash protects. *)
Fixpoint closesQuote (escaped : bool) (s : jsstring) : bool :=
  match s with
  | [] => false
  | c :: s' =>
      if escaped then closesQuote false s'
      else if (c =? backslash)%N then closesQuote true s'
      else if (c =? dquote)%N then true
      else closesQuote false s'
  end.

(** *** Header lines as git prints them *)

(** [diff --git a/OLD b/NEW]: the header line of a file, [NEW] being its
    path after the change. *)
Definition headerOf (old new : jsstring) : jsstring :=
  lit "diff --git a/" ++ old ++ lit " b/" ++ new.

(** A header line in which the first [b/] is the one before [NEW], and whose
    path [NEW] is not empty and holds no line terminator. *)
Definition plainPaths (old new : jsstring) : Prop :=
  includes (lit "b/") old = false /\ new <> [] /\ noLineTerminator new = true.

Definition plainHeader (line : jsstring) : Prop :=
  exists old new, line = headerOf old new /\ plainPaths old new.

Lemma includes_cons (needle : jsstring) (c : N) (hay : jsstring) :
  includes needle (c :: hay) = startsWith needle (c :: hay) || includes needle hay.
Proof. reflexivity. Qed.

(** The search of [matchPath] passes a text without [b/]. *)
Lemma matchPath_after (pre new : jsstring) :
  includes (lit "b/") pre = false -> new <> [] -> noLineTerminator new = true ->
  matchPath (pre ++ lit "b/" ++ new) = Some new.
Proof.
  intros Hpre Hne Hlt. induction pre as [|c pre IH].
  - destruct new as [|d path]; [done|].
    change ([] ++ lit "b/" ++ d :: path) with (98%N :: 47%N :: d :: path).
    cbn [matchPath N.eqb Pos.eqb stripPrefix]. by rewrite Hlt.
  - rewrite includes_cons in Hpre. apply orb_false_iff in Hpre as [Hstart Hpre].
    specialize (IH Hpre). cbn [app matchPath].
    destruct (N.eqb_spec c 98) as [->|_]; [|exact IH].
    change (lit "b/") with [98%N; 47%N] in *.
    unfold startsWith in Hstart. cbn [stripPrefix] in Hstart.
    rewrite N.eqb_refl in Hstart.
    destruct pre as [|d pre]; [exact IH|].
    cbn [app stripPrefix] in *.
    destruct (47 =? d)%N; [discriminate Hstart|exact IH].
Qed.

Lemma includes_snoc_space (old : jsstring) :
  includes (lit "b/") old = false -> includes (lit "b/") (old ++ lit " ") = false.
Proof.
  induction old as [|c old IH]; [done|].
  rewrite includes_cons. intros [Hstart Hold]%orb_false_iff.
  cbn [app]. rewrite includes_cons, (IH Hold), orb_false_r.
  change (lit "b/") with [98%N; 47%N] in *. change (lit " ") with [32%N].
  unfold startsWith in *. cbn [stripPrefix] in *.
  destruct (98 =? c)%N; [|done].
  destruct old as [|d old]; [done|]. cbn [app stripPrefix] in *.
  by destruct (47 =? d)%N.
Qed.

(** On a plain header line [matchPath] finds the path of the file. *)
Lemma matchPath_headerOf (old new : jsstring) :
  plainPaths old new -> matchPath (headerOf old new) = Some new.
Proof.
  intros (Hold & Hne & Hlt). unfold headerOf.
  change (lit " b/" ++ new) with (lit " " ++ lit "b/" ++ new).
  rewrite !app_assoc, <- (app_assoc _ (lit "b/") new).
  apply matchPath_after; [|done..].
  rewrite <- app_assoc. apply includes_snoc_space in Hold.
  cbn. exact Hold.
Qed.

Lemma isHeader_headerOf (old new : jsstring) : isHeader (headerOf old new) = true.
Proof. reflexivity. Qed.

(** Where [OLD] holds [b/], the text that [matchPath] finds is not the path. *)
Example matchPath_not_the_path :
  matchPath (headerOf (lit "lib/yarn.lock") (lit "lib/yarn.lock"))
  = Some (lit "yarn.lock b/lib/yarn.lock").
Proof. reflexivity. Qed.

(** *** The lines the regular expression counts *)

(** The lines of a text under the [m] flag: a line ends at every line
    terminator. *)
Fixpoint jsLines (s : jsstring) : list jsstring :=
  match s with
  | [] => [[]]
  | c :: s' =>
      if isLineTerminator c then [] :: jsLines s'
      else match jsLines s' with
           | [] => [[c]]
           | l :: ls => (c :: l) :: ls
           end
  end.

Lemma jsLines_nonempty (s : jsstring) : jsLines s <> [].
Proof.
  induction s as [|c s IH]; [done|]. cbn.
  destruct (isLineTerminator c); [done|]. by destruct (jsLines s).
Qed.

Lemma startsWith_first_line (p : jsstring) :
  noLineTerminator p = true ->
  forall s, startsWith p s = startsWith p (hd [] (jsLines s)).
Proof.
  unfold startsWith.
  induction p as [|a p IH]; intros Hp s; [done|].
  cbn in Hp. apply andb_true_iff in Hp as [Ha Hp]. apply negb_true_iff in Ha.
  destruct s as [|c s]; [done|]. cbn [jsLines stripPrefix].
  destruct (isLineTerminator c) eqn:Hc.
  - cbn. destruct (N.eqb_spec a c) as [->|_]; [congruence|done].
  - pose proof (jsLines_nonempty s) as Hne.
    destruct (jsLines s) as [|l ls] eqn:E; [done|]. cbn [hd stripPrefix].
    destruct (a =? c)%N; [|done].
    specialize (IH Hp s). by rewrite E in IH.
Qed.

Lemma countFrom_jsLines (s : jsstring) :
  countFrom true s = length (List.filter isHeader (jsLines s))
  /\ countFrom false s = length (List.filter isHeader (tl (jsLines s))).
Proof.
  induction s as [|c s [IHt IHf]]; [done|].
  cbn [countFrom jsLines].
  destruct (isLineTerminator c) eqn:Hc.
  - assert (startsWith headerPrefix (c :: s) = false) as ->.
    { rewrite (startsWith_first_line headerPrefix eq_refl). cbn [jsLines]. by rewrite Hc. }
    rewrite !andb_false_r. cbn [tl List.filter]. by rewrite IHt.
  - rewrite (startsWith_first_line headerPrefix eq_refl (c :: s)). cbn [jsLines].
    rewrite Hc, IHf.
    pose proof (jsLines_nonempty s) as Hne.
    destruct (jsLines s) as [|l ls]; [done|].
    cbn [hd tl List.filter andb]. fold (isHeader (c :: l)).
    split; [|done]. by destruct (isHeader (c :: l)).
Qed.

(** [(diff.match(/^diff --git/gm) || []).length] is the number of lines
    that start with [diff --git]. *)
Lemma countHeaderMatches_jsLines (text : jsstring) :
  countHeaderMatches text = length (List.filter isHeader (jsLines text)).
Proof. apply countFrom_jsLines. Qed.

Section Filter.

Variable minimatch : jsstring -> jsstring -> bool.
Variable patterns : list jsstring.

(** A line that is not a header line in which the text after the first
    [b/] matches an ignore pattern. *)
Definition allowed (line : jsstring) : bool :=
  negb (isHeader line && ignoredHeader minimatch patterns line).

Lemma nextSkip_allowed (skip : bool) (line : jsstring) :
  nextSkip minimatch patterns skip line = false -> allowed line = true.
Proof.
  unfold nextSkip, allowed, ignoredHeader.
  destruct (isHeader line); [|done].
  destruct (matchPath line); [|done]. by intros ->.
Qed.

Lemma keptFrom_allowed (skip : bool) (lines : list jsstring) :
  Forall (fun line => allowed line = true) (keptFrom minimatch patterns skip lines).
Proof.
  revert skip. induction lines as [|line lines IH]; intros skip; [constructor|].
  cbn [keptFrom]. apply Forall_app. split; [|apply IH].
  destruct (nextSkip minimatch patterns skip line) eqn:E; [constructor|].
  repeat constructor. by eapply nextSkip_allowed.
Qed.

Lemma keptFrom_all (lines : list jsstring) :
  Forall (fun line => allowed line = true) lines ->
  keptFrom minimatch patterns false lines = lines.
Proof.
  induction 1 as [|line lines Hl Hlines IH]; [done|].
  cbn [keptFrom].
  assert (nextSkip minimatch patterns false line = false) as ->.
  { unfold nextSkip. unfold allowed, ignoredHeader in Hl.
    destruct (isHeader line); [|done].
    destruct (matchPath line); [|done].
    by apply negb_true_iff in Hl. }
  cbn [app]. by rewrite IH.
Qed.

Lemma keptFrom_subset (skip : bool) (lines : list jsstring) :
  Forall (fun line => line ∈ lines) (keptFrom minimatch patterns skip lines).
Proof.
  apply keptFrom_Forall, Forall_forall. by intros line Hin.
Qed.

(** The lines [filterDiff] joins. *)
Definition keptLines (diff : jsstring) : list jsstring :=
  keptFrom minimatch patterns false (split LF diff).

Lemma filterDiff_keptLines (diff : jsstring) :
  filterDiff minimatch diff patterns = join [LF] (keptLines diff).
Proof. unfold filterDiff. by rewrite filter_fold_keptFrom. Qed.

(** The lines of the filtered text. *)
Lemma filterDiff_lines (diff : jsstring) :
  split LF (filterDiff minimatch diff patterns)
  = match keptLines diff with [] => [[]] | kept => kept end.
Proof.
  rewrite filterDiff_keptLines.
  destruct (keptLines diff) as [|l ls] eqn:E; [done|].
  apply split_join; [done|]. rewrite <- E.
  apply keptFrom_Forall, split_no_sep.
Qed.

(** The header line of a file that is not ignored: a plain header whose
    path matches no ignore pattern. *)
Definition keptHeader (line : jsstring) : Prop :=
  exists old new,
    line = headerOf old new /\ plainPaths old new
    /\ shouldExclude minimatch patterns new = false.

Lemma ignoredHeader_headerOf (old new : jsstring) :
  plainPaths old new ->
  ignoredHeader minimatch patterns (headerOf old new)
  = shouldExclude minimatch patterns new.
Proof. intros Hplain. unfold ignoredHeader. by rewrite matchPath_headerOf. Qed.

(** X1: a diff passes through [filterDiff] unchanged when each of its lines
    that starts with [diff --git] is a header [diff --git a/OLD b/NEW] in
    which [OLD] holds no [b/] and the path [NEW] is not empty, holds no line
    terminator and matches no ignore pattern. *)
Theorem filterDiff_unchanged (diff : jsstring) :
  (forall line, line ∈ split LF diff -> isHeader line = true -> keptHeader line) ->
  filterDiff minimatch diff patterns = diff.
Proof.
  intros Hall. rewrite filterDiff_keptLines. unfold keptLines.
  rewrite keptFrom_all; [apply join_split|].
  apply Forall_forall. intros line Hin. unfold allowed.
  destruct (isHeader line) eqn:Hh; [|done].
  destruct (Hall line Hin Hh) as (old & new & -> & Hplain & Hkeep).
  by rewrite ignoredHeader_headerOf, Hkeep.
Qed.

(** X2: [filterDiff] is idempotent: filtering a filtered diff with the same
    patterns changes nothing. *)
Theorem filterDiff_idempotent (diff : jsstring) :
  filterDiff minimatch (filterDiff minimatch diff patterns) patterns
  = filterDiff minimatch diff patterns.
Proof.
  rewrite (filterDiff_keptLines (filterDiff minimatch diff patterns)).
  unfold keptLines at 1. rewrite filterDiff_lines.
  destruct (keptLines diff) as [|l ls] eqn:E.
  - by rewrite filterDiff_keptLines, E.
  - rewrite keptFrom_all; [by rewrite filterDiff_keptLines, E|].
    rewrite <- E. apply keptFrom_allowed.
Qed.

(** X3: every line of the filtered diff is a line of the input (or the
    empty line of an empty result), and none of them is a header line in
    which the text after the first [b/] matches an ignore pattern.  So the
    header [diff --git a/OLD b/NEW] of a file whose path [NEW] matches an
    ignore pattern is not in the filtered diff, when [OLD] holds no [b/]
    and [NEW] is not empty and holds no line terminator. *)
Theorem filterDiff_keeps_only_allowed_lines (diff : jsstring) :
  Forall (fun line => (line = [] \/ line ∈ split LF diff)
                      /\ ~ (isHeader line = true
                            /\ ignoredHeader minimatch patterns line = true))
         (split LF (filterDiff minimatch diff patterns))
  /\ (forall old new,
        plainPaths old new -> shouldExclude minimatch patterns new = true ->
        headerOf old new ∉ split LF (filterDiff minimatch diff patterns)).
Proof.
  assert (Forall (fun line => (line = [] \/ line ∈ split LF diff)
                      /\ ~ (isHeader line = true
                            /\ ignoredHeader minimatch patterns line = true))
                 (split LF (filterDiff minimatch diff patterns))) as Hlines.
  { rewrite filterDiff_lines.
    assert (Forall (fun line => (line = [] \/ line ∈ split LF diff)
                        /\ ~ (isHeader line = true
                              /\ ignoredHeader minimatch patterns line = true))
                   (keptLines diff)) as Hkept.
    { apply Forall_forall. intros line Hin. split.
      - right. pose proof (keptFrom_subset false (split LF diff)) as Hs.
        rewrite Forall_forall in Hs. by apply Hs.
      - pose proof (keptFrom_allowed false (split LF diff)) as Ha.
        rewrite Forall_forall in Ha. specialize (Ha line Hin).
        unfold allowed in Ha. apply negb_true_iff in Ha.
        intros [H1 H2]. by rewrite H1, H2 in Ha. }
    destruct (keptLines diff) as [|l ls]; [|exact Hkept].
    apply Forall_cons. split; [|constructor].
    split; [by left|]. by intros [H _]. }
  split; [exact Hlines|].
  intros old new Hplain Hex Hin.
  rewrite Forall_forall in Hlines. destruct (Hlines _ Hin) as [_ Hno].
  apply Hno. split; [apply isHeader_headerOf|].
  by rewrite ignoredHeader_headerOf.
Qed.

End Filter.

(** Two files, none of them ignored. *)
Definition smallDiff : jsstring :=
  headerOf (lit "src/a.ts") (lit "src/a.ts") ++ [LF] ++ lit "+new" ++ [LF]
  ++ headerOf (lit "README.md") (lit "README.md") ++ [LF] ++ lit "-old".

Lemma filterDiff_unchanged_witness :
  (forall line, line ∈ split LF smallDiff -> isHeader line = true ->
                keptHeader literalMatch (loadIgnorePatterns None) line)
  /\ filterDiff literalMatch smallDiff (loadIgnorePatterns None) = smallDiff.
Proof.
  assert (forall line, line ∈ split LF smallDiff -> isHeader line = true ->
                       keptHeader literalMatch (loadIgnorePatterns None) line) as H.
  { intros line Hin.
    change (split LF smallDiff)
      with [headerOf (lit "src/a.ts") (lit "src/a.ts"); lit "+new";
            headerOf (lit "README.md") (lit "README.md"); lit "-old"] in Hin.
    apply elem_of_cons in Hin as [->|Hin].
    { intros _. by exists (lit "src/a.ts"), (lit "src/a.ts"). }
    apply elem_of_cons in Hin as [->|Hin]; [discriminate|].
    apply elem_of_cons in Hin as [->|Hin].
    { intros _. by exists (lit "README.md"), (lit "README.md"). }
    apply elem_of_cons in Hin as [->|Hin]; [discriminate|].
    by apply elem_of_nil in Hin. }
  split; [exact H|].
  apply (filterDiff_unchanged literalMatch (loadIgnorePatterns None) smallDiff H).
Defined.

(** *** [filesChanged] *)

(** The header lines that the count sees: the lines of a text that start
    with [diff --git], a line ending at any line terminator. *)
Definition countedHeaders (text : jsstring) : list jsstring :=
  List.filter isHeader (jsLines text).

Lemma keptFrom_sublist (minimatch : jsstring -> jsstring -> bool)
    (patterns : list jsstring) (skip : bool) (lines : list jsstring) :
  keptFrom minimatch patterns skip lines `sublist_of` lines.
Proof.
  revert skip. induction lines as [|line lines IH]; intros skip; [constructor|].
  cbn [keptFrom]. destruct (nextSkip minimatch patterns skip line); cbn [app].
  - apply sublist_cons, IH.
  - apply sublist_skip, IH.
Qed.

Lemma filter_sublist_mono {A} (f : A -> bool) (l1 l2 : list A) :
  l1 `sublist_of` l2 -> List.filter f l1 `sublist_of` List.filter f l2.
Proof.
  induction 1 as [|x l1 l2 _ IH|x l1 l2 _ IH]; cbn [List.filter].
  - constructor.
  - destruct (f x); [by apply sublist_skip | exact IH].
  - destruct (f x); [by apply sublist_cons | exact IH].
Qed.

(** The header line of a file that is not ignored stays. *)
Lemma keptFrom_keeps_header (minimatch : jsstring -> jsstring -> bool)
    (patterns : list jsstring) (h path : jsstring) (lines : list jsstring)
    (skip : bool) :
  isHeader h = true -> matchPath h = Some path ->
  shouldExclude minimatch patterns path = false ->
  h ∈ lines -> h ∈ keptFrom minimatch patterns skip lines.
Proof.
  intros Hh Hpath Hkeep. revert skip.
  induction lines as [|line lines IH]; intros skip Hin; [by apply elem_of_nil in Hin|].
  cbn [keptFrom]. apply elem_of_app.
  apply elem_of_cons in Hin as [<-|Hin]; [left | right; by apply IH].
  unfold nextSkip. rewrite Hh, Hpath, Hkeep. by left.
Qed.

Lemma size_list_to_set_le (l : list jsstring) :
  size (list_to_set l : gset jsstring) <= length l.
Proof.
  induction l as [|x l IH]; [done|].
  cbn [list_to_set length foldr].
  pose proof (size_union_alt {[x]} (list_to_set l : gset jsstring)) as Hu.
  pose proof (subseteq_size (list_to_set l ∖ {[x]}) (list_to_set l : gset jsstring)) as Hs.
  rewrite size_singleton in Hu.
  assert (list_to_set l ∖ {[x]} ⊆ (list_to_set l : gset jsstring)) as Hsub
    by (by apply subseteq_difference_l).
  specialize (Hs Hsub). lia.
Qed.

(** A list names as many distinct paths as it is long exactly when it names
    none twice. *)
Lemma size_list_to_set_NoDup (l : list jsstring) :
  size (list_to_set l : gset jsstring) = length l <-> NoDup l.
Proof.
  split; [|apply size_list_to_set].
  induction l as [|x l IH]; [constructor|].
  cbn [list_to_set length foldr]. intros Hsize.
  pose proof (size_list_to_set_le l) as Hle.
  destruct (decide (x ∈ l)) as [Hin|Hnin].
  - exfalso.
    assert ({[x]} ∪ list_to_set l = (list_to_set l : gset jsstring)) as E
      by (by apply subseteq_union_1_L, singleton_subseteq_l, elem_of_list_to_set).
    rewrite E in Hsize. lia.
  - constructor; [exact Hnin|]. apply IH.
    rewrite size_union in Hsize
      by (apply disjoint_singleton_l; by rewrite elem_of_list_to_set).
    rewrite size_singleton in Hsize. lia.
Qed.

Lemma omap_length_le {A B} (f : A -> option B) (l : list A) :
  length (omap f l) <= length l.
Proof.
  induction l as [|x l IH]; [done|]. cbn [omap list_omap].
  destruct (f x); cbn [length]; lia.
Qed.

(** On plain header lines [matchPath] finds the path of each. *)
Lemma plainHeaders_paths (headers : list jsstring) :
  Forall plainHeader headers ->
  Forall2 (fun h p => exists old, h = headerOf old p /\ plainPaths old p)
          headers (omap matchPath headers).
Proof.
  induction 1 as [|h hs (old & new & -> & Hp) _ IH]; [constructor|].
  cbn [omap list_omap]. rewrite (matchPath_headerOf _ _ Hp). cbn.
  constructor; [by exists old|exact IH].
Qed.

(** C9 (amended): [filesChanged] is derived purely from the header lines of
    the resulting diff text, and is their number: the number of lines of
    that text that start with [diff --git] (a line ending at any line
    terminator), one per header line and not one per path.  The resulting
    text is the filtered diff, cut at the size limit.  Ignored files are
    left out by the filter: the header lines of the filtered diff are header
    lines of the staged diff, in their order, and a header
    [diff --git a/OLD b/NEW] with no [b/] in [OLD] is among them exactly
    when it is in the staged diff and the path [NEW] matches no ignore
    pattern.  The number of distinct paths of the header lines is at most
    [filesChanged]; when these header lines are such plain headers,
    [filesChanged] is the number of distinct paths exactly when no two
    header lines name the same path. *)
Theorem filesChanged_counts_header_lines
    (minimatch : jsstring -> jsstring -> bool)
    (staged : jsstring) (commitignore : option jsstring) :
  let patterns := loadIgnorePatterns commitignore in
  let filtered := filterDiff minimatch staged patterns in
  let ctx := getStagedDiff minimatch staged commitignore in
  let headers := countedHeaders (diff ctx) in
  let paths := omap matchPath headers in
  diff ctx = fst (truncate filtered)
  /\ filesChanged ctx = length headers
  /\ List.filter isHeader (split LF filtered) `sublist_of` headerLines staged
  /\ (forall old new,
        plainPaths old new ->
        headerOf old new ∈ split LF filtered
        <-> headerOf old new ∈ split LF staged
            /\ shouldExclude minimatch patterns new = false)
  /\ size (list_to_set paths : gset jsstring) <= filesChanged ctx
  /\ (Forall plainHeader headers ->
      Forall2 (fun h p => exists old, h = headerOf old p /\ plainPaths old p)
              headers paths
      /\ (filesChanged ctx = size (list_to_set paths : gset jsstring)
          <-> NoDup paths)).
Proof.
  intros patterns filtered ctx headers paths.
  assert (filesChanged ctx = length headers) as Hcount.
  { unfold headers, countedHeaders, ctx, getStagedDiff.
    fold patterns. fold filtered.
    destruct (truncate filtered) as [text flag].
    cbn [diff filesChanged]. apply countHeaderMatches_jsLines. }
  split.
  { unfold ctx, getStagedDiff. fold patterns. fold filtered.
    by destruct (truncate filtered). }
  split; [exact Hcount|]. split.
  { unfold filtered. rewrite filterDiff_lines. unfold keptLines, headerLines.
    pose proof (filter_sublist_mono isHeader _ _
                  (keptFrom_sublist minimatch patterns false (split LF staged))) as H.
    destruct (keptFrom minimatch patterns false (split LF staged));
      [apply sublist_nil_l | exact H]. }
  split.
  { intros old new Hp. unfold filtered. rewrite filterDiff_lines.
    assert (headerOf old new ∈ keptLines minimatch patterns staged
            <-> headerOf old new ∈ split LF staged
                /\ shouldExclude minimatch patterns new = false) as Hkept.
    { unfold keptLines. split.
      - intros Hin. split.
        + pose proof (keptFrom_subset minimatch patterns false (split LF staged)) as Hs.
          rewrite Forall_forall in Hs. by apply Hs.
        + pose proof (keptFrom_allowed minimatch patterns false (split LF staged)) as Ha.
          rewrite Forall_forall in Ha. specialize (Ha _ Hin).
          unfold allowed in Ha.
          rewrite isHeader_headerOf, (ignoredHeader_headerOf _ _ _ _ Hp) in Ha.
          by apply negb_true_iff in Ha.
      - intros [Hin Hkeep].
        by apply (keptFrom_keeps_header _ _ _ new);
          [apply isHeader_headerOf | apply matchPath_headerOf | |]. }
    destruct (keptLines minimatch patterns staged) as [|l ls] eqn:E; [|exact Hkept].
    rewrite <- Hkept. split; [|by intros ?%elem_of_nil].
    intros Hin%list_elem_of_singleton. discriminate Hin. }
  split.
  { rewrite Hcount. etrans; [apply size_list_to_set_le | apply omap_length_le]. }
  intros Hplain. pose proof (plainHeaders_paths headers Hplain) as Hpaths.
  split; [exact Hpaths|].
  rewrite Hcount, (Forall2_length _ _ _ Hpaths). fold paths.
  split; [intros H; by apply size_list_to_set_NoDup | intros H; symmetry;
          by apply size_list_to_set_NoDup].
Qed.

Lemma filesChanged_counts_header_lines_witness :
  let ctx := getStagedDiff literalMatch twoFilesDiff (Some (lit "yarn.lock")) in
  let headers := countedHeaders (diff ctx) in
  Forall plainHeader headers
  /\ NoDup (omap matchPath headers)
  /\ filesChanged ctx = 2
  /\ filesChanged ctx = size (list_to_set (omap matchPath headers) : gset jsstring).
Proof.
  intros ctx headers.
  assert (Forall plainHeader headers) as Hplain.
  { change headers
      with [headerOf (lit "src/a.ts") (lit "src/a.ts");
            headerOf (lit "README.md") (lit "README.md")].
    repeat constructor.
    - by exists (lit "src/a.ts"), (lit "src/a.ts").
    - by exists (lit "README.md"), (lit "README.md"). }
  assert (NoDup (omap matchPath headers)) as Hnd.
  { change (omap matchPath headers) with [lit "src/a.ts"; lit "README.md"].
    apply (bool_decide_eq_true_1 (NoDup _)). reflexivity. }
  split; [exact Hplain|]. split; [exact Hnd|]. split; [reflexivity|].
  destruct (filesChanged_counts_header_lines literalMatch twoFilesDiff
              (Some (lit "yarn.lock"))) as (_ & _ & _ & _ & _ & Hdistinct).
  destruct (Hdistinct Hplain) as [_ Hiff]. by apply Hiff.
Defined.

(** The staged diff itself: when its header lines are plain, the text is
    not truncated and LF is its only line terminator, [filesChanged] is the
    number of header lines of the files that are not ignored, and the number
    of distinct such paths when none has two header lines. *)
Lemma filesChanged_of_plain_diff
    (minimatch : jsstring -> jsstring -> bool)
    (staged : jsstring) (commitignore : option jsstring) :
  let patterns := loadIgnorePatterns commitignore in
  let ctx := getStagedDiff minimatch staged commitignore in
  Forall plainHeader (headerLines staged) ->
  truncated ctx = false ->
  Forall (fun c => isLineTerminator c = true -> c = LF) staged ->
  filesChanged ctx = length (keptHeaders minimatch patterns staged)
  /\ Forall2 (fun h p => exists old, h = headerOf old p /\ plainPaths old p)
             (keptHeaders minimatch patterns staged)
             (keptPaths minimatch patterns staged)
  /\ (NoDup (keptPaths minimatch patterns staged) ->
      filesChanged ctx = distinctPaths minimatch patterns staged).
Proof.
  intros patterns ctx Hplain.
  set (filtered := filterDiff minimatch staged patterns).
  assert (Forall (fun line => is_Some (matchPath line)) (headerLines staged)) as Hsome.
  { eapply Forall_impl; [exact Hplain|].
    intros h (old & new & -> & Hp). rewrite (matchPath_headerOf _ _ Hp). by eexists. }
  assert (List.filter isHeader (split LF filtered)
          = keptHeaders minimatch patterns staged) as Hheaders.
  { unfold filtered. rewrite filterDiff_lines. unfold keptLines.
    unfold keptHeaders, headerLines.
    rewrite <- (keptFrom_headers minimatch patterns (split LF staged) false Hsome).
    by destruct (keptFrom minimatch patterns false (split LF staged)). }
  assert (Forall2 (fun h p => exists old, h = headerOf old p /\ plainPaths old p)
            (keptHeaders minimatch patterns staged)
            (keptPaths minimatch patterns staged)) as Hpaths.
  { apply plainHeaders_paths, Forall_forall. intros h Hin.
    apply list_elem_of_In, List.filter_In in Hin as [Hin _].
    rewrite Forall_forall in Hplain. by apply Hplain, list_elem_of_In. }
  unfold ctx, getStagedDiff. fold patterns. fold filtered.
  destruct (truncate filtered) as [text flag] eqn:Et.
  cbn [diff filesChanged truncated fst].
  intros -> Hlf.
  assert (text = filtered) as ->.
  { pose proof (truncate_false filtered) as H. rewrite Et in H. by apply H. }
  assert (countHeaderMatches filtered
          = length (keptHeaders minimatch patterns staged)) as Hcount.
  { rewrite <- Hheaders. unfold filtered. rewrite filterDiff_lines.
    rewrite (filterDiff_keptLines minimatch patterns staged).
    rewrite countHeaderMatches_join
      by (apply keptFrom_Forall, split_noLineTerminator, Hlf).
    by destruct (keptLines minimatch patterns staged). }
  split; [exact Hcount|]. split; [exact Hpaths|].
  intros Hnd. unfold distinctPaths.
  rewrite size_list_to_set by exact Hnd.
  by rewrite Hcount, (Forall2_length _ _ _ Hpaths).
Qed.

(** Outside the plain header lines the text after the first [b/] is not the
    path: here the path matches the pattern, and the file stays in the diff
    and in the count. *)
Example filesChanged_counts_ignored_path :
  let staged := headerOf (lit "lib/yarn.lock") (lit "lib/yarn.lock")
                ++ [LF] ++ lit "+x" in
  let ctx := getStagedDiff literalMatch staged (Some (lit "lib/yarn.lock")) in
  shouldExclude literalMatch (loadIgnorePatterns (Some (lit "lib/yarn.lock")))
    (lit "lib/yarn.lock") = true
  /\ diff ctx = staged /\ filesChanged ctx = 1.
Proof. vm_compute. repeat split. Qed.

(** A line terminator other than LF starts a line for the count, not for
    the filter: a changed line that holds a carriage return before the text
    [diff --git] is counted as a file. *)
Example filesChanged_counts_after_CR :
  let staged := headerOf (lit "a.ts") (lit "a.ts") ++ [LF]
                ++ lit "+x" ++ [CR] ++ lit "diff --git is a command" in
  let ctx := getStagedDiff literalMatch staged None in
  headerLines staged = [headerOf (lit "a.ts") (lit "a.ts")]
  /\ truncated ctx = false /\ filesChanged ctx = 2
  /\ keptPaths literalMatch (loadIgnorePatterns None) staged = [lit "a.ts"].
Proof. vm_compute. repeat split. Qed.

(** A header line beyond the size limit is cut off and not counted. *)
Example filesChanged_counts_the_truncated_text :
  let staged := headerOf (lit "a.ts") (lit "a.ts") ++ [LF]
                ++ List.repeat 120%N (Z.to_nat maxDiffSize) ++ [LF]
                ++ headerOf (lit "c.ts") (lit "c.ts") in
  let ctx := getStagedDiff literalMatch staged None in
  truncated ctx = true /\ filesChanged ctx = 1
  /\ length (keptHeaders literalMatch (loadIgnorePatterns None) staged) = 2.
Proof. vm_compute. repeat split. Qed.

(** *** The size limit *)

(** X4: the text kept by [getStagedDiff] is at most 500016 code units long;
    the [truncated] flag is set exactly when the filtered diff is longer than
    500000; a diff within the limit is kept as it is, and truncation never
    alters the first 500000 code units. *)
Theorem truncate_bounds (text : jsstring) :
  (Z.of_nat (length (fst (truncate text))) <= maxDiffSize + 16)%Z
  /\ (snd (truncate text) = true <-> (maxDiffSize < Z.of_nat (length text))%Z)
  /\ (snd (truncate text) = false -> fst (truncate text) = text)
  /\ take (Z.to_nat maxDiffSize) (fst (truncate text))
     = take (Z.to_nat maxDiffSize) text.
Proof.
  unfold truncate.
  destruct (Z.ltb_spec maxDiffSize (Z.of_nat (length text))) as [Hlt|Hge];
    cbn [fst snd].
  - assert (length (take (Z.to_nat maxDiffSize) text) = Z.to_nat maxDiffSize) as Hlen
      by (rewrite length_take; unfold maxDiffSize in *; lia).
    split; [|split; [|split]].
    + rewrite length_app, Hlen.
      change (length ([LF] ++ lit "... (truncated)")) with 16.
      unfold maxDiffSize. lia.
    + by split.
    + discriminate.
    + rewrite take_app_le by (rewrite Hlen; lia).
      by rewrite take_take, Nat.min_id.
  - split; [lia|]. split; [|done]. split; [discriminate|lia].
Qed.

(** *** [loadIgnorePatterns] *)

(** What one line of [.commitignore] adds: its trimmed text, unless that is
    empty or starts with [#]. *)
Definition customPattern (line : jsstring) : option jsstring :=
  match trim line with
  | [] => None
  | p => if startsWith (lit "#") p then None else Some p
  end.

Lemma customPatterns_omap (lines : list jsstring) :
  List.filter (fun l => match l with
                        | [] => false
                        | _ => negb (startsWith (lit "#") l)
                        end)
              (List.map trim lines)
  = omap customPattern lines.
Proof.
  induction lines as [|line lines IH]; [done|].
  cbn [List.map List.filter omap list_omap]. unfold customPattern at 1.
  destruct (trim line) as [|c r]; [exact IH|].
  destruct (startsWith (lit "#") (c :: r)); cbn [negb]; [exact IH|].
  by rewrite IH.
Qed.

(** X5: the patterns are the defaults followed by what the [.commitignore]
    file adds: one pattern for every line whose trimmed text is not empty
    and does not start with [#], namely that trimmed text, in the order of
    the file.  So the defaults always come first and none is ever removed,
    without the file the patterns are the defaults, and no added pattern is
    empty, padded with white space or a comment. *)
Theorem loadIgnorePatterns_extends_defaults (commitignore : option jsstring) :
  let patterns := loadIgnorePatterns commitignore in
  let added := drop (length defaultIgnorePatterns) patterns in
  patterns = defaultIgnorePatterns ++ added
  /\ added = omap customPattern (default [] (split LF <$> commitignore))
  /\ (forall content line,
        commitignore = Some content -> line ∈ split LF content ->
        trim line <> [] -> startsWith (lit "#") (trim line) = false ->
        trim line ∈ added)
  /\ (commitignore = None -> patterns = defaultIgnorePatterns)
  /\ Forall (fun p => p <> [] /\ trim p = p /\ startsWith (lit "#") p = false
                      /\ exists content line,
                           commitignore = Some content
                           /\ line ∈ split LF content /\ p = trim line)
            added.
Proof.
  intros patterns added. subst patterns added.
  destruct commitignore as [content|]; cbn [loadIgnorePatterns].
  2: { rewrite drop_all, app_nil_r. cbn.
       split; [done|]. split; [done|]. split; [discriminate|].
       split; [done|constructor]. }
  rewrite drop_app_length, customPatterns_omap.
  cbn [fmap option_fmap option_map default].
  split; [done|]. split; [done|]. split; [|split; [discriminate|]].
  - intros content' line [= <-] Hin Hne Hc.
    apply list_elem_of_omap. exists line. split; [done|].
    unfold customPattern. destruct (trim line) as [|c r]; [done|]. by rewrite Hc.
  - apply Forall_forall. intros p Hin.
    apply list_elem_of_omap in Hin as (line & Hline & Hp).
    unfold customPattern in Hp.
    destruct (trim line) as [|c r] eqn:E; [discriminate|].
    destruct (startsWith (lit "#") (c :: r)) eqn:Hs; [discriminate|].
    injection Hp as <-. rewrite <- E. repeat split.
    + by rewrite E.
    + apply trim_idem.
    + by rewrite E.
    + by exists content, line.
Qed.

(** *** The escaped commit message *)

(** What the three replacements do to one code unit. *)
Definition escapeUnit (x : N) : jsstring :=
  if (x =? backslash)%N then [backslash; backslash]
  else if (x =? dquote)%N then [backslash; dquote]
  else if (x =? LF)%N then [backslash; 110%N]
  else [x].

Lemma flat_map_flat_map {A B C} (f : A -> list B) (g : B -> list C) (l : list A) :
  flat_map g (flat_map f l) = flat_map (fun x => flat_map g (f x)) l.
Proof.
  induction l as [|x l IH]; [done|].
  cbn [flat_map]. by rewrite List.flat_map_app, IH.
Qed.

Lemma escapeMessage_units (message : jsstring) :
  escapeMessage message = flat_map escapeUnit message.
Proof.
  unfold escapeMessage, replaceAll. rewrite !flat_map_flat_map.
  apply List.flat_map_ext. intros x. unfold escapeUnit.
  destruct (N.eqb_spec x backslash) as [->|Hb]; [reflexivity|].
  cbn [flat_map app].
  destruct (N.eqb_spec x dquote) as [->|Hq]; [reflexivity|].
  cbn [flat_map app].
  destruct (N.eqb_spec x LF) as [->|Hl]; reflexivity.
Qed.

(** X6: the escaped message holds no line feed, and none of its double
    quotes can close the quoted argument of [git commit -m]: each is
    protected by a backslash that is not itself escaped. *)
Theorem escapeMessage_safe_in_quotes (message : jsstring) :
  (LF ∉ escapeMessage message)
  /\ closesQuote false (escapeMessage message) = false
  /\ length message <= length (escapeMessage message).
Proof.
  rewrite escapeMessage_units.
  induction message as [|x message (IH1 & IH2 & IH3)].
  - repeat split; [apply not_elem_of_nil | done].
  - cbn [flat_map]. unfold escapeUnit at 1 3 5.
    destruct (N.eqb_spec x backslash) as [->|Hb];
      [|destruct (N.eqb_spec x dquote) as [->|Hq];
        [|destruct (N.eqb_spec x LF) as [->|Hl]]].
    + repeat split.
      * cbn [app]. rewrite !not_elem_of_cons. by repeat split.
      * exact IH2.
      * cbn [app length]. lia.
    + repeat split.
      * cbn [app]. rewrite !not_elem_of_cons. by repeat split.
      * exact IH2.
      * cbn [app length]. lia.
    + repeat split.
      * cbn [app]. rewrite !not_elem_of_cons. by repeat split.
      * exact IH2.
      * cbn [app length]. lia.
    + repeat split.
      * cbn [app]. rewrite not_elem_of_cons. split; [congruence|exact IH1].
      * cbn [app closesQuote].
        destruct (N.eqb_spec x backslash); [done|].
        by destruct (N.eqb_spec x dquote).
      * cbn [app length]. lia.
Qed.

Example escapeMessage_sample :
  escapeMessage (lit "fix " ++ [dquote] ++ lit "a" ++ [backslash; dquote; LF] ++ lit "b")
  = lit "fix " ++ [backslash; dquote] ++ lit "a"
    ++ [backslash; backslash; backslash; dquote; backslash; 110%N] ++ lit "b".
Proof. reflexivity. Qed.

End DiffCollectorFacts.

(* ===================================================================== *)
(** ** utils/validators.ts: [parseBracketed] and [extractConventionalCommit] *)
(* ===================================================================== *)

Module MessageParsers.

Import DiffHeader JsFacts.

(** The object both parsers return; [category] is the [type] of
    [extractConventionalCommit]. *)
Record Parts := mkParts {
  category : option jsstring;
  scope : option jsstring;
  description : option jsstring;
}.

(** [{ description: message }] *)
Definition unparsed (message : jsstring) : Parts :=
  mkParts None None (Some message).

Fixpoint takeWhile {A} (p : A -> bool) (l : list A) : list A :=
  match l with
  | [] => []
  | x :: l' => if p x then x :: takeWhile p l' else []
  end.

(** [\w] *)
Definition isWordChar (c : N) : bool :=
  isLower c || isUpper c || ((48 <=? c)%N && (c <=? 57)%N) || (c =? 95)%N.

(** [\[([^\]]+)\]] or [\(([^)]+)\)] at the head of [s]: the opening code
    unit, the longest run free of the closing one, which must not be empty,
    and the closing code unit.  Returns the run and what follows. *)
Definition enclosed (opening closing : N) (s : jsstring)
  : option (jsstring * jsstring) :=
  match s with
  | c :: rest =>
      if (c =? opening)%N then
        match takeWhile (fun x => negb (x =? closing)%N) rest,
              dropWhile (fun x => negb (x =? closing)%N) rest with
        | x :: inner, _ :: after => Some (x :: inner, after)
        | _, _ => None
        end
      else None
  | [] => None
  end.

(** [\s+(.+)$] at the head of [s]: the white space is taken greedily; the
    description is all that follows, which must hold no line terminator.
    When nothing follows, the run gives its last code unit back to the
    description, provided the run has two code units at least and the last
    one is no line terminator. *)
Definition spacedDescription (s : jsstring) : option jsstring :=
  match takeWhile isWhiteSpace s, dropWhile isWhiteSpace s with
  | [], _ => None
  | _ :: _, c :: r => if noLineTerminator (c :: r) then Some (c :: r) else None
  | [_], [] => None
  | w :: run, [] =>
      let c := List.last run w in
      if isLineTerminator c then None else Some [c]
  end.

Definition lbracket : N := 91%N.
Definition rbracket : N := 93%N.
Definition lparen : N := 40%N.
Definition rparen : N := 41%N.

(** [/^\[(?<category>[^\]]+)\](?:\[(?<scope>[^\]]+)\])?\s+(?<desc>.+)$/]:
    when the optional group matches and the rest fails, leaving the group
    out fails as well, since an opening bracket is no white space. *)
Definition parseBracketed (message : jsstring) : Parts :=
  match enclosed lbracket rbracket message with
  | Some (category, after) =>
      match enclosed lbracket rbracket after with
      | Some (scope, after) =>
          match spacedDescription after with
          | Some desc => mkParts (Some category) (Some scope) (Some desc)
          | None => unparsed message
          end
      | None =>
          match spacedDescription after with
          | Some desc => mkParts (Some category) None (Some desc)
          | None => unparsed message
          end
      end
  | None => unparsed message
  end.

(** [.+$] on all of [s]. *)
Definition restOfLine (s : jsstring) : option jsstring :=
  match s with
  | c :: r => if noLineTerminator (c :: r) then Some (c :: r) else None
  | [] => None
  end.

(** [/^(\w+)(?:\(([^)]+)\))?: (.+)$/] *)
Definition extractConventionalCommit (message : jsstring) : Parts :=
  match takeWhile isWordChar message with
  | [] => unparsed message
  | type =>
      let after := dropWhile isWordChar message in
      let '(scope, after) :=
        match enclosed lparen rparen after with
        | Some (scope, after) => (Some scope, after)
        | None => (None, after)
        end in
      match stripPrefix (lit ": ") after with
      | Some rest =>
          match restOfLine rest with
          | Some desc => mkParts (Some type) scope (Some desc)
          | None => unparsed message
          end
      | None => unparsed message
      end
  end.

(** The text of a bracketed message and of a conventional one. *)
Definition bracketedText (category : jsstring) (scope : option jsstring)
    (desc : jsstring) : jsstring :=
  [lbracket] ++ category ++ [rbracket]
  ++ match scope with Some s => [lbracket] ++ s ++ [rbracket] | None => [] end
  ++ lit " " ++ desc.

Definition conventionalText (type : jsstring) (scope : option jsstring)
    (desc : jsstring) : jsstring :=
  type
  ++ match scope with Some s => [lparen] ++ s ++ [rparen] | None => [] end
  ++ lit ": " ++ desc.

Example parseBracketed_scenario_C :
  parseBracketed (lit "[feature] add login")
  = mkParts (Some (lit "feature")) None (Some (lit "add login")).
Proof. reflexivity. Qed.

Example parseBracketed_scoped :
  parseBracketed (lit "[bugfix][auth]   handle expired token")
  = mkParts (Some (lit "bugfix")) (Some (lit "auth")) (Some (lit "handle expired token")).
Proof. reflexivity. Qed.

Example parseBracketed_trailing_space :
  parseBracketed (lit "[feature]  ") = mkParts (Some (lit "feature")) None (Some (lit " "))
  /\ parseBracketed (lit "[feature] ") = unparsed (lit "[feature] ").
Proof. split; reflexivity. Qed.

Example extractConventionalCommit_fallback :
  extractConventionalCommit (lit "chore: update code")
  = mkParts (Some (lit "chore")) None (Some (lit "update code")).
Proof. reflexivity. Qed.

Example extractConventionalCommit_scoped :
  extractConventionalCommit (lit "feat(api): add route")
  = mkParts (Some (lit "feat")) (Some (lit "api")) (Some (lit "add route"))
  /\ extractConventionalCommit (lit "feat(api) add route")
     = unparsed (lit "feat(api) add route").
Proof. split; reflexivity. Qed.

(** *** Facts about the pieces *)

Lemma takeWhile_dropWhile {A} (p : A -> bool) (l : list A) :
  takeWhile p l ++ dropWhile p l = l.
Proof.
  induction l as [|x l IH]; [done|].
  cbn [takeWhile dropWhile]. destruct (p x); [|done].
  cbn [app]. by rewrite IH.
Qed.

Lemma takeWhile_forallb {A} (p : A -> bool) (l : list A) :
  forallb p (takeWhile p l) = true.
Proof.
  induction l as [|x l IH]; [done|].
  cbn [takeWhile]. destruct (p x) eqn:E; [|done].
  cbn [forallb]. by rewrite E, IH.
Qed.

Lemma span_stop {A} (p : A -> bool) (a : list A) (x : A) (r : list A) :
  forallb p a = true -> p x = false ->
  takeWhile p (a ++ x :: r) = a /\ dropWhile p (a ++ x :: r) = x :: r.
Proof.
  intros Ha Hx. induction a as [|y a IH].
  - cbn. by rewrite Hx.
  - apply andb_true_iff in Ha as [Hy Ha]. cbn [app takeWhile dropWhile].
    rewrite Hy. destruct (IH Ha) as [-> ->]. done.
Qed.

Lemma span_all {A} (p : A -> bool) (a : list A) :
  forallb p a = true -> takeWhile p a = a /\ dropWhile p a = [].
Proof.
  induction a as [|y a IH]; [done|].
  intros [Hy Ha]%andb_true_iff. cbn [takeWhile dropWhile]. rewrite Hy.
  destruct (IH Ha) as [-> ->]. done.
Qed.

(** A code unit that does not occur in a text. *)
Definition freeOf (c : N) (s : jsstring) : bool :=
  forallb (fun x => negb (x =? c)%N) s.

Lemma freeOf_spec (c : N) (s : jsstring) : freeOf c s = true <-> c ∉ s.
Proof.
  unfold freeOf. induction s as [|x s IH]; cbn [forallb].
  - split; [intros _; apply not_elem_of_nil|done].
  - rewrite andb_true_iff, IH, not_elem_of_cons, negb_true_iff, N.eqb_neq.
    split; intros [? ?]; split; congruence.
Qed.

Lemma enclosed_text (opening closing : N) (inner rest : jsstring) :
  inner <> [] -> freeOf closing inner = true ->
  enclosed opening closing ([opening] ++ inner ++ [closing] ++ rest)
  = Some (inner, rest).
Proof.
  intros Hne Hfree. unfold enclosed. cbn [app]. rewrite N.eqb_refl.
  destruct (span_stop (fun x => negb (x =? closing)%N) inner closing rest Hfree)
    as [-> ->]; [by rewrite N.eqb_refl|].
  by destruct inner.
Qed.

Lemma enclosed_inv (opening closing : N) (s inner after : jsstring) :
  enclosed opening closing s = Some (inner, after) ->
  s = [opening] ++ inner ++ [closing] ++ after
  /\ inner <> [] /\ freeOf closing inner = true.
Proof.
  unfold enclosed. destruct s as [|c rest]; [done|].
  destruct (N.eqb_spec c opening) as [->|]; [|done].
  pose proof (takeWhile_dropWhile (fun x => negb (x =? closing)%N) rest) as Hsplit.
  pose proof (takeWhile_forallb (fun x => negb (x =? closing)%N) rest) as Hfree.
  pose proof (dropWhile_head (fun x => negb (x =? closing)%N) rest) as Hhead.
  destruct (takeWhile _ rest) as [|x inner']; [done|].
  destruct (dropWhile _ rest) as [|d after']; [done|].
  intros [= <- <-]. apply negb_false_iff, N.eqb_eq in Hhead as ->.
  split; [by rewrite <- Hsplit|]. split; [done|exact Hfree].
Qed.

Lemma spacedDescription_inv (s desc : jsstring) :
  spacedDescription s = Some desc ->
  exists ws, s = ws ++ desc /\ ws <> [] /\ forallb isWhiteSpace ws = true
             /\ desc <> [] /\ noLineTerminator desc = true.
Proof.
  unfold spacedDescription.
  pose proof (takeWhile_dropWhile isWhiteSpace s) as Hsplit.
  pose proof (takeWhile_forallb isWhiteSpace s) as Hws.
  destruct (takeWhile isWhiteSpace s) as [|w run]; [done|].
  destruct (dropWhile isWhiteSpace s) as [|c r].
  - destruct run as [|w2 run]; [done|].
    assert (w :: w2 :: run
            = removelast (w :: w2 :: run) ++ [List.last (w2 :: run) w]) as Hlast.
    { rewrite (app_removelast_last w) at 1 by done. reflexivity. }
    revert Hlast. generalize (List.last (w2 :: run) w). intros c Hlast.
    destruct (isLineTerminator c) eqn:Elt; [done|].
    intros [= <-].
    exists (removelast (w :: w2 :: run)).
    rewrite app_nil_r in Hsplit.
    split; [by rewrite <- Hsplit|]. split; [done|].
    split; [|split; [done|cbn; by rewrite Elt]].
    rewrite Hlast, forallb_app in Hws. by apply andb_true_iff in Hws as [? _].
  - assert (match run with
            | [] | _ => if noLineTerminator (c :: r) then Some (c :: r) else None
            end = (if noLineTerminator (c :: r) then Some (c :: r) else None)) as ->
      by (by destruct run).
    destruct (noLineTerminator (c :: r)) eqn:Elt; [|done].
    intros [= <-]. exists (w :: run). by repeat split.
Qed.

Lemma spacedDescription_text (desc : jsstring) :
  match desc with [] => False | c :: _ => isWhiteSpace c = false end ->
  noLineTerminator desc = true ->
  spacedDescription (lit " " ++ desc) = Some desc.
Proof.
  destruct desc as [|c r]; [done|]. intros Hc Hlt.
  unfold spacedDescription.
  destruct (span_stop isWhiteSpace (lit " ") c r eq_refl Hc) as [-> ->].
  cbn [lit]. cbn. cbn in Hlt. by rewrite Hlt.
Qed.

(** A description both parsers give back as it is: not empty, on one line,
    not starting with white space. *)
Definition plainDescription (desc : jsstring) : bool :=
  match desc with
  | [] => false
  | c :: _ => negb (isWhiteSpace c) && noLineTerminator desc
  end.

(** A name that fits between brackets (or parentheses). *)
Definition fits (closing : N) (inner : jsstring) : bool :=
  match inner with [] => false | _ => freeOf closing inner end.

Definition fitsScope (closing : N) (scope : option jsstring) : bool :=
  match scope with Some s => fits closing s | None => true end.

(** X7: [parseBracketed] reads back what [[category][scope] description]
    was written from: the category, the optional scope and the
    description. *)
Theorem parseBracketed_bracketedText (category : jsstring)
    (scope : option jsstring) (desc : jsstring) :
  fits rbracket category = true -> fitsScope rbracket scope = true ->
  plainDescription desc = true ->
  parseBracketed (bracketedText category scope desc)
  = mkParts (Some category) scope (Some desc).
Proof.
  intros Hc Hs Hd. unfold parseBracketed, bracketedText.
  assert (category <> [] /\ freeOf rbracket category = true) as [Hc1 Hc2]
    by (destruct category; [done|by split]).
  assert (spacedDescription (lit " " ++ desc) = Some desc) as Hdesc.
  { destruct desc as [|c r]; [done|]. unfold plainDescription in Hd.
    apply andb_true_iff in Hd as [Hc' Hlt]. apply negb_true_iff in Hc'.
    by apply spacedDescription_text. }
  rewrite (enclosed_text lbracket rbracket category _ Hc1 Hc2).
  destruct scope as [s|].
  - assert (s <> [] /\ freeOf rbracket s = true) as [Hs1 Hs2]
      by (cbn in Hs; destruct s; [done|by split]).
    rewrite <- !app_assoc.
    rewrite (enclosed_text lbracket rbracket s _ Hs1 Hs2).
    by rewrite Hdesc.
  - cbn [app]. change (enclosed lbracket rbracket (lit " " ++ desc)) with (@None (jsstring * jsstring)).
    by rewrite Hdesc.
Qed.

Lemma parseBracketed_bracketedText_witness :
  plainDescription (lit "add login") = true
  /\ parseBracketed (bracketedText (lit "feature") (Some (lit "auth")) (lit "add login"))
     = mkParts (Some (lit "feature")) (Some (lit "auth")) (Some (lit "add login")).
Proof.
  split; [reflexivity|].
  apply (parseBracketed_bracketedText (lit "feature") (Some (lit "auth")) (lit "add login"));
    reflexivity.
Defined.

(** X8: [parseBracketed] never loses text.  Either the message does not
    match and comes back whole as the description, without category or
    scope; or the message is the category in brackets (not empty, without
    a closing bracket), the optional scope in brackets, some white space
    and the description, which is not empty and holds no line terminator. *)
Theorem parseBracketed_parts (message : jsstring) :
  parseBracketed message = unparsed message
  \/ exists cat sc ws desc,
       parseBracketed message = mkParts (Some cat) sc (Some desc)
       /\ message
          = [lbracket] ++ cat ++ [rbracket]
            ++ match sc with Some s => [lbracket] ++ s ++ [rbracket] | None => [] end
            ++ ws ++ desc
       /\ fits rbracket cat = true /\ fitsScope rbracket sc = true
       /\ ws <> [] /\ forallb isWhiteSpace ws = true
       /\ desc <> [] /\ noLineTerminator desc = true.
Proof.
  unfold parseBracketed.
  destruct (enclosed lbracket rbracket message) as [[cat after]|] eqn:Ecat; [|by left].
  apply enclosed_inv in Ecat as (-> & Hc1 & Hc2).
  assert (fits rbracket cat = true) as Hcat by (destruct cat; done).
  destruct (enclosed lbracket rbracket after) as [[s after2]|] eqn:Esc.
  - apply enclosed_inv in Esc as (-> & Hs1 & Hs2).
    destruct (spacedDescription after2) as [desc|] eqn:Ed; [|by left].
    apply spacedDescription_inv in Ed as (ws & -> & Hws1 & Hws2 & Hd1 & Hd2).
    right. exists cat, (Some s), ws, desc.
    repeat split; try done.
    + by rewrite <- !app_assoc.
    + destruct s; done.
  - destruct (spacedDescription after) as [desc|] eqn:Ed; [|by left].
    apply spacedDescription_inv in Ed as (ws & -> & Hws1 & Hws2 & Hd1 & Hd2).
    right. exists cat, None, ws, desc. by repeat split.
Qed.

(** A description on one line, possibly starting with white space. *)
Definition oneLine (desc : jsstring) : bool :=
  match desc with [] => false | _ => noLineTerminator desc end.

(** A type made of word characters. *)
Definition isWord (type : jsstring) : bool :=
  match type with [] => false | _ => forallb isWordChar type end.

(** X9: [extractConventionalCommit] reads back what [type(scope): description]
    was written from: the type (word characters), the optional scope
    (without a closing parenthesis) and the description (one line). *)
Theorem extractConventionalCommit_conventionalText (type : jsstring)
    (scope : option jsstring) (desc : jsstring) :
  isWord type = true -> fitsScope rparen scope = true -> oneLine desc = true ->
  extractConventionalCommit (conventionalText type scope desc)
  = mkParts (Some type) scope (Some desc).
Proof.
  intros Ht Hs Hd. unfold extractConventionalCommit, conventionalText.
  assert (type <> [] /\ forallb isWordChar type = true) as [Ht1 Ht2]
    by (destruct type; [done|by split]).
  assert (restOfLine desc = Some desc) as Hrest.
  { destruct desc as [|c r]; [done|]. unfold restOfLine.
    cbn [oneLine] in Hd. by rewrite Hd. }
  destruct scope as [s|].
  - assert (s <> [] /\ freeOf rparen s = true) as [Hs1 Hs2]
      by (cbn in Hs; destruct s; [done|by split]).
    destruct (span_stop isWordChar type lparen
                (s ++ [rparen] ++ lit ": " ++ desc) Ht2 eq_refl) as [Htake Hdrop].
    rewrite <- !app_assoc. cbn [app] in *. rewrite Htake, Hdrop.
    destruct type as [|t0 type]; [done|].
    pose proof (enclosed_text lparen rparen s (lit ": " ++ desc) Hs1 Hs2) as He.
    cbn [app] in He. rewrite He.
    change (stripPrefix (lit ": ") (lit ": " ++ desc)) with (Some desc).
    cbv beta iota. by rewrite Hrest.
  - destruct (span_stop isWordChar type 58%N (32%N :: desc) Ht2 eq_refl)
      as [Htake Hdrop].
    cbn [app]. change (lit ": " ++ desc) with (58%N :: 32%N :: desc).
    rewrite Htake, Hdrop.
    destruct type as [|t0 type]; [done|].
    change (enclosed lparen rparen (58%N :: 32%N :: desc))
      with (@None (jsstring * jsstring)).
    cbv beta iota zeta.
    change (stripPrefix (lit ": ") (58%N :: 32%N :: desc)) with (Some desc).
    cbv beta iota. by rewrite Hrest.
Qed.

Lemma extractConventionalCommit_conventionalText_witness :
  isWord (lit "feat") = true
  /\ extractConventionalCommit (conventionalText (lit "feat") (Some (lit "api")) (lit "add route"))
     = mkParts (Some (lit "feat")) (Some (lit "api")) (Some (lit "add route")).
Proof.
  split; [reflexivity|].
  apply (extractConventionalCommit_conventionalText
           (lit "feat") (Some (lit "api")) (lit "add route")); reflexivity.
Defined.

End MessageParsers.

(* ===================================================================== *)
(** ** git/commitHistoryRetriever.ts: the log parser, the overlaps and the
       keywords *)
(* ===================================================================== *)

Module HistoryFacts.

Import CommitHistoryRetriever JsFacts.

(** *** [parseGitLog] *)

(** The lines git prints for one commit: [hash|subject], the files, and an
    empty line. *)
Definition commitLines (c : HistoricalCommit) : list jsstring :=
  (hash c ++ [pipe] ++ message c) :: files c ++ [[]].

Definition logText (commits : list HistoricalCommit) : jsstring :=
  join [LF] (flat_map commitLines commits).

(** A text the parser reads back as it is: not empty, without [|] and
    line feed. *)
Definition plainField (s : jsstring) : bool :=
  truthy s && forallb (fun c => negb (c =? pipe)%N && negb (c =? LF)%N) s.

(** A file line: a plain field that [trim] leaves alone. *)
Definition plainFile (f : jsstring) : bool :=
  plainField f && bool_decide (trim f = f).

(** The score [0] the parser gives every commit. *)
Definition unscored (q : Q) : bool :=
  (Qnum q =? 0)%Z && (Qden q =? 1)%positive.

Lemma unscored_spec (q : Q) : unscored q = true -> q = 0%Q.
Proof.
  destruct q as [n d]. unfold unscored. cbn [Qnum Qden].
  intros [Hn Hd]%andb_true_iff.
  apply Z.eqb_eq in Hn. apply Pos.eqb_eq in Hd. by subst.
Qed.

(** A commit as the parser builds it, from plain fields. *)
Definition plainCommit (c : HistoricalCommit) : bool :=
  plainField (hash c) && plainField (message c)
  && forallb plainFile (files c)
  && unscored (similarity c).

Lemma plainField_spec (s : jsstring) :
  plainField s = true -> s <> [] /\ (pipe ∉ s) /\ (LF ∉ s).
Proof.
  unfold plainField. intros [Ht Hall]%andb_true_iff.
  split; [by destruct s|].
  rewrite forallb_forall in Hall.
  split; intros Hin; apply list_elem_of_In, Hall in Hin;
    apply andb_true_iff in Hin as [H1 H2]; by rewrite N.eqb_refl in *.
Qed.

Lemma includes_pipe_false (s : jsstring) : pipe ∉ s -> includes [pipe] s = false.
Proof.
  intros H. apply not_true_is_false. intros Hin.
  by apply ResponseValidator.includes_single in Hin.
Qed.

Lemma split_header (h m : jsstring) :
  pipe ∉ h -> pipe ∉ m -> split pipe (h ++ [pipe] ++ m) = [h; m].
Proof.
  intros Hh Hm.
  change (h ++ [pipe] ++ m) with (join [pipe] [h; m]).
  apply split_join; [done|]. by repeat constructor.
Qed.

(** Reading the lines of one plain commit. *)
Lemma parse_commitLines (c : HistoricalCommit) (commits : list HistoricalCommit)
    (cur : Partial) (rest : list jsstring) :
  plainCommit c = true ->
  fold_left parseLine (commitLines c ++ rest) (commits, cur)
  = fold_left parseLine rest
      (pushIfComplete commits cur, Some (hash c, message c, files c)).
Proof.
  unfold plainCommit. rewrite !andb_true_iff.
  intros [[[Hh Hm] Hfiles] _].
  apply plainField_spec in Hh as (Hh1 & Hh2 & Hh3).
  apply plainField_spec in Hm as (Hm1 & Hm2 & Hm3).
  unfold commitLines. cbn [app fold_left]. unfold parseLine at 2.
  change (hash c ++ pipe :: message c) with (hash c ++ [pipe] ++ message c).
  assert (includes [pipe] (hash c ++ [pipe] ++ message c) = true) as ->.
  { apply ResponseValidator.includes_single.
    apply elem_of_app. right. by left. }
  rewrite (split_header _ _ Hh2 Hm2). cbn [nth].
  (* the file lines *)
  assert (forall (fs done : list jsstring) (acc : list HistoricalCommit),
            forallb plainFile fs = true ->
            fold_left parseLine (fs ++ [] :: rest)
              (acc, Some (hash c, message c, done))
            = fold_left parseLine rest
                (acc, Some (hash c, message c, done ++ fs))) as Hfold.
  { intros fs. induction fs as [|f fs IH]; intros done acc Hall.
    - rewrite app_nil_r. reflexivity.
    - cbn [forallb] in Hall. apply andb_true_iff in Hall as [Hf Hall].
      unfold plainFile in Hf. apply andb_true_iff in Hf as [Hf Htrim].
      apply bool_decide_eq_true in Htrim.
      apply plainField_spec in Hf as (Hf1 & Hf2 & Hf3).
      cbn [app fold_left]. unfold parseLine at 2.
      rewrite (includes_pipe_false f Hf2), Htrim.
      destruct f as [|x f]; [done|]. cbn [truthy].
      rewrite (IH (done ++ [x :: f]) acc Hall). by rewrite <- app_assoc. }
  rewrite <- app_assoc. cbn [app].
  by rewrite (Hfold (files c) [] _ Hfiles).
Qed.

Lemma pushIfComplete_plain (commits : list HistoricalCommit) (c : HistoricalCommit) :
  plainCommit c = true ->
  pushIfComplete commits (Some (hash c, message c, files c)) = commits ++ [c].
Proof.
  unfold plainCommit. rewrite !andb_true_iff.
  intros [[[Hh Hm] _] Hs].
  apply plainField_spec in Hh as (Hh1 & _). apply plainField_spec in Hm as (Hm1 & _).
  apply unscored_spec in Hs.
  unfold pushIfComplete. destruct c as [h m fs s]. cbn in *. subst s.
  destruct h; [done|]. by destruct m.
Qed.

Lemma parse_plain_commits (cs : list HistoricalCommit) :
  forall (commits : list HistoricalCommit) (cur : Partial),
  forallb plainCommit cs = true ->
  (let '(done, last) := fold_left parseLine (flat_map commitLines cs) (commits, cur) in
   pushIfComplete done last)
  = pushIfComplete commits cur ++ cs.
Proof.
  induction cs as [|c cs IH]; intros commits cur Hall.
  - cbn. by rewrite app_nil_r.
  - cbn [forallb] in Hall. apply andb_true_iff in Hall as [Hc Hall].
    cbn [flat_map]. rewrite (parse_commitLines c commits cur _ Hc).
    rewrite (IH _ _ Hall), (pushIfComplete_plain _ c Hc).
    by rewrite <- app_assoc.
Qed.

(** X10: [parseGitLog] reads back a log written from plain commits: hash
    and subject not empty and free of [|] and line feed, file paths
    likewise and without white space at their ends. *)
Theorem parseGitLog_logText (commits : list HistoricalCommit) :
  forallb plainCommit commits = true ->
  parseGitLog (logText commits) = commits.
Proof.
  intros Hall. unfold parseGitLog, logText.
  destruct commits as [|c cs]; [done|].
  rewrite split_join.
  - apply (parse_plain_commits (c :: cs) [] None Hall).
  - done.
  - apply Forall_forall. intros line Hin.
    apply list_elem_of_In, List.in_flat_map in Hin as (c' & Hc' & Hline).
    rewrite forallb_forall in Hall. specialize (Hall c' Hc').
    unfold plainCommit in Hall. rewrite !andb_true_iff in Hall.
    destruct Hall as [[[Hh Hm] Hfiles] _].
    apply plainField_spec in Hh as (_ & _ & Hh). apply plainField_spec in Hm as (_ & _ & Hm).
    destruct Hline as [<-|Hline].
    + rewrite !not_elem_of_app. repeat split; [done| |done].
      by intros [=]%list_elem_of_singleton.
    + apply List.in_app_iff in Hline as [Hf|[<-|[]]]; [|apply not_elem_of_nil].
      rewrite forallb_forall in Hfiles. specialize (Hfiles line Hf).
      unfold plainFile in Hfiles. apply andb_true_iff in Hfiles as [Hp _].
      by apply plainField_spec in Hp as (_ & _ & ?).
Qed.

Definition sampleCommits : list HistoricalCommit :=
  [mkCommit (lit "abc") (lit "fix login") [lit "src/a.ts"; lit "src/b.ts"] 0;
   mkCommit (lit "def") (lit "add validateEmail") [] 0].

Lemma parseGitLog_logText_witness :
  forallb plainCommit sampleCommits = true
  /\ parseGitLog (logText sampleCommits) = sampleCommits.
Proof.
  split; [reflexivity|].
  apply (parseGitLog_logText sampleCommits). reflexivity.
Defined.

(** A subject that contains [|] is cut at it. *)
Example parseGitLog_cuts_subject :
  List.map message (parseGitLog (lit "abc|feat: a|b" ++ [LF] ++ lit "x.ts"))
  = [lit "feat: a"].
Proof. reflexivity. Qed.

(** What every commit of the parser has. *)
Definition parsedFile (f : jsstring) : Prop := f <> [] /\ trim f = f.

Definition parsedCommit (c : HistoricalCommit) : Prop :=
  hash c <> [] /\ message c <> []
  /\ (pipe ∉ hash c) /\ (pipe ∉ message c)
  /\ similarity c = 0%Q
  /\ Forall parsedFile (files c).

Definition parsedPartial (cur : Partial) : Prop :=
  match cur with
  | Some (h, m, fs) => (pipe ∉ h) /\ (pipe ∉ m) /\ Forall parsedFile fs
  | None => True
  end.

Lemma nth_split_free (sep : N) (i : nat) (s : jsstring) :
  sep ∉ nth i (split sep s) [].
Proof.
  destruct (nth_in_or_default i (split sep s) []) as [Hin| ->].
  - pose proof (split_no_sep sep s) as Hall.
    rewrite Forall_forall in Hall. by apply Hall, list_elem_of_In.
  - apply not_elem_of_nil.
Qed.

Lemma pushIfComplete_parsed (commits : list HistoricalCommit) (cur : Partial) :
  Forall parsedCommit commits -> parsedPartial cur ->
  Forall parsedCommit (pushIfComplete commits cur).
Proof.
  intros Hc Hp. destruct cur as [[[h m] fs]|]; [|done].
  destruct Hp as (Hh & Hm & Hfs). cbn.
  destruct h as [|x h]; [done|]. destruct m as [|y m]; [done|]. cbn.
  apply Forall_app. split; [done|].
  apply Forall_cons. split; [|constructor].
  by repeat split.
Qed.

Lemma parseLine_parsed (st : list HistoricalCommit * Partial) (line : jsstring) :
  Forall parsedCommit st.1 -> parsedPartial st.2 ->
  Forall parsedCommit (parseLine st line).1 /\ parsedPartial (parseLine st line).2.
Proof.
  destruct st as [commits cur]. cbn [fst snd]. intros Hc Hp.
  unfold parseLine. destruct (includes [pipe] line).
  - cbn [fst snd]. split; [by apply pushIfComplete_parsed|].
    repeat split; [apply nth_split_free..|constructor].
  - destruct cur as [[[h m] fs]|]; [|done].
    destruct (truthy (trim line)) eqn:Ht; [|done].
    cbn [fst snd]. split; [done|].
    destruct Hp as (Hh & Hm & Hfs). repeat split; [done..|].
    apply Forall_app. split; [done|].
    apply Forall_cons. split; [|constructor].
    split; [by destruct (trim line)|apply trim_idem].
Qed.

(** X11: every commit [parseGitLog] returns has a hash and a subject that
    are not empty and hold no [|], the score [0], and file paths that are
    not empty and carry no white space at their ends, whatever the text. *)
Theorem parseGitLog_commits_parsed (logOutput : jsstring) :
  Forall parsedCommit (parseGitLog logOutput).
Proof.
  unfold parseGitLog.
  assert (forall lines st,
            Forall parsedCommit st.1 -> parsedPartial st.2 ->
            Forall parsedCommit (fold_left parseLine lines st).1
            /\ parsedPartial (fold_left parseLine lines st).2) as Hfold.
  { induction lines as [|line lines IH]; intros st H1 H2; [done|].
    cbn [fold_left]. by apply IH; apply parseLine_parsed. }
  destruct (Hfold (split LF logOutput) ([], None)) as [H1 H2]; [constructor|done|].
  destruct (fold_left parseLine (split LF logOutput) ([], None)) as [commits cur].
  by apply pushIfComplete_parsed.
Qed.

(** *** The score [0] *)

(** Some file of [files1] lies in the directory of some file of [files2]. *)
Definition sharesDirectory (files1 files2 : list jsstring) : bool :=
  existsb (fun f1 =>
             existsb (fun f2 => bool_decide (getDirectory f1 = getDirectory f2)) files2)
          files1.

Lemma sharesDirectory_spec (files1 files2 : list jsstring) :
  sharesDirectory files1 files2 = true
  <-> exists f1 f2, f1 ∈ files1 /\ f2 ∈ files2 /\ getDirectory f1 = getDirectory f2.
Proof.
  unfold sharesDirectory. rewrite existsb_exists. split.
  - intros (f1 & H1 & H). apply existsb_exists in H as (f2 & H2 & H).
    apply bool_decide_eq_true in H. exists f1, f2.
    by rewrite <- !list_elem_of_In in *.
  - intros (f1 & f2 & H1 & H2 & H). exists f1.
    split; [by apply list_elem_of_In|].
    apply existsb_exists. exists f2.
    split; [by apply list_elem_of_In|]. by apply bool_decide_eq_true.
Qed.

Lemma Qdiv_Z_zero (i u : Z) :
  (0 < u)%Z -> (inject_Z i / inject_Z u == 0)%Q <-> i = 0%Z.
Proof.
  intros Hu.
  assert (~ inject_Z u == 0)%Q as Hne.
  { change 0%Q with (inject_Z 0). rewrite inject_Z_injective. lia. }
  split.
  - intros H. apply inject_Z_injective. change (inject_Z 0) with 0%Q.
    rewrite <- (Qmult_div_r (inject_Z i) (inject_Z u) Hne).
    unfold Qdiv in H. unfold Qdiv. rewrite Qmult_assoc, (Qmult_comm (inject_Z u)).
    rewrite <- Qmult_assoc, (Qmult_comm (inject_Z u)), Qmult_assoc, H. ring.
  - intros ->. unfold Qdiv. change (inject_Z 0) with 0%Q. ring.
Qed.

Lemma jaccard_zero (set1 set2 : gset jsstring) :
  (jaccard set1 set2 == 0)%Q <-> set1 ## set2.
Proof.
  unfold jaccard, ratio.
  assert (size (set1 ∩ set2) <= size set1) as H1
    by apply subseteq_size, intersection_subseteq_l.
  assert (size (set1 ∩ set2) <= size set2) as H2
    by apply subseteq_size, intersection_subseteq_r.
  assert (set1 ## set2 <-> size (set1 ∩ set2) = 0) as ->.
  { rewrite size_empty_iff, disjoint_intersection. done. }
  destruct (Z.ltb_spec 0
              (Z.of_nat (size set1) + Z.of_nat (size set2)
               - Z.of_nat (size (set1 ∩ set2)))) as [Hpos|Hle].
  - rewrite (Qdiv_Z_zero _ _ Hpos). lia.
  - split; [lia|reflexivity].
Qed.

Lemma calculateDirectoryOverlap_zero (files1 files2 : list jsstring) :
  (calculateDirectoryOverlap files1 files2 == 0)%Q
  <-> sharesDirectory files1 files2 = false.
Proof.
  rewrite <- not_true_iff_false, sharesDirectory_spec.
  unfold calculateDirectoryOverlap.
  destruct files1 as [|a files1].
  { cbn. split; [|reflexivity]. intros _ (f1 & _ & H & _). by apply elem_of_nil in H. }
  destruct files2 as [|b files2].
  { cbn. split; [|reflexivity]. intros _ (_ & f2 & _ & H & _). by apply elem_of_nil in H. }
  cbn [length Nat.eqb orb]. rewrite jaccard_zero.
  rewrite elem_of_disjoint. split.
  - intros Hdis (f1 & f2 & H1 & H2 & Heq).
    apply (Hdis (getDirectory f1)); rewrite elem_of_list_to_set.
    + apply list_elem_of_In, List.in_map. by apply list_elem_of_In.
    + rewrite Heq. apply list_elem_of_In, List.in_map. by apply list_elem_of_In.
  - intros Hno d Hd1 Hd2. rewrite elem_of_list_to_set in Hd1, Hd2.
    apply list_elem_of_In, List.in_map_iff in Hd1 as (f1 & <- & H1).
    apply list_elem_of_In, List.in_map_iff in Hd2 as (f2 & Heq & H2).
    apply Hno. exists f1, f2. by rewrite <- !list_elem_of_In in *.
Qed.

Lemma calculateFileOverlap_zero (files1 files2 : list jsstring) :
  sharesDirectory files1 files2 = false ->
  (calculateFileOverlap files1 files2 == 0)%Q.
Proof.
  rewrite <- not_true_iff_false, sharesDirectory_spec. intros Hno.
  unfold calculateFileOverlap.
  destruct ((length files1 =? 0) || (length files2 =? 0)); [reflexivity|].
  rewrite jaccard_zero, elem_of_disjoint.
  intros f H1 H2. rewrite elem_of_list_to_set in H1, H2.
  apply Hno. by exists f, f.
Qed.

Section Zero.

Variable toLowerCase : jsstring -> jsstring.

Lemma calculateKeywordMatch_zero (message : jsstring) (keywords : list jsstring) :
  (calculateKeywordMatch toLowerCase message keywords == 0)%Q
  <-> keywordMatches toLowerCase message keywords = 0.
Proof.
  unfold calculateKeywordMatch.
  destruct keywords as [|k keywords]; [done|].
  cbn [length Nat.eqb].
  rewrite Qdiv_Z_zero by lia. lia.
Qed.

Lemma unrelated_scores_zero (commit : HistoricalCommit)
    (changedFiles keywords : list jsstring) :
  sharesDirectory (files commit) changedFiles = false ->
  keywordMatches toLowerCase (message commit) keywords = 0 ->
  (calculateSimilarity toLowerCase commit changedFiles keywords == 0)%Q.
Proof.
  intros Hs Hk.
  pose proof (calculateFileOverlap_zero _ _ Hs) as Hf0.
  apply calculateDirectoryOverlap_zero in Hs.
  apply calculateKeywordMatch_zero in Hk.
  rewrite calculateSimilarity_weightedSum.
  apply weightedSum_zero; [apply calculateFileOverlap_range
                          |apply calculateDirectoryOverlap_range
                          |apply calculateKeywordMatch_range|by repeat split].
Qed.

(** X12: a commit scores [0] exactly when none of its files lies in the
    directory of a changed file and no keyword occurs in its subject. *)
Theorem calculateSimilarity_zero (commit : HistoricalCommit)
    (changedFiles keywords : list jsstring) :
  (calculateSimilarity toLowerCase commit changedFiles keywords == 0)%Q
  <-> sharesDirectory (files commit) changedFiles = false
      /\ keywordMatches toLowerCase (message commit) keywords = 0.
Proof.
  split; [|intros [Hs Hk]; by apply unrelated_scores_zero].
  pose proof (calculateFileOverlap_range (files commit) changedFiles) as Hf.
  pose proof (calculateDirectoryOverlap_range (files commit) changedFiles) as Hd.
  pose proof (calculateKeywordMatch_range toLowerCase (message commit) keywords) as Hk.
  rewrite <- calculateDirectoryOverlap_zero, <- calculateKeywordMatch_zero.
  rewrite calculateSimilarity_weightedSum, weightedSum_zero by tauto.
  tauto.
Qed.

(** X13: every commit [findSimilarCommits] returns has a file in the
    directory of a changed file, or a keyword in its subject. *)
Theorem findSimilarCommits_only_related (maxCommits : Z) (logOutput : option jsstring)
    (changedFiles keywords : list jsstring) :
  Forall (fun c => sharesDirectory (files c) changedFiles = true
                   \/ 0 < keywordMatches toLowerCase (message c) keywords)
         (findSimilarCommits toLowerCase maxCommits logOutput changedFiles keywords).
Proof.
  destruct logOutput as [logOutput|]; [|constructor].
  unfold findSimilarCommits, rankCommits, slice.
  apply Forall_take, Forall_drop.
  apply sortBy_Forall. apply Forall_forall. intros c Hin.
  apply list_elem_of_In, List.filter_In in Hin as [Hin Hpos].
  apply Qpositive_spec in Hpos.
  apply List.in_map_iff in Hin as (c0 & <- & _).
  cbn [withSimilarity similarity files message] in *.
  destruct (sharesDirectory (files c0) changedFiles) eqn:Hs; [by left|right].
  destruct (keywordMatches toLowerCase (message c0) keywords) eqn:Hk; [|lia].
  assert (calculateSimilarity toLowerCase c0 changedFiles keywords == 0)%Q as H0
    by (by apply unrelated_scores_zero).
  rewrite H0 in Hpos. by apply Qlt_irrefl in Hpos.
Qed.

End Zero.

(** *** [getDirectory] *)

Lemma lastIndexOf_absent (c : N) (s : jsstring) :
  c ∉ s -> lastIndexOf c s = (-1)%Z.
Proof.
  induction s as [|x s IH]; [done|].
  rewrite not_elem_of_cons. intros [Hx Hs]. cbn [lastIndexOf].
  rewrite (IH Hs). cbn. by destruct (N.eqb_spec x c); [congruence|].
Qed.

Lemma lastIndexOf_last (c : N) (before after : jsstring) :
  c ∉ after -> lastIndexOf c (before ++ c :: after) = Z.of_nat (length before).
Proof.
  intros Hafter. induction before as [|x before IH].
  - cbn [app lastIndexOf length]. rewrite (lastIndexOf_absent c after Hafter).
    cbn. by rewrite N.eqb_refl.
  - cbn [app lastIndexOf length]. rewrite IH.
    destruct (Z.leb_spec 0 (Z.of_nat (length before))); lia.
Qed.

(** X14: [getDirectory] cuts a path at its last [/]: a name without [/]
    lies in [.], and [dir/base] lies in [dir] when [base] has no [/]. *)
Theorem getDirectory_of_path (dir base : jsstring) :
  slash ∉ base ->
  getDirectory base = lit "."
  /\ getDirectory (dir ++ [slash] ++ base) = dir.
Proof.
  intros Hbase. unfold getDirectory. split.
  - by rewrite (lastIndexOf_absent slash base Hbase).
  - cbn [app]. rewrite (lastIndexOf_last slash dir base Hbase).
    destruct (Z.eqb_spec (Z.of_nat (length dir)) (-1)); [lia|].
    rewrite Nat2Z.id. by rewrite take_app_length.
Qed.

Lemma getDirectory_of_path_witness :
  (slash ∉ lit "index.ts")
  /\ getDirectory (lit "index.ts") = lit "."
  /\ getDirectory (lit "src/git" ++ [slash] ++ lit "index.ts") = lit "src/git".
Proof.
  assert (slash ∉ lit "index.ts") as H.
  { intros Hin. apply list_elem_of_In in Hin. cbn in Hin.
    repeat (destruct Hin as [Hin|Hin]; [discriminate Hin|]). exact Hin. }
  split; [exact H|].
  apply (getDirectory_of_path (lit "src/git") (lit "index.ts") H).
Defined.

(** *** [calculateFileOverlap] *)

Lemma Qdiv_Z_one (i u : Z) :
  (0 < u)%Z -> (inject_Z i / inject_Z u == 1)%Q <-> i = u.
Proof.
  intros Hu.
  assert (~ inject_Z u == 0)%Q as Hne.
  { change 0%Q with (inject_Z 0). rewrite inject_Z_injective. lia. }
  split.
  - intros H. apply inject_Z_injective.
    rewrite <- (Qmult_div_r (inject_Z i) (inject_Z u) Hne).
    unfold Qdiv in H. unfold Qdiv. rewrite Qmult_assoc, (Qmult_comm (inject_Z u)).
    rewrite <- Qmult_assoc, (Qmult_comm (inject_Z u)), Qmult_assoc, H. ring.
  - intros ->. by apply Qmult_inv_r.
Qed.

Lemma jaccard_comm (set1 set2 : gset jsstring) :
  jaccard set1 set2 = jaccard set2 set1.
Proof.
  unfold jaccard. rewrite (comm_L (∩) set1 set2).
  by rewrite (Z.add_comm (Z.of_nat (size set1))).
Qed.

Lemma jaccard_one (set1 set2 : gset jsstring) :
  (jaccard set1 set2 == 1)%Q <-> set1 = set2 /\ set1 <> ∅.
Proof.
  unfold jaccard, ratio.
  assert (size (set1 ∩ set2) <= size set1) as H1
    by apply subseteq_size, intersection_subseteq_l.
  assert (size (set1 ∩ set2) <= size set2) as H2
    by apply subseteq_size, intersection_subseteq_r.
  destruct (Z.ltb_spec 0
              (Z.of_nat (size set1) + Z.of_nat (size set2)
               - Z.of_nat (size (set1 ∩ set2)))) as [Hpos|Hle].
  - rewrite (Qdiv_Z_one _ _ Hpos). split.
    + intros Heq.
      assert (set1 ∩ set2 = set1) as E1
        by (apply set_subseteq_size_eq; [apply intersection_subseteq_l|lia]).
      assert (set1 ∩ set2 = set2) as E2
        by (apply set_subseteq_size_eq; [apply intersection_subseteq_r|lia]).
      split; [congruence|].
      intros ->. rewrite size_empty in *. lia.
    + intros [<- _]. rewrite (idemp_L (∩) set1). lia.
  - split; [discriminate|].
    intros [<- Hne]. rewrite (idemp_L (∩) set1) in Hle.
    assert (size set1 <> 0) as Hsize
      by (intros H0; by apply size_empty_iff, leibniz_equiv in H0).
    lia.
Qed.

(** X15: the file overlap does not depend on the order of its arguments,
    and it is [1] exactly when the two lists are not empty and hold the
    same paths. *)
Theorem calculateFileOverlap_symmetric_full (files1 files2 : list jsstring) :
  calculateFileOverlap files1 files2 = calculateFileOverlap files2 files1
  /\ ((calculateFileOverlap files1 files2 == 1)%Q
      <-> files1 <> [] /\ forall f, f ∈ files1 <-> f ∈ files2).
Proof.
  unfold calculateFileOverlap. split.
  - rewrite orb_comm. by rewrite jaccard_comm.
  - destruct files1 as [|a files1].
    { cbn. split; [discriminate|]. by intros []. }
    destruct files2 as [|b files2].
    { cbn. split; [discriminate|]. intros [_ H].
      specialize (H a). rewrite elem_of_nil in H. exfalso. apply H. by left. }
    cbn [length Nat.eqb orb]. rewrite jaccard_one. split.
    + intros [Heq _]. split; [done|]. intros f.
      by rewrite <- !(elem_of_list_to_set (C := gset jsstring)), Heq.
    + intros [_ Hsame]. split.
      * apply set_eq. intros f. rewrite !elem_of_list_to_set. apply Hsame.
      * intros Hempty.
        assert (a ∈ (list_to_set (a :: files1) : gset jsstring)) as Hin
          by (rewrite elem_of_list_to_set; by left).
        rewrite Hempty in Hin. by apply elem_of_empty in Hin.
Qed.

(** *** [extractKeywords] *)

(** A symbol of the code context as the function reads it: its name and its
    type. *)
Definition isImportant (symbol : jsstring * jsstring) : bool :=
  bool_decide (symbol.2 = lit "function") || bool_decide (symbol.2 = lit "class").

Definition extractKeywords (symbols : list (jsstring * jsstring)) : list jsstring :=
  let importantSymbols := slice 0 5 (List.filter isImportant symbols) in
  fold_left (fun keywords symbol => keywords ++ [symbol.1]) importantSymbols [].

(** The view of an extracted symbol. *)
Definition nameAndType (s : CodeContextExtractor.CodeSymbol) : jsstring * jsstring :=
  (CodeContextExtractor.name s,
   CodeContextExtractor.typeString (CodeContextExtractor.type s)).

Lemma push_names (symbols : list (jsstring * jsstring)) (keywords : list jsstring) :
  fold_left (fun keywords symbol => keywords ++ [symbol.1]) symbols keywords
  = keywords ++ List.map fst symbols.
Proof.
  revert keywords. induction symbols as [|s symbols IH]; intros keywords; cbn.
  - by rewrite app_nil_r.
  - by rewrite IH, <- app_assoc.
Qed.

Lemma filter_sublist {A} (p : A -> bool) (l : list A) :
  List.filter p l `sublist_of` l.
Proof.
  induction l as [|x l IH]; cbn; [constructor|].
  destruct (p x); by constructor.
Qed.

Lemma map_sublist {A B} (f : A -> B) (l1 l2 : list A) :
  l1 `sublist_of` l2 -> List.map f l1 `sublist_of` List.map f l2.
Proof. induction 1; cbn; by constructor. Qed.

(** X16: the keywords are at most five names of function and class
    symbols, in the order of the symbols; when there are at most five such
    symbols every one of them gives a keyword. *)
Theorem extractKeywords_important (symbols : list (jsstring * jsstring)) :
  let keywords := extractKeywords symbols in
  length keywords <= 5
  /\ keywords `sublist_of` List.map fst symbols
  /\ Forall (fun k => exists t, (k, t) ∈ symbols
                                /\ (t = lit "function" \/ t = lit "class")) keywords
  /\ (length (List.filter isImportant symbols) <= 5 ->
      keywords = List.map fst (List.filter isImportant symbols)).
Proof.
  intros keywords. unfold keywords, extractKeywords.
  rewrite push_names, slice_0_take by done. cbn [app].
  change (Z.to_nat 5) with 5.
  repeat split.
  - rewrite length_map, length_take. lia.
  - apply map_sublist. etrans; [apply sublist_take|apply filter_sublist].
  - apply Forall_forall. intros k Hk.
    apply list_elem_of_In, List.in_map_iff in Hk as ([k' t] & <- & Hin).
    apply list_elem_of_In, elem_of_take in Hin as (i & Hin & _).
    apply list_elem_of_lookup_2, list_elem_of_In, List.filter_In in Hin as [Hin Himp].
    exists t. split; [by apply list_elem_of_In|].
    unfold isImportant in Himp. cbn in Himp.
    apply orb_true_iff in Himp as [H|H]; apply bool_decide_eq_true in H; auto.
  - intros Hlen. by rewrite take_ge.
Qed.

Example extractKeywords_sample :
  extractKeywords
    (List.map nameAndType
       [CodeContextExtractor.mkSymbol (lit "login") CodeContextExtractor.TFunction
          CodeContextExtractor.Added None (lit "a.ts");
        CodeContextExtractor.mkSymbol (lit "User") CodeContextExtractor.TInterface
          CodeContextExtractor.Added None (lit "a.ts");
        CodeContextExtractor.mkSymbol (lit "Session") CodeContextExtractor.TClass
          CodeContextExtractor.Deleted None (lit "b.ts")])
  = [lit "login"; lit "Session"].
Proof. reflexivity. Qed.

End HistoryFacts.

(* ===================================================================== *)
(** ** git/commitHistoryRetriever.ts: the passes of [CodeContextExtractor] *)
(* ===================================================================== *)

Module ExtractorFacts.

Import DiffHeader CodeContextExtractor JsFacts.

(** *** [deduplicateSymbols] *)

(** What the loop appends to [unique] when it starts with the keys [seen]. *)
Fixpoint dedupFrom (seen : gset jsstring) (symbols : list CodeSymbol)
  : list CodeSymbol :=
  match symbols with
  | [] => []
  | symbol :: symbols =>
      if bool_decide (dedupKey symbol ∈ seen) then dedupFrom seen symbols
      else symbol :: dedupFrom ({[dedupKey symbol]} ∪ seen) symbols
  end.

Lemma dedupFold_dedupFrom (symbols : list CodeSymbol) (seen : gset jsstring)
    (unique : list CodeSymbol) :
  snd (fold_left dedupStep symbols (seen, unique)) = unique ++ dedupFrom seen symbols.
Proof.
  revert seen unique.
  induction symbols as [|s symbols IH]; intros seen unique; cbn [fold_left dedupFrom].
  - by rewrite app_nil_r.
  - unfold dedupStep at 2. case_bool_decide; [apply IH|].
    rewrite IH, <- app_assoc. done.
Qed.

Lemma deduplicateSymbols_dedupFrom (symbols : list CodeSymbol) :
  deduplicateSymbols symbols = dedupFrom ∅ symbols.
Proof. unfold deduplicateSymbols. by rewrite dedupFold_dedupFrom. Qed.

Lemma dedupFrom_sublist (symbols : list CodeSymbol) (seen : gset jsstring) :
  dedupFrom seen symbols `sublist_of` symbols.
Proof.
  revert seen. induction symbols as [|s symbols IH]; intros seen; cbn; [constructor|].
  case_bool_decide; by constructor.
Qed.

Lemma dedupFrom_covers (symbols : list CodeSymbol) (seen : gset jsstring)
    (s : CodeSymbol) :
  s ∈ symbols ->
  dedupKey s ∈ seen \/ exists s', s' ∈ dedupFrom seen symbols /\ dedupKey s' = dedupKey s.
Proof.
  revert seen. induction symbols as [|x symbols IH]; intros seen Hin.
  { by apply elem_of_nil in Hin. }
  cbn [dedupFrom]. apply elem_of_cons in Hin as [->|Hin].
  - case_bool_decide; [by left|]. right. exists x. split; [by left|done].
  - case_bool_decide.
    + by apply IH.
    + destruct (IH ({[dedupKey x]} ∪ seen) Hin) as [Hseen|(s' & Hs' & Hk)].
      * apply elem_of_union in Hseen as [Hx%elem_of_singleton|Hseen]; [|by left].
        right. exists x. split; [by left|done].
      * right. exists s'. split; [by right|done].
Qed.

Lemma dedupFrom_distinct (symbols : list CodeSymbol) (seen : gset jsstring) :
  NoDup (List.map dedupKey symbols) ->
  (forall s, s ∈ symbols -> dedupKey s ∉ seen) ->
  dedupFrom seen symbols = symbols.
Proof.
  revert seen. induction symbols as [|x symbols IH]; intros seen Hnd Hnew; [done|].
  cbn [dedupFrom List.map] in *. apply NoDup_cons in Hnd as [Hx Hnd].
  case_bool_decide as Hin.
  { exfalso. apply (Hnew x); [by left|done]. }
  f_equal. apply IH; [done|].
  intros s Hs [Heq%elem_of_singleton|Hseen]%elem_of_union.
  - apply Hx. rewrite <- Heq. apply list_elem_of_In, List.in_map. by apply list_elem_of_In.
  - apply (Hnew s); [by right|done].
Qed.

Lemma deduplicateSymbols_keys (symbols : list CodeSymbol) :
  NoDup (List.map dedupKey (deduplicateSymbols symbols)).
Proof.
  unfold deduplicateSymbols.
  destruct (dedupFold_inv symbols (∅, [])) as [Hnd _]; [|exact Hnd].
  split; [constructor|]. intros u Hu. by apply not_elem_of_nil in Hu.
Qed.

(** X17: [deduplicateSymbols] drops symbols and keeps the order of the
    others, keeps a symbol for every key of its input, changes nothing when
    the keys are pairwise different, and so changes nothing when it is
    applied again. *)
Theorem deduplicateSymbols_keeps_one_per_key (symbols : list CodeSymbol) :
  let unique := deduplicateSymbols symbols in
  unique `sublist_of` symbols
  /\ (forall s, s ∈ symbols -> exists s', s' ∈ unique /\ dedupKey s' = dedupKey s)
  /\ (NoDup (List.map dedupKey symbols) -> unique = symbols)
  /\ deduplicateSymbols unique = unique.
Proof.
  cbn zeta. repeat split.
  - rewrite deduplicateSymbols_dedupFrom. apply dedupFrom_sublist.
  - intros s Hs. rewrite deduplicateSymbols_dedupFrom.
    destruct (dedupFrom_covers symbols ∅ s Hs) as [Hin|H]; [|done].
    by apply elem_of_empty in Hin.
  - intros Hnd. rewrite deduplicateSymbols_dedupFrom.
    apply dedupFrom_distinct; [done|]. intros s _. apply not_elem_of_empty.
  - rewrite (deduplicateSymbols_dedupFrom (deduplicateSymbols symbols)).
    apply dedupFrom_distinct; [apply deduplicateSymbols_keys|].
    intros s _. apply not_elem_of_empty.
Qed.

(** *** [levenshteinDistance] and [areSimilar] *)

(** The bounds of the cell in row [i] and column [j] of the matrix. *)
Definition within (i j v : nat) : Prop :=
  i - j <= v /\ j - i <= v /\ v <= Nat.max i j.

Lemma nextRow_within (c : N) (i : nat) (str2 : jsstring) :
  forall (j diag left : nat) (prev : list nat),
  length prev = length str2 ->
  within i j diag -> within (S i) j left ->
  (forall k up, prev !! k = Some up -> within i (S j + k) up) ->
  length (nextRow c str2 diag prev left) = length str2
  /\ forall k v, nextRow c str2 diag prev left !! k = Some v ->
                 within (S i) (S j + k) v.
Proof.
  induction str2 as [|d str2 IH]; intros j diag left prev Hlen Hdiag Hleft Hprev.
  { split; [done|]. intros k v Hk. by destruct k. }
  destruct prev as [|up prev]; [discriminate|].
  cbn [nextRow].
  set (cost := if (c =? d)%N then 0 else 1).
  set (v := Nat.min (Nat.min (up + 1) (left + 1)) (diag + cost)).
  assert (cost <= 1) as Hcost by (unfold cost; destruct (c =? d)%N; lia).
  assert (within i (S j) up) as Hup
    by (specialize (Hprev 0 up eq_refl); by rewrite Nat.add_0_r in Hprev).
  assert (within (S i) (S j) v) as Hv.
  { unfold within in *. unfold v. lia. }
  destruct (IH (S j) up v prev) as [Hl Hrow]; [by injection Hlen|done|done| |].
  { intros k u Hk. specialize (Hprev (S k) u Hk).
    by replace (S (S j) + k) with (S j + S k) by lia. }
  split; [cbn; by rewrite Hl|].
  intros [|k] w Hk.
  - injection Hk as <-. by rewrite Nat.add_0_r.
  - specialize (Hrow k w Hk). by replace (S j + S k) with (S (S j) + k) by lia.
Qed.

Lemma lastRow_within (str1 str2 : jsstring) :
  forall (i : nat) (prev : list nat),
  length prev = length str2 ->
  (forall k up, prev !! k = Some up -> within i (1 + k) up) ->
  length (lastRow str1 str2 (S i) prev) = length str2
  /\ forall k v, lastRow str1 str2 (S i) prev !! k = Some v ->
                 within (i + length str1) (1 + k) v.
Proof.
  induction str1 as [|c str1 IH]; intros i prev Hlen Hprev.
  { cbn [lastRow length]. rewrite Nat.add_0_r. by split. }
  cbn [lastRow length]. replace (S i - 1) with i by lia.
  destruct (nextRow_within c i str2 0 i (S i) prev Hlen) as [Hl Hrow];
    [unfold within; lia..|exact Hprev|].
  destruct (IH (S i) _ Hl Hrow) as [Hl' Hrow'].
  split; [done|]. by replace (i + S (length str1)) with (S i + length str1) by lia.
Qed.

Lemma last_lookup_default {A} (l : list A) (d : A) :
  l <> [] -> l !! (length l - 1) = Some (List.last l d).
Proof.
  induction l as [|x l IH]; [done|]. intros _.
  destruct l as [|y l]; [done|].
  cbn [length]. replace (S (S (length l)) - 1) with (S (length (y :: l) - 1))
    by (cbn [length]; lia).
  change (List.last (x :: y :: l) d) with (List.last (y :: l) d).
  by apply IH.
Qed.

Lemma levenshteinDistance_bounds_aux (str1 str2 : jsstring) :
  let distance := levenshteinDistance str1 str2 in
  length str1 - length str2 <= distance
  /\ length str2 - length str1 <= distance
  /\ distance <= Nat.max (length str1) (length str2).
Proof.
  unfold levenshteinDistance.
  destruct (lastRow_within str1 str2 0 (seq 1 (length str2))) as [Hl Hrow].
  { by rewrite length_seq. }
  { intros k up Hk. apply lookup_seq in Hk as [-> _]. unfold within. lia. }
  cbn zeta.
  destruct (decide (lastRow str1 str2 1 (seq 1 (length str2)) = [])) as [Hnil|Hne].
  - rewrite Hnil in *. cbn [List.last]. cbn [length] in Hl. lia.
  - pose proof (last_lookup_default _ (length str1) Hne) as Hlast.
    apply Hrow in Hlast. rewrite Hl in Hlast. unfold within in Hlast.
    assert (length str2 <> 0) as Hpos.
    { intros H0. apply Hne, nil_length_inv. lia. }
    cbn [Nat.add] in Hlast. lia.
Qed.

(** X18: the distance lies between the difference of the two lengths and
    the greater length. *)
Theorem levenshteinDistance_bounds (str1 str2 : jsstring) :
  let distance := levenshteinDistance str1 str2 in
  length str1 - length str2 <= distance
  /\ length str2 - length str1 <= distance
  /\ distance <= Nat.max (length str1) (length str2).
Proof. apply levenshteinDistance_bounds_aux. Qed.

Section Similar.

Variable toLowerCase : jsstring -> jsstring.

(** X19: [areSimilar] looks at the lower-cased forms of the two names only
    (lower-casing may change the number of code units).  The names are
    similar only when one lower-cased form contains the other or the lengths
    of the two lower-cased forms differ by at most three; and they are
    always similar when both lower-cased forms have at most three code
    units. *)
Theorem areSimilar_lengths (name1 name2 : jsstring) :
  let lower1 := toLowerCase name1 in
  let lower2 := toLowerCase name2 in
  (areSimilar toLowerCase name1 name2 = true ->
   includes lower2 lower1 = true \/ includes lower1 lower2 = true
   \/ (length lower1 <= length lower2 + 3 /\ length lower2 <= length lower1 + 3))
  /\ (length lower1 <= 3 -> length lower2 <= 3 ->
      areSimilar toLowerCase name1 name2 = true).
Proof.
  cbn zeta. unfold areSimilar.
  pose proof (levenshteinDistance_bounds_aux (toLowerCase name1) (toLowerCase name2))
    as (H1 & H2 & H3).
  destruct (includes (toLowerCase name2) (toLowerCase name1)); [by auto|].
  destruct (includes (toLowerCase name1) (toLowerCase name2)); [by auto|].
  cbn [orb]. split.
  - intros H%Nat.leb_le. right. right. lia.
  - intros Ha Hb. apply Nat.leb_le. lia.
Qed.

End Similar.

(** *** [detectRenames] *)

(** The array with its positions. *)
Definition indexed (symbols : list CodeSymbol) : list (nat * CodeSymbol) :=
  combine (seq 0 (length symbols)) symbols.

Lemma combine_seq_lookup (symbols : list CodeSymbol) (k i : nat) (s : CodeSymbol) :
  In (i, s) (combine (seq k (length symbols)) symbols)
  <-> k <= i /\ symbols !! (i - k) = Some s.
Proof.
  revert k. induction symbols as [|x symbols IH]; intros k; cbn [length seq combine].
  { split; [done|]. by intros [_ H]. }
  cbn [In]. rewrite IH. split.
  - intros [[= <- <-]|[Hle Hl]].
    + split; [lia|]. by rewrite Nat.sub_diag.
    + split; [lia|]. by replace (i - k) with (S (i - S k)) by lia.
  - intros [Hle Hl]. destruct (decide (i = k)) as [->|Hne].
    + left. rewrite Nat.sub_diag in Hl. by injection Hl as ->.
    + right. split; [lia|]. by replace (i - k) with (S (i - S k)) in Hl by lia.
Qed.

Lemma indexed_lookup (symbols : list CodeSymbol) (i : nat) (s : CodeSymbol) :
  In (i, s) (indexed symbols) <-> symbols !! i = Some s.
Proof.
  unfold indexed. rewrite combine_seq_lookup, Nat.sub_0_r.
  split; [by intros [_ ?]|]. intros H. split; [lia|done].
Qed.

Lemma positionsOf_spec (a : Action) (symbols : list CodeSymbol) (i : nat) :
  In i (positionsOf a symbols) <-> exists s, symbols !! i = Some s /\ action s = a.
Proof.
  unfold positionsOf. rewrite List.in_map_iff. split.
  - intros ([j s] & <- & Hin). apply List.filter_In in Hin as [Hin Ha].
    apply bool_decide_eq_true in Ha. apply indexed_lookup in Hin. by exists s.
  - intros (s & Hl & Ha). exists (i, s). split; [done|].
    apply List.filter_In. split; [by apply indexed_lookup|].
    by apply bool_decide_eq_true.
Qed.

Section Renames.

Variable toLowerCase : jsstring -> jsstring.

(** What [detectRenames] may have done to a symbol of [symbols]. *)
Definition renamedFrom (symbols : list CodeSymbol) (before after : CodeSymbol) : Prop :=
  after = before
  \/ (action before = Deleted /\ after = setAction Renamed before)
  \/ (action before = Added
      /\ exists d, d ∈ symbols /\ action d = Deleted
                   /\ type d = type before /\ file d = file before
                   /\ name d <> name before
                   /\ areSimilar toLowerCase (name d) (name before) = true
                   /\ after = setOldName (name d) (setAction Renamed before)).

Lemma renamedFrom_identity (symbols : list CodeSymbol) (before after : CodeSymbol) :
  renamedFrom symbols before after ->
  name after = name before /\ type after = type before /\ file after = file before.
Proof.
  intros [->|[[_ ->]|[_ (d & _ & _ & _ & _ & _ & _ & ->)]]]; by destruct before.
Qed.

Lemma alter_twice {A} (f g : A -> A) (i : nat) (l : list A) :
  alter f i (alter g i l) = alter (fun x => f (g x)) i l.
Proof.
  revert i. induction l as [|x l IH]; intros [|i]; cbn; [done..|].
  f_equal. apply IH.
Qed.

Lemma renameStep_renamedFrom (symbols current : list CodeSymbol) (del add : nat) :
  In del (positionsOf Deleted symbols) -> In add (positionsOf Added symbols) ->
  Forall2 (renamedFrom symbols) symbols current ->
  Forall2 (renamedFrom symbols) symbols (renameStep toLowerCase del add current).
Proof.
  intros (d0 & Hd0 & Hdel)%positionsOf_spec (a0 & Ha0 & Hadd)%positionsOf_spec Hall.
  unfold renameStep.
  destruct (current !! del) as [d|] eqn:Hd; [|done].
  destruct (current !! add) as [a|] eqn:Ha; [|done].
  destruct (bool_decide (type d = type a) && bool_decide (file d = file a)
            && negb (bool_decide (name d = name a))
            && areSimilar toLowerCase (name d) (name a)) eqn:Hcond; [|done].
  rewrite !andb_true_iff, negb_true_iff in Hcond.
  destruct Hcond as [[[Ht Hf] Hn] Hsim].
  apply bool_decide_eq_true in Ht, Hf. apply bool_decide_eq_false in Hn.
  pose proof (Forall2_lookup_lr _ _ _ _ _ _ Hall Hd0 Hd) as Hrd.
  pose proof (Forall2_lookup_lr _ _ _ _ _ _ Hall Ha0 Ha) as Hra.
  destruct (renamedFrom_identity _ _ _ Hrd) as (Hdn & Hdt & Hdf).
  destruct (renamedFrom_identity _ _ _ Hra) as (Han & Hat & Haf).
  rewrite alter_twice.
  apply Forall2_alter_r.
  - apply Forall2_alter_r; [exact Hall|].
    intros x y Hx Hy _. rewrite Ha0 in Hx. injection Hx as <-.
    rewrite Ha in Hy. injection Hy as <-.
    right. right. split; [exact Hadd|].
    exists d0. rewrite <- Hdn, <- Hdt, <- Hdf, <- Han, <- Hat, <- Haf.
    split; [by eapply list_elem_of_lookup_2|].
    repeat split; try done.
    destruct Hra as [->|[[Hx _]|[_ (d' & _ & _ & _ & _ & _ & _ & ->)]]];
      [done|congruence|by destruct a0].
  - intros x y Hx Hy Hxy. rewrite Hd0 in Hx. injection Hx as <-.
    right. left. split; [exact Hdel|].
    destruct Hxy as [->|[[_ ->]|[Hx _]]]; [done|by destruct d0|congruence].
Qed.

Lemma detectRenames_fold (symbols : list CodeSymbol) (deleted added : list nat) :
  Forall (fun del => In del (positionsOf Deleted symbols)) deleted ->
  Forall (fun add => In add (positionsOf Added symbols)) added ->
  forall current,
  Forall2 (renamedFrom symbols) symbols current ->
  Forall2 (renamedFrom symbols) symbols
    (fold_left (fun symbols del =>
                  fold_left (fun symbols add => renameStep toLowerCase del add symbols)
                            added symbols)
               deleted current).
Proof.
  intros Hdel Hadd. induction Hdel as [|del deleted Hd _ IH]; intros current Hall; [done|].
  cbn [fold_left]. apply IH. clear IH.
  revert current Hall. induction Hadd as [|add added Ha _ IH]; intros current Hall; [done|].
  cbn [fold_left]. apply IH. by apply renameStep_renamedFrom.
Qed.

(** X20: [detectRenames] keeps every symbol at its place with its name,
    type and file.  It changes a deleted symbol only by marking it renamed,
    and an added symbol only by marking it renamed and recording as old name
    the name of a deleted symbol of the same type and file whose name
    differs and is similar. *)
Theorem detectRenames_renamedFrom (symbols : list CodeSymbol) :
  Forall2 (renamedFrom symbols) symbols (detectRenames toLowerCase symbols)
  /\ List.map (fun s => (name s, type s, file s)) (detectRenames toLowerCase symbols)
     = List.map (fun s => (name s, type s, file s)) symbols.
Proof.
  assert (Forall2 (renamedFrom symbols) symbols (detectRenames toLowerCase symbols)) as H.
  { unfold detectRenames. apply detectRenames_fold.
    - by apply Forall_forall; intros i Hi%list_elem_of_In.
    - by apply Forall_forall; intros i Hi%list_elem_of_In.
    - apply Forall_Forall2_diag, Forall_forall. intros s _. by left. }
  split; [exact H|].
  induction H as [|before after l k Hr _ IH]; [done|].
  cbn [List.map]. rewrite IH.
  by destruct (renamedFrom_identity _ _ _ Hr) as (-> & -> & ->).
Qed.

End Renames.

(** *** [detectModifications] *)

(** [symbolMap.keys()] and [symbolMap.get(k)] (the empty list when [k] is
    no key). *)
Definition keysOf (symbolMap : list (jsstring * list nat)) : list jsstring :=
  List.map fst symbolMap.

Fixpoint membersOf (symbolMap : list (jsstring * list nat)) (k : jsstring)
  : list nat :=
  match symbolMap with
  | [] => []
  | (k', syms) :: rest => if bool_decide (k' = k) then syms else membersOf rest k
  end.

(** The positions of the pairs whose symbol has the key [k]. *)
Definition positionsWith (k : jsstring) (pairs : list (nat * CodeSymbol)) : list nat :=
  List.map fst (List.filter (fun p => bool_decide (groupKey (snd p) = k)) pairs).

(** Some symbol with the key [k] has the action [a]. *)
Definition hasAction (symbols : list CodeSymbol) (k : jsstring) (a : Action) : bool :=
  existsb (fun s => bool_decide (groupKey s = k) && bool_decide (action s = a)) symbols.

(** The key [k] has an added and a deleted symbol. *)
Definition paired (symbols : list CodeSymbol) (k : jsstring) : bool :=
  hasAction symbols k Added && hasAction symbols k Deleted.

(** What becomes of a symbol of [symbols]. *)
Definition modifiedIn (symbols : list CodeSymbol) (s : CodeSymbol) : CodeSymbol :=
  if paired symbols (groupKey s) then markModified s else s.

Lemma groupPush_members (key : jsstring) (i : nat)
    (symbolMap : list (jsstring * list nat)) (k : jsstring) :
  membersOf (groupPush key i symbolMap) k
  = if bool_decide (key = k) then membersOf symbolMap k ++ [i]
    else membersOf symbolMap k.
Proof.
  induction symbolMap as [|[k' syms] rest IH]; cbn [groupPush membersOf].
  - by case_bool_decide.
  - destruct (decide (k' = key)) as [->|Hne].
    + rewrite bool_decide_eq_true_2 by done. cbn [membersOf]. by case_bool_decide.
    + rewrite (bool_decide_eq_false_2 (k' = key)) by done. cbn [membersOf].
      rewrite IH. repeat case_bool_decide; congruence.
Qed.

Lemma groupPush_keys (key : jsstring) (i : nat)
    (symbolMap : list (jsstring * list nat)) :
  keysOf (groupPush key i symbolMap)
  = if bool_decide (key ∈ keysOf symbolMap) then keysOf symbolMap
    else keysOf symbolMap ++ [key].
Proof.
  induction symbolMap as [|[k' syms] rest IH]; cbn [groupPush keysOf List.map fst].
  - rewrite bool_decide_eq_false_2; [done|]. apply not_elem_of_nil.
  - destruct (decide (k' = key)) as [->|Hne].
    + rewrite bool_decide_eq_true_2 by done. cbn [List.map fst].
      rewrite bool_decide_eq_true_2; [done|]. by left.
    + rewrite (bool_decide_eq_false_2 (k' = key)) by done. cbn [List.map fst].
      fold (keysOf (groupPush key i rest)). fold (keysOf rest). rewrite IH.
      destruct (decide (key ∈ keysOf rest)) as [Hin|Hnin].
      * rewrite !bool_decide_eq_true_2; [done|by right|done].
      * rewrite !bool_decide_eq_false_2; [done| |done].
        intros [?|?]%elem_of_cons; congruence.
Qed.

Definition groupStep (symbolMap : list (jsstring * list nat)) (p : nat * CodeSymbol)
  : list (jsstring * list nat) :=
  groupPush (groupKey (snd p)) (fst p) symbolMap.

Lemma groupFold_members (pairs : list (nat * CodeSymbol))
    (symbolMap : list (jsstring * list nat)) (k : jsstring) :
  membersOf (fold_left groupStep pairs symbolMap) k
  = membersOf symbolMap k ++ positionsWith k pairs.
Proof.
  revert symbolMap. induction pairs as [|p pairs IH]; intros symbolMap.
  - cbn. by rewrite app_nil_r.
  - cbn [fold_left]. rewrite IH. unfold groupStep. rewrite groupPush_members.
    unfold positionsWith. cbn [List.filter].
    case_bool_decide; [|done]. cbn [List.map]. by rewrite <- app_assoc.
Qed.

Lemma groupFold_keys (pairs : list (nat * CodeSymbol))
    (symbolMap : list (jsstring * list nat)) :
  NoDup (keysOf symbolMap) ->
  NoDup (keysOf (fold_left groupStep pairs symbolMap))
  /\ forall k, k ∈ keysOf (fold_left groupStep pairs symbolMap)
               <-> k ∈ keysOf symbolMap \/ exists p, In p pairs /\ groupKey (snd p) = k.
Proof.
  revert symbolMap. induction pairs as [|p pairs IH]; intros symbolMap Hnd.
  - cbn [fold_left]. split; [done|]. intros k. split; [by left|].
    by intros [?|(p & [] & _)].
  - cbn [fold_left].
    assert (NoDup (keysOf (groupStep symbolMap p))
            /\ forall k, k ∈ keysOf (groupStep symbolMap p)
                         <-> k ∈ keysOf symbolMap \/ groupKey (snd p) = k) as [Hnd' Hk].
    { unfold groupStep. rewrite groupPush_keys. case_bool_decide as Hin.
      - split; [done|]. intros k. split; [by left|]. by intros [?| <-].
      - split.
        + apply NoDup_app. split; [done|]. split; [|apply NoDup_singleton].
          by intros x Hx ->%list_elem_of_singleton.
        + intros k. rewrite elem_of_app, list_elem_of_singleton.
          split; (intros [?|?]; [by left|by right]). }
    destruct (IH _ Hnd') as [Hnd'' Hk'']. split; [done|].
    intros k. rewrite Hk'', Hk. cbn [In]. split.
    * intros [[?|?]|(q & ? & ?)]; [by left|right; exists p; by auto|right; exists q; by auto].
    * intros [?|(q & [<-|?] & ?)]; [by auto|by auto|right; exists q; by auto].
Qed.

Lemma membersOf_lookup (symbolMap : list (jsstring * list nat)) (k : jsstring)
    (syms : list nat) :
  NoDup (keysOf symbolMap) -> In (k, syms) symbolMap -> membersOf symbolMap k = syms.
Proof.
  induction symbolMap as [|[k' syms'] rest IH]; [done|].
  cbn [keysOf List.map fst]. intros [Hk' Hnd]%NoDup_cons [[= -> ->]|Hin]; cbn [membersOf].
  - by rewrite bool_decide_eq_true_2.
  - rewrite bool_decide_eq_false_2; [by apply IH|].
    intros ->. apply Hk', list_elem_of_In, List.in_map_iff. by exists (k, syms).
Qed.

Lemma positionsWith_indexed (symbols : list CodeSymbol) (k : jsstring) (i : nat) :
  In i (positionsWith k (indexed symbols))
  <-> exists s, symbols !! i = Some s /\ groupKey s = k.
Proof.
  unfold positionsWith. rewrite List.in_map_iff. split.
  - intros ([j s] & <- & Hin). apply List.filter_In in Hin as [Hin Hk].
    apply bool_decide_eq_true in Hk. apply indexed_lookup in Hin. by exists s.
  - intros (s & Hl & Hk). exists (i, s). split; [done|].
    apply List.filter_In. split; [by apply indexed_lookup|].
    by apply bool_decide_eq_true.
Qed.

(** The groups of [groupSymbols]: distinct keys, a group for the key of
    every symbol, and in the group of [k] the positions of the symbols with
    the key [k]. *)
Lemma groupSymbols_spec (symbols : list CodeSymbol) :
  NoDup (keysOf (groupSymbols symbols))
  /\ (forall i s, symbols !! i = Some s -> groupKey s ∈ keysOf (groupSymbols symbols))
  /\ (forall k syms, In (k, syms) (groupSymbols symbols) ->
                     syms = positionsWith k (indexed symbols)).
Proof.
  unfold groupSymbols. fold (indexed symbols).
  change (fun symbolMap p => groupPush (groupKey (snd p)) (fst p) symbolMap)
    with groupStep.
  destruct (groupFold_keys (indexed symbols) []) as [Hnd Hk]; [constructor|].
  split; [exact Hnd|]. split.
  - intros i s Hl. apply Hk. right. exists (i, s). split; [|done].
    by apply indexed_lookup.
  - intros k syms Hin. rewrite <- (membersOf_lookup _ k syms Hnd Hin).
    by rewrite groupFold_members.
Qed.

Lemma markModified_idem (s : CodeSymbol) : markModified (markModified s) = markModified s.
Proof.
  destruct s as [n t a o f]. by destruct a.
Qed.

Lemma fold_alter_lookup {A} (f : A -> A) (syms : list nat) (l : list A) (j : nat) :
  (forall x, f (f x) = f x) ->
  fold_left (fun l i => alter f i l) syms l !! j
  = if bool_decide (j ∈ syms) then f <$> l !! j else l !! j.
Proof.
  intros Hf. revert l. induction syms as [|i syms IH]; intros l; cbn [fold_left].
  - by rewrite bool_decide_eq_false_2 by apply not_elem_of_nil.
  - rewrite IH. destruct (decide (i = j)) as [->|Hne].
    + rewrite list_lookup_alter_eq.
      rewrite (bool_decide_eq_true_2 (j ∈ j :: syms)) by (by left).
      case_bool_decide; [|done].
      destruct (l !! j); cbn; [by rewrite Hf|done].
    + rewrite list_lookup_alter_ne by done.
      destruct (decide (j ∈ syms)) as [Hin|Hnin].
      * rewrite !bool_decide_eq_true_2; [done|by right|done].
      * rewrite !bool_decide_eq_false_2; [done| |done].
        intros [?|?]%elem_of_cons; congruence.
Qed.

Lemma someHas_hasAction (symbols current : list CodeSymbol) (k : jsstring) (a : Action) :
  (forall i, In i (positionsWith k (indexed symbols)) -> current !! i = symbols !! i) ->
  someHas a (positionsWith k (indexed symbols)) current = hasAction symbols k a.
Proof.
  intros Hsame. apply eq_true_iff_eq. unfold someHas, hasAction.
  rewrite !existsb_exists. split.
  - intros (i & Hi & H). rewrite (Hsame i Hi) in H.
    apply positionsWith_indexed in Hi as (s & Hl & Hk). rewrite Hl in H.
    exists s. split; [by eapply list_elem_of_In, list_elem_of_lookup_2|].
    by rewrite bool_decide_eq_true_2.
  - intros (s & Hin & [Hk Ha]%andb_true_iff).
    apply bool_decide_eq_true in Hk.
    apply list_elem_of_In, list_elem_of_lookup in Hin as (i & Hl).
    assert (In i (positionsWith k (indexed symbols))) as Hi
      by (apply positionsWith_indexed; by exists s).
    exists i. split; [done|]. by rewrite (Hsame i Hi), Hl.
Qed.

(** The loop over the groups: the groups done so far are settled, the others
    untouched. *)
Definition settled (symbols : list CodeSymbol) (done : list jsstring)
    (current : list CodeSymbol) : Prop :=
  length current = length symbols
  /\ forall i s, symbols !! i = Some s ->
       current !! i
       = Some (if bool_decide (groupKey s ∈ done) then modifiedIn symbols s else s).

Definition modifyGroup (symbols : list CodeSymbol) (group : jsstring * list nat)
  : list CodeSymbol :=
  let syms := snd group in
  let hasAdded := someHas Added syms symbols in
  let hasDeleted := someHas Deleted syms symbols in
  if hasAdded && hasDeleted then
    fold_left (fun symbols i => alter markModified i symbols) syms symbols
  else symbols.

Lemma modifyGroup_settled (symbols current : list CodeSymbol)
    (done : list jsstring) (k : jsstring) :
  k ∉ done ->
  settled symbols done current ->
  settled symbols (done ++ [k])
    (modifyGroup current (k, positionsWith k (indexed symbols))).
Proof.
  intros Hk [Hlen Hcur].
  assert (forall i, In i (positionsWith k (indexed symbols)) ->
                    current !! i = symbols !! i) as Hsame.
  { intros i (s & Hl & Hs)%positionsWith_indexed.
    rewrite (Hcur i s Hl), Hl, bool_decide_eq_false_2; [done|]. by rewrite Hs. }
  unfold modifyGroup. cbn [snd].
  rewrite !(someHas_hasAction symbols current k) by done.
  fold (paired symbols k).
  assert (forall i s, symbols !! i = Some s -> groupKey s <> k ->
                      ~ In i (positionsWith k (indexed symbols))) as Hother.
  { intros i s Hl Hne (s' & Hl' & Hs')%positionsWith_indexed. congruence. }
  destruct (paired symbols k) eqn:Hp.
  - split.
    { clear -Hlen. revert current Hlen.
      induction (positionsWith k (indexed symbols)) as [|i syms IH];
        intros current Hlen; [done|].
      cbn [fold_left]. apply IH. by rewrite length_alter. }
    intros i s Hl. rewrite (fold_alter_lookup _ _ _ _ markModified_idem).
    destruct (decide (groupKey s = k)) as [Hs|Hne].
    + rewrite bool_decide_eq_true_2
        by (apply list_elem_of_In, positionsWith_indexed; by exists s).
      rewrite (Hcur i s Hl), bool_decide_eq_false_2 by (by rewrite Hs).
      rewrite bool_decide_eq_true_2 by (rewrite Hs, elem_of_app; right; by left).
      cbn. unfold modifiedIn. by rewrite Hs, Hp.
    + rewrite bool_decide_eq_false_2
        by (intros Hin%list_elem_of_In; by eapply Hother).
      rewrite (Hcur i s Hl). f_equal.
      apply (f_equal (fun b : bool => if b then modifiedIn symbols s else s)).
      apply bool_decide_ext.
      rewrite elem_of_app, list_elem_of_singleton. tauto.
  - split; [done|]. intros i s Hl. rewrite (Hcur i s Hl). f_equal.
    destruct (decide (groupKey s = k)) as [Hs|Hne].
    + rewrite bool_decide_eq_false_2 by (by rewrite Hs).
      rewrite bool_decide_eq_true_2 by (rewrite Hs, elem_of_app; right; by left).
      unfold modifiedIn. by rewrite Hs, Hp.
    + apply (f_equal (fun b : bool => if b then modifiedIn symbols s else s)).
      apply bool_decide_ext.
      rewrite elem_of_app, list_elem_of_singleton. tauto.
Qed.

Lemma modifyGroups_settled (symbols : list CodeSymbol)
    (groups : list (jsstring * list nat)) :
  forall (done : list jsstring) (current : list CodeSymbol),
  NoDup (done ++ keysOf groups) ->
  Forall (fun g => snd g = positionsWith (fst g) (indexed symbols)) groups ->
  settled symbols done current ->
  settled symbols (done ++ keysOf groups) (fold_left modifyGroup groups current).
Proof.
  induction groups as [|[k syms] groups IH]; intros done current Hnd Hall Hs.
  - cbn. by rewrite app_nil_r.
  - cbn [fold_left keysOf List.map fst] in *.
    apply Forall_cons in Hall as [Hsyms Hall]. cbn [fst snd] in Hsyms. subst syms.
    replace (done ++ k :: List.map fst groups)
      with ((done ++ [k]) ++ keysOf groups) in * by (by rewrite <- app_assoc).
    apply IH; [done|done|].
    apply modifyGroup_settled; [|done].
    apply NoDup_app in Hnd as [Hnd _]. apply NoDup_app in Hnd as (_ & Hdis & _).
    intros Hin. apply (Hdis k Hin). by left.
Qed.

Lemma detectModifications_modifiedIn (symbols : list CodeSymbol) :
  detectModifications symbols = List.map (modifiedIn symbols) symbols.
Proof.
  destruct (groupSymbols_spec symbols) as (Hnd & Hkeys & Hgroups).
  destruct (modifyGroups_settled symbols (groupSymbols symbols) [] symbols)
    as [Hlen Hcur].
  - done.
  - apply Forall_forall. intros [k syms] Hin%list_elem_of_In. by apply Hgroups.
  - split; [done|]. intros i s Hl. rewrite Hl.
    rewrite bool_decide_eq_false_2; [done|apply not_elem_of_nil].
  - change (fold_left modifyGroup (groupSymbols symbols) symbols)
      with (detectModifications symbols) in *.
    apply list_eq. intros i.
    destruct (symbols !! i) as [s|] eqn:Hl.
    + rewrite (Hcur i s Hl), bool_decide_eq_true_2 by (by eapply Hkeys).
      change (List.map (modifiedIn symbols) symbols)
        with (modifiedIn symbols <$> symbols).
      by rewrite list_lookup_fmap, Hl.
    + change (List.map (modifiedIn symbols) symbols)
        with (modifiedIn symbols <$> symbols).
      rewrite list_lookup_fmap, Hl. cbn.
      apply lookup_ge_None. rewrite Hlen. by apply lookup_ge_None.
Qed.

Lemma modifiedIn_groupKey (symbols : list CodeSymbol) (s : CodeSymbol) :
  groupKey (modifiedIn symbols s) = groupKey s.
Proof.
  unfold modifiedIn, markModified.
  destruct (paired symbols (groupKey s)); [|done]. by case_bool_decide.
Qed.

Lemma hasAction_intro (symbols : list CodeSymbol) (s : CodeSymbol) :
  s ∈ symbols -> hasAction symbols (groupKey s) (action s) = true.
Proof.
  intros Hin. apply existsb_exists. exists s.
  split; [by apply list_elem_of_In|]. by rewrite !bool_decide_eq_true_2.
Qed.

(** No key has an added and a deleted symbol. *)
Definition unpaired (symbols : list CodeSymbol) : Prop :=
  forall s1 s2, s1 ∈ symbols -> s2 ∈ symbols -> groupKey s1 = groupKey s2 ->
                action s1 = Added -> action s2 = Deleted -> False.

Lemma detectModifications_unpaired (symbols : list CodeSymbol) :
  unpaired (detectModifications symbols).
Proof.
  rewrite detectModifications_modifiedIn.
  intros s1 s2 Hin1%list_elem_of_In Hin2%list_elem_of_In Hkey Ha Hd.
  apply List.in_map_iff in Hin1 as (b1 & <- & Hb1%list_elem_of_In).
  apply List.in_map_iff in Hin2 as (b2 & <- & Hb2%list_elem_of_In).
  rewrite !modifiedIn_groupKey in Hkey.
  unfold modifiedIn in Ha, Hd. rewrite <- Hkey in Hd.
  destruct (paired symbols (groupKey b1)) eqn:Hp.
  - unfold markModified in Ha. by case_bool_decide; [congruence|].
  - unfold paired in Hp. apply andb_false_iff in Hp as [Hp|Hp].
    + rewrite <- Ha, hasAction_intro in Hp; done.
    + rewrite Hkey, <- Hd, hasAction_intro in Hp; done.
Qed.


(** *** [extract] *)

Section Extract.

Variable regexMatch : Pattern -> jsstring -> option Match.
Variable toLowerCase : jsstring -> jsstring.

(** A symbol as the scan of the diff pushes it. *)
Definition scanned (s : CodeSymbol) : Prop :=
  file s <> [] /\ oldName s = None /\ (action s = Added \/ action s = Deleted).

(** A symbol of the result. *)
Definition reported (s : CodeSymbol) : Prop :=
  file s <> [] /\ (oldName s <> None -> action s = Renamed).

Lemma extractSymbolsFromLine_scanned (line : jsstring) (a : Action) (f : jsstring) :
  f <> [] -> a = Added \/ a = Deleted ->
  Forall scanned (extractSymbolsFromLine regexMatch line a f).
Proof.
  intros Hf Ha.
  assert (forall p t, Forall scanned (symbolOf regexMatch p t line a f)) as Hsym.
  { intros p t. unfold symbolOf. destruct (regexMatch p line); [|constructor].
    apply Forall_cons. split; [|constructor]. by repeat split. }
  unfold extractSymbolsFromLine. rewrite !Forall_app. repeat split; try apply Hsym.
  unfold importSymbols.
  destruct (regexMatch ImportStmt line) as [m|]; [|constructor].
  destruct (importList m) as [imports|]; [|constructor].
  destruct (CodeContextExtractor.truthy imports); [|constructor].
  apply Forall_forall. intros s Hin%list_elem_of_In.
  apply List.in_flat_map in Hin as (imp & _ & Hin).
  destruct (CodeContextExtractor.truthy (trim (beforeAs (trim imp)))); [|done].
  destruct Hin as [<-|[]]. by repeat split.
Qed.

Lemma collectSymbols_scanned (diff : jsstring) :
  Forall scanned (collectSymbols regexMatch diff).
Proof.
  unfold collectSymbols.
  assert (forall lines st, Forall scanned (snd st) ->
            Forall scanned (snd (fold_left (extractLine regexMatch) lines st))) as Hfold.
  { induction lines as [|line lines IH]; intros st Hst; [done|].
    cbn [fold_left]. apply IH. destruct st as [currentFile symbols].
    unfold extractLine. destruct (isHeader line).
    { by destruct (matchPath line). }
    destruct currentFile as [|c currentFile]; [done|]. cbn [CodeContextExtractor.truthy negb snd].
    cbn [snd] in Hst.
    repeat match goal with
           | |- context [if ?b then _ else _] => destruct b
           end;
      rewrite ?Forall_app; repeat split; try done;
      apply extractSymbolsFromLine_scanned; auto. }
  by apply Hfold.
Qed.

Lemma sublist_unpaired (l1 l2 : list CodeSymbol) :
  l1 `sublist_of` l2 -> unpaired l2 -> unpaired l1.
Proof.
  intros Hsub Hun s1 s2 H1 H2. apply Hun; by eapply elem_of_sublist.
Qed.

(** X22: every symbol [extract] reports has a file, and an old name only
    when it is marked renamed; and no name, type and file is reported both
    as added and as deleted. *)
Theorem extractSymbols_reported (diff : jsstring) :
  let symbols := extractSymbols regexMatch toLowerCase diff in
  Forall reported symbols /\ unpaired symbols.
Proof.
  cbn zeta. unfold extractSymbols.
  set (scannedSymbols := collectSymbols regexMatch diff).
  set (renamed := detectRenames toLowerCase scannedSymbols).
  pose proof (collectSymbols_scanned diff) as Hscan. fold scannedSymbols in Hscan.
  assert (Forall reported renamed) as Hren.
  { assert (Forall2 (renamedFrom toLowerCase scannedSymbols) scannedSymbols renamed)
      as Hall.
    { unfold renamed, detectRenames. apply detectRenames_fold.
      - by apply Forall_forall; intros i Hi%list_elem_of_In.
      - by apply Forall_forall; intros i Hi%list_elem_of_In.
      - apply Forall_Forall2_diag, Forall_forall. intros s _. by left. }
    apply Forall_forall. intros a Ha.
    apply list_elem_of_lookup in Ha as (i & Ha).
    destruct (Forall2_lookup_r _ _ _ _ _ Hall Ha) as (b & Hb & Hr).
    rewrite Forall_forall in Hscan.
    destruct (Hscan b) as (Hf & Ho & _); [by eapply list_elem_of_lookup_2|].
    destruct Hr as [->|[[_ ->]|[_ (d & _ & _ & _ & _ & _ & _ & ->)]]].
    - split; [done|]. by rewrite Ho.
    - split; [done|]. done.
    - split; [done|]. done. }
  assert (Forall reported (detectModifications renamed)) as Hmod.
  { rewrite detectModifications_modifiedIn. apply Forall_forall.
    intros s Hin%list_elem_of_In.
    apply List.in_map_iff in Hin as (b & <- & Hb%list_elem_of_In).
    rewrite Forall_forall in Hren. destruct (Hren b Hb) as [Hf Ho].
    unfold modifiedIn. destruct (paired renamed (groupKey b)); [|done].
    unfold markModified. case_bool_decide as Ha; [done|].
    split; [done|]. cbn. intros Hold. by apply Ho in Hold. }
  pose proof (dedupFrom_sublist (detectModifications renamed) ∅) as Hsub.
  rewrite <- deduplicateSymbols_dedupFrom in Hsub.
  split.
  - rewrite Forall_forall in Hmod. apply Forall_forall. intros s Hs.
    apply Hmod. by eapply elem_of_sublist.
  - eapply sublist_unpaired; [exact Hsub|apply detectModifications_unpaired].
Qed.

End Extract.

End ExtractorFacts.

(* ===================================================================== *)
(** ** checks/checkRunner.ts: the summary and the verdict *)
(* ===================================================================== *)

Module CheckRunnerFacts.

Import Eff CheckRunner.
Local Open Scope eff_scope.

Definition sumDurations (results : list CheckResult) : Z :=
  fold_right Z.add 0%Z (List.map duration results).

Lemma sumDurations_app (l1 l2 : list CheckResult) :
  sumDurations (l1 ++ l2) = (sumDurations l1 + sumDurations l2)%Z.
Proof.
  unfold sumDurations. induction l1 as [|r l1 IH]; cbn; [done|]. rewrite IH. lia.
Qed.

Lemma filter_split_length {A} (p : A -> bool) (l : list A) :
  length (List.filter p l) + length (List.filter (fun x => negb (p x)) l) = length l.
Proof.
  induction l as [|x l IH]; cbn; [done|]. destruct (p x); cbn; lia.
Qed.

Section Facts.

Context {W : Type}.
Variable env : Env W.
Variable checks : gmap jsstring CheckConfig.

Lemma runLoop_total (checkNames : list jsstring) :
  forall (results : list CheckResult) (total : Z) (st : State W Event),
  exists newRes st',
    runLoop env checks checkNames results total st
    = (Ok (results ++ newRes, (total + sumDurations newRes)%Z), st')
    /\ length newRes <= length checkNames.
Proof.
  induction checkNames as [|checkName checkNames IH]; intros results total st.
  - exists [], st. cbn. rewrite app_nil_r, Z.add_0_r. by split.
  - cbn [runLoop length].
    destruct (checks !! checkName) as [config|];
      [destruct (enabled config); cbn [negb]|].
    + destruct (runSingleCheck_spec env checkName config st) as (result & w1 & Hrun & _).
      unfold bind at 1. rewrite Hrun.
      destruct (blocking config && negb (passed result)).
      * unfold bind, emit, ret. cbn [world events].
        eexists [result], _. split; [|cbn; lia].
        cbn. by rewrite Z.add_0_r.
      * destruct (IH (results ++ [result]) (total + duration result)%Z
                    (mkState w1 (events st ++ [Ran checkName (command config)
                                                 (timeoutOf config)])))
          as (newRes & st' & Hloop & Hlen).
        rewrite Hloop. exists (result :: newRes), st'.
        split; [|cbn; lia].
        rewrite <- app_assoc. cbn [app]. f_equal; f_equal. f_equal.
        unfold sumDurations. cbn [List.map fold_right]. lia.
    + unfold bind at 1, emit at 1. cbn [world events].
      destruct (IH results total
                  (mkState (world st) (events st ++ [Said LInfo
                     (lit "Check " ++ quoted checkName ++ lit " is disabled, skipping")])))
        as (newRes & st' & Hloop & Hlen).
      rewrite Hloop. exists newRes, st'. split; [done|lia].
    + unfold bind at 1, emit at 1. cbn [world events].
      destruct (IH results total
                  (mkState (world st) (events st ++ [Said LWarn
                     (lit "Check " ++ quoted checkName
                      ++ lit " not found in configuration, skipping")])))
        as (newRes & st' & Hloop & Hlen).
      rewrite Hloop. exists newRes, st'. split; [done|lia].
Qed.

(** X23: [runChecks] always returns a summary.  Its counts are those of its
    results: [totalChecks] is their number, [passed] and [failed] add up to
    it, [totalDuration] is the sum of their durations; [skipped] is [0]
    whatever names were skipped; and there are at most as many results as
    names. *)
Theorem runChecks_summary_counts (checkNames : list jsstring) (st : State W Event) :
  exists summary st',
    runChecks env checks checkNames st = (Ok summary, st')
    /\ totalChecks summary = length (results summary)
    /\ passedCount summary + failedCount summary = totalChecks summary
    /\ passedCount summary = length (List.filter passed (results summary))
    /\ skipped summary = 0
    /\ totalDuration summary = sumDurations (results summary)
    /\ length (results summary) <= length checkNames.
Proof.
  destruct (runLoop_total checkNames [] 0%Z st) as (newRes & st' & Hloop & Hlen).
  exists (summarizeResults newRes (sumDurations newRes)), st'.
  split.
  { unfold runChecks, bind, ret. by rewrite Hloop. }
  cbn [summarizeResults totalChecks passedCount failedCount skipped results
       totalDuration].
  repeat split; try done.
  apply (filter_split_length passed).
Qed.

Lemma canProceed_blockingFailure (summary : CheckSummary) :
  canProceed checks summary
  = forallb (fun r => negb (blockingFailure checks r)) (results summary).
Proof.
  unfold canProceed, blockingFailure.
  induction (results summary) as [|r l IH]; cbn [forallb]; [done|].
  rewrite IH. by destruct (checks !! name r).
Qed.

Lemma runChecks_verdict (checkNames : list jsstring) (st : State W Event) :
  exists summary st',
    runChecks env checks checkNames st = (Ok summary, st')
    /\ (canProceed checks summary = true ->
        name <$> results summary = List.filter (runnable checks) checkNames
        /\ Forall (fun r => blockingFailure checks r = false) (results summary))
    /\ (canProceed checks summary = false ->
        exists r, last (results summary) = Some r
                  /\ blockingFailure checks r = true /\ passed r = false).
Proof.
  destruct (runLoop_spec env checks checkNames [] 0%Z st)
    as (newRes & total' & newEv & w' & Hloop & ran & rest & Hsplit & Hnames & _ & Hnb & Hstop).
  exists (summarizeResults newRes total'), (mkState w' (events st ++ newEv)).
  split.
  { unfold runChecks, bind, ret. by rewrite Hloop. }
  rewrite canProceed_blockingFailure. cbn [results summarizeResults].
  split.
  - intros Hall. rewrite forallb_forall in Hall.
    assert (Forall (fun r => blockingFailure checks r = false) newRes) as Hnone.
    { apply Forall_forall. intros r Hr%list_elem_of_In.
      by apply Hall, negb_true_iff in Hr. }
    split; [|exact Hnone].
    destruct Hstop as [->|(r & Hlast & _ & Hbf)].
    + by rewrite Hsplit, app_nil_r.
    + apply last_Some_elem_of in Hlast. rewrite Forall_forall in Hnone.
      rewrite (Hnone r Hlast) in Hbf. discriminate.
  - intros Hsome.
    clear Hloop Hnames Hstop.
    induction newRes as [|r front _] using rev_ind; [discriminate|].
    rewrite removelast_last in Hnb. rewrite last_snoc.
    rewrite forallb_app in Hsome. cbn [forallb] in Hsome.
    assert (forallb (fun r => negb (blockingFailure checks r)) front = true) as Hfront.
    { apply forallb_forall. intros x Hx%list_elem_of_In.
      rewrite Forall_forall in Hnb. by rewrite (Hnb x Hx). }
    rewrite Hfront, andb_true_r in Hsome. cbn in Hsome.
    apply negb_false_iff in Hsome. exists r. split; [done|]. split; [done|].
    unfold blockingFailure in Hsome. destruct (checks !! name r); [|done].
    apply andb_true_iff in Hsome as [_ Hp]. by apply negb_true_iff in Hp.
Qed.

(** X24: the verdict of [canProceed] on the summary of [runChecks].  When it
    is [true], every requested name that is configured and enabled has its
    result, in order, and no result is a failure of a blocking check; when
    it is [false], the last result is a failure of a blocking check. *)
Theorem canProceed_after_runChecks (checkNames : list jsstring) (st : State W Event) :
  exists summary st',
    runChecks env checks checkNames st = (Ok summary, st')
    /\ (canProceed checks summary = true ->
        name <$> results summary = List.filter (runnable checks) checkNames
        /\ Forall (fun r => blockingFailure checks r = false) (results summary))
    /\ (canProceed checks summary = false ->
        exists r, last (results summary) = Some r
                  /\ blockingFailure checks r = true /\ passed r = false).
Proof. apply runChecks_verdict. Qed.

End Facts.

(** *** [runAllChecks] *)

Section All.

Context {W : Type}.
Variable env : Env W.

(** The entries of [this.checks], in the order of the [Map]. *)
Variable entries : list (jsstring * CheckConfig).

Definition checksOf : gmap jsstring CheckConfig := list_to_map entries.

Definition enabledChecks : list jsstring :=
  List.map fst (List.filter (fun e => enabled (snd e)) entries).

Definition runAllChecks : M W Event CheckSummary :=
  runChecks env checksOf enabledChecks.

Lemma enabledChecks_NoDup :
  NoDup (List.map fst entries) -> NoDup enabledChecks.
Proof.
  unfold enabledChecks. induction entries as [|[k c] l IH]; cbn; [done|].
  intros [Hk Hl]%NoDup_cons. destruct (enabled c); cbn; [|by apply IH].
  apply NoDup_cons. split; [|by apply IH].
  intros Hin. apply Hk. apply list_elem_of_In, List.in_map_iff in Hin as ([k' c'] & <- & Hin).
  apply List.filter_In in Hin as [Hin _].
  apply list_elem_of_In, List.in_map_iff. by exists (k', c').
Qed.

Lemma enabledChecks_runnable (checkName : jsstring) :
  NoDup (List.map fst entries) ->
  checkName ∈ enabledChecks -> runnable checksOf checkName = true.
Proof.
  intros Hnd Hin. unfold enabledChecks in Hin.
  apply list_elem_of_In, List.in_map_iff in Hin as ([k c] & <- & Hin).
  apply List.filter_In in Hin as [Hin Hen].
  unfold runnable, checksOf.
  rewrite (elem_of_list_to_map_1 entries k c); [done|done|by apply list_elem_of_In].
Qed.

(** X25: [runAllChecks], on a map whose keys are pairwise different, reads
    the enabled checks in the order of the map and runs each at most once.
    It ends right after the first failure of a blocking check: the enabled
    checks split into those that ran and a rest that did not; the results
    and the commands executed are those of the first part, in order; no
    result but the last is a blocking failure; and when the rest is not
    empty the last result is one.  When [canProceed] accepts the summary,
    every enabled check has run. *)
Theorem runAllChecks_runs_enabled (st : State W Event) :
  NoDup (List.map fst entries) ->
  exists summary w' newEv ran rest,
    runAllChecks st = (Ok summary, mkState w' (events st ++ newEv))
    /\ enabledChecks = ran ++ rest
    /\ name <$> results summary = ran
    /\ ranNames newEv = ran
    /\ NoDup ran
    /\ Forall (fun r => blockingFailure checksOf r = false)
              (removelast (results summary))
    /\ (rest = []
        \/ exists r, last (results summary) = Some r
                     /\ last ran = Some (name r)
                     /\ blockingFailure checksOf r = true)
    /\ (canProceed checksOf summary = true -> rest = []).
Proof.
  intros Hnd. unfold runAllChecks.
  destruct (runLoop_spec env checksOf enabledChecks [] 0%Z st)
    as (newRes & total' & newEv & w' & Hloop & ran & rest & Hsplit & Hnames & Hran
        & Hnb & Hstop).
  exists (summarizeResults newRes total'), w', newEv, ran, rest.
  split.
  { unfold runChecks, bind, ret. by rewrite Hloop. }
  cbn [results summarizeResults].
  assert (forall l, (forall x, x ∈ l -> runnable checksOf x = true) ->
                    List.filter (runnable checksOf) l = l) as Hfilter.
  { induction l as [|x l IH]; intros Hall; cbn; [done|].
    rewrite (Hall x) by (by left). f_equal. apply IH. intros y Hy. apply Hall. by right. }
  assert (name <$> newRes = ran) as Hres.
  { rewrite Hnames. apply Hfilter. intros x Hx.
    apply enabledChecks_runnable; [done|]. rewrite Hsplit, elem_of_app. by left. }
  split; [exact Hsplit|]. split; [exact Hres|].
  split; [by rewrite Hran|]. split.
  { pose proof (enabledChecks_NoDup Hnd) as Hen.
    rewrite Hsplit in Hen. by apply NoDup_app in Hen as [? _]. }
  split; [exact Hnb|]. split; [exact Hstop|].
  intros Hok. destruct Hstop as [->|(r & Hlast & _ & Hbf)]; [done|exfalso].
  rewrite canProceed_blockingFailure in Hok. cbn [results summarizeResults] in Hok.
  rewrite forallb_forall in Hok.
  apply last_Some_elem_of, list_elem_of_In, Hok in Hlast.
  by rewrite Hbf in Hlast.
Qed.

End All.

Definition sampleEntries : list (jsstring * CheckConfig) :=
  [(lit "build", mkCheckConfig true (lit "npm run build") true None None None);
   (lit "docs", mkCheckConfig false (lit "npm run docs") true None None None);
   (lit "lint", mkCheckConfig true (lit "npm run lint") true None None None);
   (lit "test", mkCheckConfig true (lit "npm test") true None None None)].

(** [lint] fails and is blocking: [test] is not run. *)
Example runAllChecks_sample :
  match runAllChecks sampleEnv sampleEntries (mkState 0%Z []) with
  | (Ok summary, st) =>
      enabledChecks sampleEntries = [lit "build"; lit "lint"; lit "test"]
      /\ List.map (fun r => (name r, passed r)) (results summary)
         = [(lit "build", true); (lit "lint", false)]
      /\ ranNames (events st) = [lit "build"; lit "lint"]
  | _ => False
  end.
Proof. vm_compute. repeat split. Qed.

Lemma runAllChecks_runs_enabled_witness :
  NoDup (List.map fst sampleEntries)
  /\ exists summary w' newEv ran rest,
       runAllChecks sampleEnv sampleEntries (mkState 0%Z [])
       = (Ok summary, mkState w' newEv)
       /\ enabledChecks sampleEntries = ran ++ rest
       /\ name <$> results summary = ran
       /\ ranNames newEv = ran.
Proof.
  assert (NoDup (List.map fst sampleEntries)) as Hnd
    by (apply (bool_decide_eq_true_1 (NoDup _)); vm_compute; reflexivity).
  split; [exact Hnd|].
  destruct (runAllChecks_runs_enabled sampleEnv sampleEntries (mkState 0%Z []) Hnd)
    as (summary & w' & newEv & ran & rest & Hrun & Hsplit & Hres & Hran & _).
  by exists summary, w', newEv, ran, rest.
Defined.

End CheckRunnerFacts.

(* ===================================================================== *)
(** ** workflows/workflowRunner.ts: dry runs and the commit steps *)
(* ===================================================================== *)

Module WorkflowFacts.

Import Eff WorkflowRunner.
Local Open Scope eff_scope.

(** What a dry run logs, step by step. *)
Definition dryRunEvents (steps : list jsstring) : list Event :=
  List.map (fun step => Said Logger LInfo (lit "[DRY RUN] Would execute: " ++ step))
           steps.

(** The calls of [diffCollector.commit] of a step that ended with [r]: one
    when it reports success, none otherwise. *)
Definition committedSuccessfully : Event :=
  Said UI LSuccess (lit "Committed successfully").

Definition commitCalls (r : Outcome bool) (newEv : list Event) : Prop :=
  match r with
  | Ok true => exists m, commits newEv = [m] /\ last newEv = Some committedSuccessfully
  | _ => commits newEv = []
  end.

Lemma commits_app (evs1 evs2 : list Event) :
  commits (evs1 ++ evs2) = commits evs1 ++ commits evs2.
Proof. unfold commits. apply omap_app. Qed.

Section Facts.

Context {W : Type}.
Variable env : Env W.

Lemma stepLoop_dryRun (config : WorkflowConfig) (remaining : list jsstring) :
  dryRun env = true ->
  forall (completed total : nat) (st : State W Event),
  stepLoop env config remaining completed total st
  = (Ok (mkResult true (completed + length remaining) total None None),
     mkState (world st) (events st ++ dryRunEvents remaining)).
Proof.
  intros Hdry. induction remaining as [|step remaining IH]; intros completed total st.
  - cbn. rewrite Nat.add_0_r, app_nil_r. by destruct st.
  - cbn [stepLoop]. unfold tryCatch, bind at 1, executeStep. rewrite Hdry.
    unfold bind, emit, ret. cbn [world events negb].
    rewrite IH. cbn [world events length dryRunEvents List.map].
    rewrite <- app_assoc. do 3 f_equal. lia.
Qed.

(** X26: a dry run executes no step: the workflow succeeds with every step
    counted, the world is left as it was, and the only events are the
    [[DRY RUN]] lines, one per step, in order. *)
Theorem executeWorkflow_dryRun (config : WorkflowConfig) (st : State W Event) :
  dryRun env = true ->
  executeWorkflow env config st
  = (Ok (mkResult true (length (steps config)) (length (steps config)) None None),
     mkState (world st) (events st ++ dryRunEvents (steps config)))
  /\ generationAttempts (dryRunEvents (steps config)) = 0
  /\ commits (dryRunEvents (steps config)) = [].
Proof.
  intros Hdry. split.
  - unfold executeWorkflow. by rewrite (stepLoop_dryRun config _ Hdry).
  - induction (steps config) as [|step l [IH1 IH2]]; [done|]. by split.
Qed.

(** *** The commit steps *)

Lemma generateTextWithFallback_no_commit (messages : list LLMMessage)
    (st : State W Event) :
  exists r w' tail,
    generateTextWithFallback env messages st = (r, mkState w' (events st ++ tail))
    /\ commits tail = [].
Proof.
  unfold generateTextWithFallback, tryCatch, bind, emit, call, throw, ret.
  cbn [world events].
  destruct (provider env messages (world st)) as [[text|error] w1].
  { by eexists _, _, [_]. }
  destruct (fallbackProvider env) as [fallback|]; [|by eexists _, _, [_]].
  cbn [world events].
  destruct (fallback messages w1) as [[text|fallbackError] w2]; cbn [world events];
    rewrite <- !app_assoc; by eexists _, _, _.
Qed.

(** Every way out of a commit step after the generation: [more] is what
    was recorded since. *)
Lemma commitCalls_after (r : Outcome bool) (tail more : list Event) :
  commits tail = [] -> commitCalls r more -> commitCalls r (tail ++ more).
Proof.
  intros Htail. unfold commitCalls. rewrite commits_app, Htail.
  destruct r as [[|]|e]; [|done..].
  intros (m & Hm & Hlast). exists m. split; [done|]. by rewrite last_app, Hlast.
Qed.

Lemma retryLoop_commits (diffContext : DiffCollector.DiffContext) (budget : nat) :
  forall (attempts : nat) (previousMessages : list jsstring) (st : State W Event),
  exists r w' newEv,
    retryLoop env diffContext budget attempts previousMessages st
    = (r, mkState w' (events st ++ newEv))
    /\ commitCalls r newEv.
Proof.
  induction budget as [|budget IH]; intros attempts previousMessages st.
  - by exists (Ok false), (world st), [maxRetriesWarning].
  - cbn [retryLoop].
    set (messages := if (1 <? attempts + 1) && (0 <? length previousMessages)
                     then _ else _).
    destruct (generateTextWithFallback_no_commit messages st)
      as (r1 & w1 & tail & Hgen & Htail).
    assert (forall (r : Outcome bool) (w : W) (more : list Event),
              commitCalls r more ->
              exists r' w' newEv,
                (r, mkState w ((events st ++ tail) ++ more))
                = (r', mkState w' (events st ++ newEv))
                /\ commitCalls r' newEv) as Hout.
    { intros r w more Hmore. exists r, w, (tail ++ more).
      split; [by rewrite <- app_assoc|]. by apply commitCalls_after. }
    assert (forall (w : W) (previous : list jsstring),
              exists r' w' newEv,
                retryLoop env diffContext budget (attempts + 1) previous
                  (mkState w (events st ++ tail))
                = (r', mkState w' (events st ++ newEv))
                /\ commitCalls r' newEv) as Hnext.
    { intros w previous.
      destruct (IH (attempts + 1) previous (mkState w (events st ++ tail)))
        as (r' & w' & newEv & Hloop & Hc).
      cbn [events] in Hloop. rewrite Hloop.
      exists r', w', (tail ++ newEv).
      split; [by rewrite <- app_assoc|]. by apply commitCalls_after. }
    unfold bind at 1. rewrite Hgen.
    destruct r1 as [response|e].
    2: { rewrite <- (app_nil_r (events st ++ _)). by apply Hout. }
    unfold bind at 1, call at 1. cbn [world events].
    destruct (promptSelect env w1) as [[answer|e] w2].
    2: { rewrite <- (app_nil_r (events st ++ _)). by apply Hout. }
    repeat case_bool_decide.
    + unfold bind, effect, emit, ret. cbn [world events].
      rewrite <- app_assoc. apply Hout. by eexists.
    + unfold bind at 1, call at 1. cbn [world events].
      destruct (promptInput env _ w2) as [[edited|e] w3].
      * unfold bind, effect, emit, ret. cbn [world events].
        rewrite <- app_assoc. apply Hout. by eexists.
      * rewrite <- (app_nil_r (events st ++ _)). by apply Hout.
    + unfold bind, emit, ret. cbn [world events]. by apply Hout.
    + apply Hnext.
    + apply Hnext.
Qed.

(** A step that always returns, and has called [diffCollector.commit] once,
    with a message that is [ok], when it reports success and never
    otherwise. *)
Definition callsCommitOnce (step : M W Event bool) (st : State W Event)
    (ok : jsstring -> Prop) : Prop :=
  exists b w' newEv,
    step st = (Ok b, mkState w' (events st ++ newEv))
    /\ if b
       then exists m, commits newEv = [m] /\ ok m
                      /\ last newEv = Some committedSuccessfully
       else commits newEv = [].

(** X27: each commit step always returns, and it has called
    [diffCollector.commit] exactly once when it reports success and not at
    all when it reports failure.  The call is not awaited: whatever it does
    to the world, and so whether or not git creates the commit, the step
    says [Committed successfully] and reports success.  The message
    [commit:auto] and [commit:review] hand over is always a valid one: 4 to
    99 code units, without line feed. *)
Theorem commit_steps_call_commit_once (st : State W Event) :
  callsCommitOnce (commitAuto env) st
    (fun m => ResponseValidator.isValidCommitMessage m = true)
  /\ callsCommitOnce (commitReview env) st
       (fun m => ResponseValidator.isValidCommitMessage m = true)
  /\ callsCommitOnce (commitInteractive env) st (fun _ => True).
Proof.
  assert (forall (e : jsstring) (w : W) (evs : list Event),
            commits evs = [] ->
            exists b w' newEv,
              (Ok false, mkState w ((events st ++ evs) ++ [Said UI LError e]))
              = (Ok b, mkState w' (events st ++ newEv))
              /\ if b
                 then exists m, commits newEv = [m]
                                /\ ResponseValidator.isValidCommitMessage m = true
                                /\ last newEv = Some committedSuccessfully
                 else commits newEv = []) as Hfail.
  { intros e w evs Hevs. exists false, w, (evs ++ [Said UI LError e]).
    split; [by rewrite <- app_assoc|]. by rewrite commits_app, Hevs. }
  repeat split.
  - unfold callsCommitOnce, commitAuto, tryCatch, bind at 1, call at 1.
    destruct (getStagedDiff env (world st)) as [[diffContext|e] w1].
    2: { unfold bind, emit, ret. cbn [world events]. by eexists false, _, [_]. }
    destruct (noStagedChanges diffContext).
    { unfold bind, emit, ret. cbn [world events]. by eexists false, _, [_]. }
    destruct (generateTextWithFallback_no_commit
                (buildBracketedCommitPrompt env diffContext) (mkState w1 (events st)))
      as (r & w2 & tail & Hgen & Htail).
    cbn [events] in Hgen. unfold bind at 1. rewrite Hgen.
    destruct r as [response|e].
    2: { unfold bind, emit, ret. cbn [world events]. by apply Hfail. }
    unfold bind, effect, emit, ret. cbn [world events].
    eexists true, _, (tail ++ [_; _]). split; [by rewrite <- !app_assoc|].
    eexists. split; [by rewrite commits_app, Htail|].
    split; [apply ResponseValidator.parseCommitMessage_isValid|].
    by rewrite last_app.
  - unfold callsCommitOnce, commitReview, tryCatch, bind at 1, call at 1.
    destruct (getStagedDiff env (world st)) as [[diffContext|e] w1].
    2: { unfold bind, emit, ret. cbn [world events]. by eexists false, _, [_]. }
    destruct (noStagedChanges diffContext).
    { unfold bind, emit, ret. cbn [world events]. by eexists false, _, [_]. }
    destruct (generateTextWithFallback_no_commit
                (buildBracketedCommitPrompt env diffContext) (mkState w1 (events st)))
      as (r & w2 & tail & Hgen & Htail).
    cbn [events] in Hgen. unfold bind at 1. rewrite Hgen.
    destruct r as [response|e].
    2: { unfold bind, emit, ret. cbn [world events]. by apply Hfail. }
    unfold bind at 1, call at 1. cbn [world events].
    destruct (promptConfirm env _ w2) as [[[|]|e] w3]; cbn [negb].
    + unfold bind, effect, emit, ret. cbn [world events].
      eexists true, _, (tail ++ [_; _]). split; [by rewrite <- !app_assoc|].
      eexists. split; [by rewrite commits_app, Htail|].
      split; [apply ResponseValidator.parseCommitMessage_isValid|].
      by rewrite last_app.
    + unfold bind, emit, ret. cbn [world events].
      eexists false, _, (tail ++ [_]). split; [by rewrite <- !app_assoc|].
      by rewrite commits_app, Htail.
    + unfold bind, emit, ret. cbn [world events]. by apply Hfail.
  - unfold callsCommitOnce, commitInteractive, tryCatch, bind at 1, call at 1.
    destruct (getStagedDiff env (world st)) as [[diffContext|e] w1].
    2: { unfold bind, emit, ret. cbn [world events]. by eexists false, _, [_]. }
    destruct (noStagedChanges diffContext).
    { unfold bind, emit, ret. cbn [world events]. by eexists false, _, [_]. }
    destruct (retryLoop_commits diffContext (maxAttempts - 0) 0 []
                (mkState w1 (events st))) as (r & w2 & newEv & Hloop & Hc).
    cbn [events] in Hloop. rewrite Hloop.
    destruct r as [[|]|e].
    + exists true, w2, newEv. split; [done|].
      destruct Hc as (m & Hm & Hlast). by exists m.
    + by exists false, w2, newEv.
    + unfold bind, emit, ret. cbn [world events].
      eexists false, _, (newEv ++ [_]). split; [by rewrite <- app_assoc|].
      cbn in Hc. by rewrite commits_app, Hc.
Qed.

(** X28: without staged changes a commit step asks no model and commits
    nothing: when [getStagedDiff] reports an empty diff or no changed file,
    or throws, each of the three commit steps reports failure with one error
    message, and nothing else happens. *)
Theorem commit_steps_need_staged_changes (st : State W Event)
    (r : Outcome DiffCollector.DiffContext) (w1 : W) :
  getStagedDiff env (world st) = (r, w1) ->
  match r with Ok diffContext => noStagedChanges diffContext = true | Throw _ => True end ->
  let said := match r with
              | Ok _ => lit "No staged changes to commit"
              | Throw e => lit "Commit failed: " ++ errMessage e
              end in
  let failed := (Ok false, mkState w1 (events st ++ [Said UI LError said])) in
  commitAuto env st = failed
  /\ commitReview env st = failed
  /\ commitInteractive env st = failed.
Proof.
  intros Hdiff Hnone said failed. subst said failed.
  repeat split;
    [unfold commitAuto|unfold commitReview|unfold commitInteractive];
    unfold tryCatch, bind at 1, call at 1; rewrite Hdiff;
    (destruct r as [diffContext|e]; [rewrite Hnone|]);
    by unfold bind, emit, ret.
Qed.

End Facts.

(** A runner made for dry runs; its collaborators are those of
    [sampleEnv]. *)
Definition dryEnv : Env nat :=
  let live := sampleEnv (lit "accept") (Ok true) (Ok []) in
  {| dryRun := true;
     provider := provider live;
     fallbackProvider := fallbackProvider live;
     checkRunAll := checkRunAll live;
     checkRun := checkRun live;
     canProceed := canProceed live;
     getStagedDiff := getStagedDiff live;
     addAll := addAll live;
     commit := commit live;
     pushRemote := pushRemote live;
     buildBracketedCommitPrompt := buildBracketedCommitPrompt live;
     promptConfirm := promptConfirm live;
     promptSelect := promptSelect live;
     promptInput := promptInput live |}.

Lemma executeWorkflow_dryRun_witness :
  dryRun dryEnv = true
  /\ fst (executeWorkflow dryEnv
            (mkConfig [lit "stage:all"; lit "commit:auto"; lit "push"] None false None)
            start)
     = Ok (mkResult true 3 3 None None).
Proof.
  split; [reflexivity|].
  destruct (executeWorkflow_dryRun dryEnv
              (mkConfig [lit "stage:all"; lit "commit:auto"; lit "push"] None false None)
              start eq_refl) as [-> _].
  reflexivity.
Defined.

(** Nothing is staged. *)
Definition emptyEnv : Env nat :=
  let live := sampleEnv (lit "accept") (Ok true) (Ok []) in
  {| dryRun := false;
     provider := provider live;
     fallbackProvider := fallbackProvider live;
     checkRunAll := checkRunAll live;
     checkRun := checkRun live;
     canProceed := canProceed live;
     getStagedDiff := fun n => (Ok (DiffCollector.mkDiffContext [] 0 false), n);
     addAll := addAll live;
     commit := commit live;
     pushRemote := pushRemote live;
     buildBracketedCommitPrompt := buildBracketedCommitPrompt live;
     promptConfirm := promptConfirm live;
     promptSelect := promptSelect live;
     promptInput := promptInput live |}.

Lemma commit_steps_need_staged_changes_witness :
  getStagedDiff emptyEnv (world start)
  = (Ok (DiffCollector.mkDiffContext [] 0 false), 0)
  /\ commitAuto emptyEnv start
     = (Ok false, mkState 0 [Said UI LError (lit "No staged changes to commit")]).
Proof.
  split; [reflexivity|].
  destruct (commit_steps_need_staged_changes emptyEnv start
              (Ok (DiffCollector.mkDiffContext [] 0 false)) 0 eq_refl eq_refl)
    as [-> _].
  reflexivity.
Defined.

End WorkflowFacts.

(* ===================================================================== *)
(** ** git/commitHistoryRetriever.ts: the summary of [CodeContextExtractor] *)
(* ===================================================================== *)

Module CodeSummary.

Import CodeContextExtractor ExtractorFacts.

(** [`${n}`] for a length. *)
Fixpoint digits (u : Decimal.uint) : jsstring :=
  match u with
  | Decimal.Nil => []
  | Decimal.D0 u => 48%N :: digits u
  | Decimal.D1 u => 49%N :: digits u
  | Decimal.D2 u => 50%N :: digits u
  | Decimal.D3 u => 51%N :: digits u
  | Decimal.D4 u => 52%N :: digits u
  | Decimal.D5 u => 53%N :: digits u
  | Decimal.D6 u => 54%N :: digits u
  | Decimal.D7 u => 55%N :: digits u
  | Decimal.D8 u => 56%N :: digits u
  | Decimal.D9 u => 57%N :: digits u
  end.

Definition decimal (n : nat) : jsstring := digits (Nat.to_uint n).

(** [groupByType]: the map keeps its keys in insertion order. *)
Fixpoint typePush (t : SymbolType) (n : jsstring)
    (map : list (SymbolType * list jsstring)) : list (SymbolType * list jsstring) :=
  match map with
  | [] => [(t, [n])]
  | (t', names) :: rest =>
      if bool_decide (t' = t) then (t', names ++ [n]) :: rest
      else (t', names) :: typePush t n rest
  end.

Definition groupByType (symbols : list CodeSymbol)
  : list (SymbolType * list jsstring) :=
  fold_left (fun map symbol => typePush (type symbol) (name symbol) map) symbols [].

Definition formatGroup (group : SymbolType * list jsstring) : jsstring :=
  let '(t, names) := group in
  match names with
  | [n] => typeString t ++ lit " " ++ n
  | _ =>
      if length names <=? 3
      then typeString t ++ lit "s " ++ join (lit ", ") names
      else decimal (length names) ++ lit " " ++ typeString t ++ lit "s"
  end.

Definition formatTypeGroup (typeMap : list (SymbolType * list jsstring)) : jsstring :=
  join (lit ", ") (List.map formatGroup typeMap).

Definition isImport (s : CodeSymbol) : bool := bool_decide (type s = TImport).
Definition hasActionOf (a : Action) (s : CodeSymbol) : bool :=
  bool_decide (action s = a).

(** One part of the summary, when [selected] is not empty. *)
Definition summaryPart (label : jsstring) (selected : list CodeSymbol)
  : list jsstring :=
  if 0 <? length selected
  then [label ++ formatTypeGroup (groupByType selected)]
  else [].

Definition generateSummary (symbols : list CodeSymbol) : jsstring :=
  if length symbols =? 0 then lit "Minor changes"
  else
    let added :=
      List.filter (fun s => hasActionOf Added s && negb (isImport s)) symbols in
    let modified := List.filter (hasActionOf Modified) symbols in
    let deleted :=
      List.filter (fun s => hasActionOf Deleted s && negb (isImport s)) symbols in
    let renamed := List.filter (hasActionOf Renamed) symbols in
    let parts :=
      summaryPart (lit "Added ") added
      ++ summaryPart (lit "Modified ") modified
      ++ summaryPart (lit "Renamed ") renamed
      ++ summaryPart (lit "Deleted ") deleted in
    join (lit "; ") parts.

Section Summary.

Variable regexMatch : Pattern -> jsstring -> option Match.
Variable toLowerCase : jsstring -> jsstring.

(** The [summary] field of [extract(diff)]: the summary of the symbols
    before they are deduplicated. *)
Definition extractSummary (diff : jsstring) : jsstring :=
  let symbols := collectSymbols regexMatch diff in
  let symbols := detectRenames toLowerCase symbols in
  let symbols := detectModifications symbols in
  generateSummary symbols.

End Summary.

Example generateSummary_sample :
  generateSummary
    [mkSymbol (lit "login") TFunction Added None (lit "a.ts");
     mkSymbol (lit "logout") TFunction Added None (lit "a.ts");
     mkSymbol (lit "User") TClass Added None (lit "a.ts");
     mkSymbol (lit "axios") TImport Added None (lit "a.ts");
     mkSymbol (lit "Session") TClass Deleted None (lit "b.ts")]
  = lit "Added functions login, logout, class User; Deleted class Session".
Proof. vm_compute. reflexivity. Qed.

Example generateSummary_counts :
  generateSummary
    (List.map (fun n => mkSymbol n TFunction Modified None (lit "a.ts"))
              [lit "a"; lit "b"; lit "c"; lit "d"])
  = lit "Modified 4 functions".
Proof. vm_compute. reflexivity. Qed.

(** *** Facts *)

(** A symbol that no part of the summary mentions: an import that was added
    or deleted. *)
Definition unmentioned (s : CodeSymbol) : bool :=
  isImport s && (hasActionOf Added s || hasActionOf Deleted s).

Lemma join_nonempty (sep p : jsstring) (parts : list jsstring) :
  p <> [] -> join sep (p :: parts) <> [].
Proof.
  intros Hp. cbn [join]. destruct parts; [done|].
  intros H. by apply app_eq_nil in H as [? _].
Qed.

Lemma summaryPart_nil (label : jsstring) (selected : list CodeSymbol) :
  summaryPart label selected = [] <-> selected = [].
Proof. unfold summaryPart. by destruct selected. Qed.

Lemma summaryPart_head (label : jsstring) (selected : list CodeSymbol)
    (rest : list jsstring) :
  label <> [] -> selected <> [] ->
  exists p, summaryPart label selected ++ rest = p :: rest /\ p <> [].
Proof.
  intros Hl Hs. unfold summaryPart. destruct selected; [done|]. cbn.
  eexists. split; [done|]. intros H. by apply app_eq_nil in H as [? _].
Qed.

Lemma filter_nil {A} (p : A -> bool) (l : list A) :
  List.filter p l = [] <-> Forall (fun x => p x = false) l.
Proof.
  induction l as [|x l IH]; cbn; [by split; constructor|].
  rewrite Forall_cons, <- IH. destruct (p x); split; (try done); [by intros [??]|by intros [_ ?]].
Qed.

Lemma generateSummary_nil (symbols : list CodeSymbol) :
  generateSummary symbols = []
  <-> symbols <> [] /\ forallb unmentioned symbols = true.
Proof.
  unfold generateSummary. destruct symbols as [|s0 symbols]; [by split; [|intros []]|].
  cbn [length Nat.eqb]. set (l := s0 :: symbols).
  set (added := List.filter _ l). set (modified := List.filter (hasActionOf Modified) l).
  set (renamed := List.filter (hasActionOf Renamed) l).
  set (deleted := List.filter (fun s => hasActionOf Deleted s && negb (isImport s)) l).
  assert (forallb unmentioned l = true
          <-> added = [] /\ modified = [] /\ renamed = [] /\ deleted = []) as ->.
  { unfold added, modified, renamed, deleted. rewrite !filter_nil, forallb_forall.
    rewrite !Forall_forall. unfold unmentioned, isImport, hasActionOf. split.
    - intros H. repeat split; intros s Hs%list_elem_of_In; specialize (H s Hs);
        destruct s as [n t a o f]; cbn in *; destruct a, t; try done.
    - intros (Ha & Hm & Hr & Hd) s Hs%list_elem_of_In.
      specialize (Ha s Hs). specialize (Hm s Hs). specialize (Hr s Hs).
      specialize (Hd s Hs).
      destruct s as [n t a o f]; cbn in *; destruct a, t; try done. }
  split.
  - intros Hjoin. split; [done|].
    destruct (decide (added = [])) as [Ha|Ha].
    2: { destruct (summaryPart_head (lit "Added ") added
                     (summaryPart (lit "Modified ") modified
                      ++ summaryPart (lit "Renamed ") renamed
                      ++ summaryPart (lit "Deleted ") deleted)) as (p & Hp & Hne);
           [done|done|].
         rewrite Hp in Hjoin. by apply join_nonempty in Hjoin. }
    rewrite Ha in Hjoin. cbn [summaryPart length Nat.ltb Nat.leb app] in Hjoin.
    destruct (decide (modified = [])) as [Hm|Hm].
    2: { destruct (summaryPart_head (lit "Modified ") modified
                     (summaryPart (lit "Renamed ") renamed
                      ++ summaryPart (lit "Deleted ") deleted)) as (p & Hp & Hne);
           [done|done|].
         rewrite Hp in Hjoin. by apply join_nonempty in Hjoin. }
    rewrite Hm in Hjoin. cbn [summaryPart length Nat.ltb Nat.leb app] in Hjoin.
    destruct (decide (renamed = [])) as [Hr|Hr].
    2: { destruct (summaryPart_head (lit "Renamed ") renamed
                     (summaryPart (lit "Deleted ") deleted)) as (p & Hp & Hne);
           [done|done|].
         rewrite Hp in Hjoin. by apply join_nonempty in Hjoin. }
    rewrite Hr in Hjoin. cbn [summaryPart length Nat.ltb Nat.leb app] in Hjoin.
    destruct (decide (deleted = [])) as [Hd|Hd]; [done|].
    destruct (summaryPart_head (lit "Deleted ") deleted []) as (p & Hp & Hne);
      [done|done|].
    rewrite app_nil_r in Hp. rewrite Hp in Hjoin. by apply join_nonempty in Hjoin.
  - intros [_ (-> & -> & -> & ->)]. reflexivity.
Qed.

Lemma summaryPart_label (label : jsstring) (selected : list CodeSymbol)
    (rest : list jsstring) :
  selected <> [] ->
  exists text, join (lit "; ") (summaryPart label selected ++ rest) = label ++ text.
Proof.
  intros Hs. unfold summaryPart. destruct selected; [done|]. cbn [length Nat.ltb Nat.leb app].
  destruct rest; cbn [join]; [by eexists|].
  rewrite <- app_assoc. by eexists.
Qed.

Lemma generateSummary_labelled (symbols : list CodeSymbol) :
  symbols <> [] ->
  generateSummary symbols = []
  \/ exists label text,
       generateSummary symbols = label ++ text
       /\ label ∈ [lit "Added "; lit "Modified "; lit "Renamed "; lit "Deleted "].
Proof.
  intros Hne. unfold generateSummary. destruct symbols as [|s0 symbols]; [done|].
  cbn [length Nat.eqb]. set (l := s0 :: symbols).
  set (added := List.filter _ l). set (modified := List.filter (hasActionOf Modified) l).
  set (renamed := List.filter (hasActionOf Renamed) l).
  set (deleted := List.filter (fun s => hasActionOf Deleted s && negb (isImport s)) l).
  destruct (decide (added = [])) as [Ha|Ha].
  2: { right. destruct (summaryPart_label (lit "Added ") added
                          (summaryPart (lit "Modified ") modified
                           ++ summaryPart (lit "Renamed ") renamed
                           ++ summaryPart (lit "Deleted ") deleted) Ha) as (text & ->).
       eexists _, text. split; [done|]. by left. }
  rewrite Ha. cbn [summaryPart length Nat.ltb Nat.leb app].
  destruct (decide (modified = [])) as [Hm|Hm].
  2: { right. destruct (summaryPart_label (lit "Modified ") modified
                          (summaryPart (lit "Renamed ") renamed
                           ++ summaryPart (lit "Deleted ") deleted) Hm) as (text & ->).
       eexists _, text. split; [done|]. right. by left. }
  rewrite Hm. cbn [summaryPart length Nat.ltb Nat.leb app].
  destruct (decide (renamed = [])) as [Hr|Hr].
  2: { right. destruct (summaryPart_label (lit "Renamed ") renamed
                          (summaryPart (lit "Deleted ") deleted) Hr) as (text & ->).
       eexists _, text. split; [done|]. do 2 right. by left. }
  rewrite Hr. cbn [summaryPart length Nat.ltb Nat.leb app].
  destruct (decide (deleted = [])) as [Hd|Hd]; [left; by rewrite Hd|].
  right. destruct (summaryPart_label (lit "Deleted ") deleted [] Hd) as (text & Ht).
  rewrite app_nil_r in Ht. rewrite Ht.
  eexists _, text. split; [done|]. do 3 right. by left.
Qed.

Lemma passes_keep_length (toLowerCase : jsstring -> jsstring)
    (symbols : list CodeSymbol) :
  length (detectModifications (detectRenames toLowerCase symbols)) = length symbols.
Proof.
  rewrite detectModifications_modifiedIn, length_map.
  symmetry. eapply Forall2_length.
  unfold detectRenames. apply (detectRenames_fold toLowerCase symbols).
  - by apply Forall_forall; intros i Hi%list_elem_of_In.
  - by apply Forall_forall; intros i Hi%list_elem_of_In.
  - apply Forall_Forall2_diag, Forall_forall. intros s _. by left.
Qed.

(** X29: the summary is [Minor changes] exactly when there is no symbol.
    Otherwise it starts with [Added], [Modified], [Renamed] or [Deleted],
    or it is the empty text; and it is the empty text exactly when there
    are symbols and every one of them is an import that was added or
    deleted.  The summary of [extract] is [Minor changes] exactly when the
    scan of the diff finds no symbol. *)
Theorem generateSummary_minor_or_empty (symbols : list CodeSymbol) :
  (generateSummary symbols = lit "Minor changes" <-> symbols = [])
  /\ (generateSummary symbols = []
      <-> symbols <> [] /\ forallb unmentioned symbols = true)
  /\ (symbols <> [] ->
      generateSummary symbols = []
      \/ exists label text,
           generateSummary symbols = label ++ text
           /\ label ∈ [lit "Added "; lit "Modified "; lit "Renamed "; lit "Deleted "])
  /\ (forall regexMatch toLowerCase diff,
        extractSummary regexMatch toLowerCase diff = lit "Minor changes"
        <-> collectSymbols regexMatch diff = []).
Proof.
  assert (forall l, generateSummary l = lit "Minor changes" <-> l = []) as Hminor.
  { intros l. split; [|by intros ->].
    intros H. destruct (decide (l = [])) as [|Hne]; [done|exfalso].
    destruct (generateSummary_labelled l Hne) as [Hnil|(label & text & Heq & Hl)].
    - by rewrite Hnil in H.
    - rewrite Heq in H.
      repeat (apply elem_of_cons in Hl as [->|Hl]; [discriminate H|]).
      by apply elem_of_nil in Hl. }
  split; [apply Hminor|].
  split; [apply generateSummary_nil|].
  split; [apply generateSummary_labelled|].
  intros regexMatch toLowerCase diff. unfold extractSummary. rewrite Hminor.
  pose proof (passes_keep_length toLowerCase (collectSymbols regexMatch diff)) as Hlen.
  split; intros H.
  - rewrite H in Hlen. symmetry in Hlen. by apply nil_length_inv.
  - apply nil_length_inv. by rewrite Hlen, H.
Qed.

End CodeSummary.

(* ===================================================================== *)
(** ** git/diffCollector.ts: [getFileChanges] *)
(* ===================================================================== *)

Module FileChanges.

Import DiffCollector JsFacts.

Inductive Status := StatusAdded | StatusModified | StatusDeleted | StatusRenamed.

Record FileChange := mkFileChange {
  path : jsstring;
  status : Status;
  insertions : Z;
  deletions : Z;
}.

Definition tab : N := 9%N.

Definition truthy (s : jsstring) : bool :=
  match s with [] => false | _ :: _ => true end.

Definition parseStatus (code : jsstring) : Status :=
  if startsWith (lit "A") code then StatusAdded
  else if startsWith (lit "D") code then StatusDeleted
  else if startsWith (lit "R") code then StatusRenamed
  else StatusModified.

(** [output.trim().split('\n').filter(l => l)] *)
Definition outputLines (output : jsstring) : list jsstring :=
  List.filter truthy (split LF (trim output)).

Section Changes.

Variable minimatch : jsstring -> jsstring -> bool.

(** [parseInt(s, 10)], [None] for [NaN]: a built-in of the language. *)
Variable parseInt : jsstring -> option Z.

(** [parseInt(part, 10) || 0], where [part] may be [undefined]. *)
Definition countOf (part : option jsstring) : Z :=
  match part with
  | Some s => default 0%Z (parseInt s)
  | None => 0%Z
  end.

(** One turn of the loop: [numstatLine] is [numstatLines[i]]. *)
Definition fileChange (ignorePatterns : list jsstring) (statusLine : jsstring)
    (numstatLine : option jsstring) : list FileChange :=
  let statusParts := split tab statusLine in
  let numstatParts :=
    match numstatLine with Some l => split tab l | None => [] end in
  if length statusParts <? 2 then []
  else
    let statusCode := nth 0 statusParts [] in
    let path := nth 1 statusParts [] in
    if shouldExclude minimatch ignorePatterns path then []
    else [mkFileChange path (parseStatus statusCode)
            (countOf (numstatParts !! 0)) (countOf (numstatParts !! 1))].

(** The loop from the index [i] on. *)
Fixpoint changesFrom (ignorePatterns : list jsstring) (numstatLines : list jsstring)
    (i : nat) (statusLines : list jsstring) : list FileChange :=
  match statusLines with
  | [] => []
  | line :: rest =>
      fileChange ignorePatterns line (numstatLines !! i)
      ++ changesFrom ignorePatterns numstatLines (S i) rest
  end.

(** [statusOutput] and [numstatOutput] are what the two calls of [execSync]
    return, [None] when one throws: the [catch] then yields the empty
    array. *)
Definition getFileChanges (ignorePatterns : list jsstring)
    (statusOutput numstatOutput : option jsstring) : list FileChange :=
  match statusOutput, numstatOutput with
  | Some statusOutput, Some numstatOutput =>
      changesFrom ignorePatterns (outputLines numstatOutput) 0
        (outputLines statusOutput)
  | _, _ => []
  end.

(** The fields of a line. *)
Definition field (i : nat) (line : jsstring) : jsstring := nth i (split tab line) [].

(** A status line that gives a file: it has two fields at least, and the
    second matches no ignore pattern. *)
Definition reportedLine (ignorePatterns : list jsstring) (line : jsstring) : bool :=
  (2 <=? length (split tab line))
  && negb (shouldExclude minimatch ignorePatterns (field 1 line)).

(** What the file of the status line at the index [i] is. *)
Definition reportedBy (statusLines numstatLines : list jsstring)
    (i : nat) (line : jsstring) (f : FileChange) : Prop :=
  statusLines !! i = Some line
  /\ path f = field 1 line
  /\ status f = parseStatus (field 0 line)
  /\ insertions f
     = countOf (match numstatLines !! i with Some l => split tab l | None => [] end !! 0)
  /\ deletions f
     = countOf (match numstatLines !! i with Some l => split tab l | None => [] end !! 1).

Lemma elem_of_join (sep piece : jsstring) (pieces : list jsstring) (x : N) :
  piece ∈ pieces -> x ∈ piece -> x ∈ join sep pieces.
Proof.
  induction pieces as [|p pieces IH]; intros Hin Hx; [by apply elem_of_nil in Hin|].
  destruct pieces as [|q pieces].
  - apply list_elem_of_singleton in Hin as ->. exact Hx.
  - change (join sep (p :: q :: pieces)) with (p ++ sep ++ join sep (q :: pieces)).
    rewrite !elem_of_app. apply elem_of_cons in Hin as [->|Hin]; [by left|].
    right. right. by apply IH.
Qed.

Lemma elem_of_split (sep : N) (s piece : jsstring) (x : N) :
  piece ∈ split sep s -> x ∈ piece -> x ∈ s.
Proof.
  intros Hin Hx. rewrite <- (join_split sep s). by eapply elem_of_join.
Qed.

Lemma fileChange_reportedLine (ignorePatterns : list jsstring) (line : jsstring)
    (numstatLine : option jsstring) :
  fileChange ignorePatterns line numstatLine
  = if reportedLine ignorePatterns line
    then [mkFileChange (field 1 line) (parseStatus (field 0 line))
            (countOf (match numstatLine with Some l => split tab l | None => [] end !! 0))
            (countOf (match numstatLine with Some l => split tab l | None => [] end !! 1))]
    else [].
Proof.
  unfold fileChange, reportedLine, field.
  destruct (Nat.ltb_spec (length (split tab line)) 2) as [Hlt|Hge].
  - by rewrite (proj2 (Nat.leb_gt _ _) Hlt).
  - rewrite (proj2 (Nat.leb_le _ _) Hge). cbn [andb].
    by destruct (shouldExclude minimatch ignorePatterns (nth 1 (split tab line) [])).
Qed.

(** The lines with their indices, from the index [i] on. *)
Fixpoint numberedFrom (i : nat) (lines : list jsstring) : list (nat * jsstring) :=
  match lines with
  | [] => []
  | line :: rest => (i, line) :: numberedFrom (S i) rest
  end.

Lemma numberedFrom_lines (i : nat) (lines : list jsstring) :
  List.map snd (numberedFrom i lines) = lines.
Proof.
  revert i. induction lines as [|line rest IH]; intros i; [done|].
  cbn [numberedFrom List.map snd]. by rewrite IH.
Qed.

Lemma numberedFrom_filter (f : jsstring -> bool) (i : nat) (lines : list jsstring) :
  List.map snd (List.filter (fun il => f (snd il)) (numberedFrom i lines))
  = List.filter f lines.
Proof.
  revert i. induction lines as [|line rest IH]; intros i; [done|].
  cbn [numberedFrom List.filter snd].
  destruct (f line); cbn [List.map snd]; by rewrite IH.
Qed.

(** The loop, started at the index [length before]: the files come one per
    reported line, in the order of the lines, each with the numbers of the
    numstat line at the index of its status line. *)
Lemma changesFrom_reported (ignorePatterns numstatLines : list jsstring)
    (rest : list jsstring) :
  forall before : list jsstring,
  Forall2 (fun il f => reportedBy (before ++ rest) numstatLines (fst il) (snd il) f)
          (List.filter (fun il => reportedLine ignorePatterns (snd il))
                       (numberedFrom (length before) rest))
          (changesFrom ignorePatterns numstatLines (length before) rest).
Proof.
  induction rest as [|line rest IH]; intros before; [constructor|].
  cbn [changesFrom numberedFrom List.filter snd]. rewrite fileChange_reportedLine.
  specialize (IH (before ++ [line])).
  rewrite length_app, Nat.add_1_r, <- app_assoc in IH. cbn [app] in IH.
  destruct (reportedLine ignorePatterns line); [|exact IH].
  cbn [app]. constructor; [|exact IH].
  unfold reportedBy. cbn [path status insertions deletions fst snd].
  split; [|done]. by rewrite list_lookup_middle.
Qed.

(** X30: [getFileChanges] reports one file for every non-empty line of the
    status output that has two tab-separated fields at least and whose
    second field matches no ignore pattern, and no other file, in the order
    of these lines.  The path of the file is that second field (so it
    matches no ignore pattern and holds no tab and no line feed), its status
    is read from the first field, and its numbers of insertions and
    deletions are read from the numstat line at the index of its status
    line.  When one of the two git calls fails nothing is reported. *)
Theorem getFileChanges_reports_kept_paths (ignorePatterns : list jsstring)
    (statusOutput numstatOutput : option jsstring) :
  let files := getFileChanges ignorePatterns statusOutput numstatOutput in
  let statusLines := default [] (outputLines <$> statusOutput) in
  let numstatLines := default [] (outputLines <$> numstatOutput) in
  let reported :=
    List.filter (fun il => reportedLine ignorePatterns (snd il))
                (numberedFrom 0 statusLines) in
  (statusOutput = None \/ numstatOutput = None -> files = [])
  /\ (statusOutput <> None -> numstatOutput <> None ->
      Forall2 (fun il f => reportedBy statusLines numstatLines (fst il) (snd il) f)
              reported files
      /\ List.map snd reported = List.filter (reportedLine ignorePatterns) statusLines
      /\ List.map path files
         = List.map (field 1) (List.filter (reportedLine ignorePatterns) statusLines))
  /\ length files <= length statusLines
  /\ Forall (fun f => shouldExclude minimatch ignorePatterns (path f) = false
                      /\ (tab ∉ path f) /\ (LF ∉ path f)) files.
Proof.
  cbn zeta. unfold getFileChanges.
  destruct statusOutput as [statusOutput|].
  2: { split; [done|]. split; [done|]. split; [cbn; lia|constructor]. }
  destruct numstatOutput as [numstatOutput|].
  2: { split; [done|]. split; [done|]. split; [cbn; lia|constructor]. }
  cbn [default fmap option_fmap option_map].
  pose proof (changesFrom_reported ignorePatterns (outputLines numstatOutput)
                (outputLines statusOutput) []) as Hall.
  cbn [app length] in Hall.
  pose proof (numberedFrom_filter (reportedLine ignorePatterns) 0
                (outputLines statusOutput)) as Hkept.
  set (files := changesFrom ignorePatterns (outputLines numstatOutput) 0
                  (outputLines statusOutput)) in *.
  set (kept := List.filter (reportedLine ignorePatterns) (outputLines statusOutput)) in *.
  assert (List.map path files = List.map (field 1) kept) as Hpaths.
  { rewrite <- Hkept. clearbody files. clear Hkept.
    induction Hall as [|il f ls fs (_ & Hp & _) _ IH]; [done|].
    cbn [List.map]. by rewrite Hp, IH. }
  split; [by intros [?|?]|]. split; [done|]. split.
  - rewrite <- (length_map path), Hpaths, length_map. apply List.filter_length_le.
  - apply Forall_forall. intros f Hf.
    assert (path f ∈ List.map (field 1) kept) as Hin.
    { rewrite <- Hpaths. apply list_elem_of_In, List.in_map. by apply list_elem_of_In. }
    apply list_elem_of_In, List.in_map_iff in Hin as (line & Hline & Hin).
    apply List.filter_In in Hin as [Hin Hrep].
    unfold reportedLine in Hrep. apply andb_true_iff in Hrep as [Hlen Hex].
    apply Nat.leb_le in Hlen. apply negb_true_iff in Hex.
    rewrite <- Hline.
    assert (field 1 line ∈ split tab line) as Hpiece
      by (apply list_elem_of_In, nth_In; lia).
    split; [exact Hex|]. split.
    + pose proof (split_no_sep tab line) as Hno.
      rewrite Forall_forall in Hno. by apply Hno.
    + intros Hlf.
      unfold outputLines in Hin. apply List.filter_In in Hin as [Hin _].
      pose proof (split_no_sep LF (trim statusOutput)) as Hno.
      rewrite Forall_forall in Hno. apply (Hno line); [by apply list_elem_of_In|].
      by eapply elem_of_split.
Qed.

End Changes.

(** A staged rename: the path reported is the old one. *)
Example getFileChanges_rename :
  getFileChanges literalMatch (fun _ => Some 1%Z) [lit "b.lock"]
    (Some (lit "R100" ++ [tab] ++ lit "old.ts" ++ [tab] ++ lit "new.ts" ++ [LF]
           ++ lit "M" ++ [tab] ++ lit "b.lock" ++ [LF]))
    (Some (lit "1" ++ [tab] ++ lit "1" ++ [tab] ++ lit "new.ts"))
  = [mkFileChange (lit "old.ts") StatusRenamed 1 1].
Proof. vm_compute. reflexivity. Qed.

End FileChanges.
